(** * A live-audio chat client: model of [App.tsx] and of [utils/audio]

    The development has two parts.  Part I embeds the program: the wire
    codec and audio decoding of [utils/audio], the message types of
    [types.ts], and the component [App] of [App.tsx] (text routing,
    [sendMessage], [stopListening], [startListening] and the callbacks of
    the live session).  Part II states and proves the properties.

    Conventions.
    - A JavaScript string is a [string]: a sequence of code units below 256.
    - A message id is the decimal rendering of an integer ([Date.now()],
      [Date.now() + 1], or the literal ['1']); it is represented by that
      integer, rendering being injective and never empty.  At run time an
      id can also be [null] (the cast [userInputId as string] checks
      nothing): the id of a record is an [option], [None] being [null].
    - A time of the audio clock is a rational number; only order, [max] and
      addition are used on times.
    - A React state setter called with an updater hands the updater to
      React, which runs it when it renders the component next: after the
      synchronous code of the handler that called the setter, in the order
      of the calls.  An updater reads the variables it closes over as they
      are when it runs.  The component is rendered after each handler, so
      an updater that closes over constants only is applied where it is
      handed over; those of [onmessage], which close over the variables of
      the session, are applied once the handler has run its synchronous
      code, with the values the variables have then.
    - A callback given to [then] on a promise runs after the synchronous
      code that registered it, and only if the promise resolves. *)

From Stdlib Require Import ZArith NArith QArith Qminmax Qround List String Ascii Bool Lia Lqa.
From Stdlib Require Import Relations.
From Stdlib.Strings Require Byte.
Import ListNotations.
Local Open Scope string_scope.
Local Open Scope list_scope.

(* ================================================================== *)
(** * Part I: the program *)
(* ================================================================== *)

(** ** Errors: the four kinds of the specification (§7), the refusal of
    the platform decoder on text that is not base64, and the error of
    reading a property of [undefined] *)

Inductive SessionError : Type :=
  | DeviceAccessError
  | ChannelError
  | MalformedAudioError
  | AlreadyActiveError
  | InvalidCharacterError
  | TypeError.

Inductive result (A : Type) : Type :=
  | Ok (a : A)
  | Err (e : SessionError).
Arguments Ok {A} a.
Arguments Err {A} e.

(** ** [utils/audio] *)

Module Audio.

Definition bytes := list Byte.byte.

Definition alphabet : string :=
  "ABCDEFGHIJKLMNOPQRSTUVWXYZabcdefghijklmnopqrstuvwxyz0123456789+/".

Definition pad : ascii := "="%char.

(** The character of a sextet. *)
Definition encChar (n : N) : ascii :=
  match String.get (N.to_nat n) alphabet with
  | Some c => c
  | None => pad
  end.

(** The sextet of a character of the alphabet. *)
Definition decChar (c : ascii) : option N :=
  let k := N_of_ascii c in
  if (65 <=? k)%N && (k <=? 90)%N then Some (k - 65)%N
  else if (97 <=? k)%N && (k <=? 122)%N then Some (k - 71)%N
  else if (48 <=? k)%N && (k <=? 57)%N then Some (k + 4)%N
  else if (k =? 43)%N then Some 62%N
  else if (k =? 47)%N then Some 63%N
  else None.

Definition byte_of (n : N) : Byte.byte :=
  match Byte.of_N (n mod 256) with
  | Some b => b
  | None => Byte.x00
  end.

(** Modelled from the spec: [encode] of [utils/audio] is not among the
    sources; §4.2 gives it standard base64 semantics, every 3 input bytes
    becoming 4 output characters, the last group padded with [=]. *)
Fixpoint encode (bs : bytes) : string :=
  match bs with
  | [] => ""
  | [a] =>
      let x := Byte.to_N a in
      String (encChar (x / 4))
        (String (encChar ((x mod 4) * 16))
           (String pad (String pad "")))
  | [a; b] =>
      let x := Byte.to_N a in
      let y := Byte.to_N b in
      String (encChar (x / 4))
        (String (encChar ((x mod 4) * 16 + y / 16))
           (String (encChar ((y mod 16) * 4))
              (String pad "")))
  | a :: b :: c :: rest =>
      let x := Byte.to_N a in
      let y := Byte.to_N b in
      let z := Byte.to_N c in
      String (encChar (x / 4))
        (String (encChar ((x mod 4) * 16 + y / 16))
           (String (encChar ((y mod 16) * 4 + z / 64))
              (String (encChar (z mod 64)) (encode rest))))
  end%N.

Definition is_empty (s : string) : bool :=
  match s with
  | EmptyString => true
  | String _ _ => false
  end.

(** Modelled from the spec: [decode] of [utils/audio] is not among the
    sources; §4.2 gives it as the inverse of [encode].  Text that is not
    padded base64 is refused ([None], the exception of the platform
    decoder). *)
Fixpoint decode (s : string) : option bytes :=
  match s with
  | EmptyString => Some []
  | String c0 (String c1 (String c2 (String c3 rest))) =>
      match decChar c0, decChar c1 with
      | Some s0, Some s1 =>
          let b0 := byte_of (s0 * 4 + s1 / 16) in
          if Ascii.eqb c2 pad then
            if Ascii.eqb c3 pad && is_empty rest then Some [b0] else None
          else
            match decChar c2 with
            | Some s2 =>
                let b1 := byte_of ((s1 mod 16) * 16 + s2 / 4) in
                if Ascii.eqb c3 pad then
                  if is_empty rest then Some [b0; b1] else None
                else
                  match decChar c3 with
                  | Some s3 =>
                      let b2 := byte_of ((s2 mod 4) * 64 + s3) in
                      match decode rest with
                      | Some bs => Some (b0 :: b1 :: b2 :: bs)
                      | None => None
                      end
                  | None => None
                  end
            | None => None
            end
      | _, _ => None
      end
  | _ => None
  end%N.

(** Characters produced for [n] bytes: four per group of three, the last
    group completed by padding. *)
Definition encoded_length (n : nat) : nat := 4 * ((n + 2) / 3).

(** A decoded buffer: what [decodeAudioData] hands to the output context. *)
Record AudioBuffer : Type := mkAudioBuffer {
  numberOfChannels : positive;
  sampleRate : positive;
  channelData : list Z          (* interleaved signed 16-bit samples *)
}.

(** Frames per channel. *)
Definition length (b : AudioBuffer) : N :=
  (N.of_nat (List.length (channelData b)) / Npos (numberOfChannels b))%N.

(** Seconds of audio: frames over frames per second. *)
Definition duration (b : AudioBuffer) : Q :=
  Z.of_N (length b) # sampleRate b.

Definition int16_of_le (lo hi : Byte.byte) : Z :=
  let u := (Z.of_N (Byte.to_N lo) + 256 * Z.of_N (Byte.to_N hi))%Z in
  if (32768 <=? u)%Z then (u - 65536)%Z else u.

Fixpoint samples_of_bytes (bs : bytes) : list Z :=
  match bs with
  | lo :: hi :: rest => int16_of_le lo hi :: samples_of_bytes rest
  | _ => []
  end.

(** Modelled from the spec: [decodeAudioData] of [utils/audio] is not among
    the sources; §4.2: the bytes are 16-bit PCM samples, the sample count is
    byte length / 2 / channelCount, the duration is sample count /
    sampleRate, and a byte length that is not a whole multiple of
    [2 * channelCount] fails with [MalformedAudioError]. *)
Definition decodeAudioData (data : bytes) (rate numChannels : positive)
  : result AudioBuffer :=
  if (N.of_nat (List.length data) mod (2 * Npos numChannels) =? 0)%N
  then Ok (mkAudioBuffer numChannels rate (samples_of_bytes data))
  else Err MalformedAudioError.

End Audio.

(** ** [types.ts] *)

Module Types.

Inductive ChatRole : Type := USER | AI | SYSTEM.

Inductive SourceType : Type := search | maps.

Record GroundingSource : Type := mkSource {
  title : string;
  uri : string;
  type : SourceType
}.

Record Message : Type := mkMessage {
  id : option Z;             (* None: null *)
  role : ChatRole;
  text : string;
  sources : option (list GroundingSource);
  isLoading : option bool
}.

(** [{ ...msg, text: t }] *)
Definition with_text (t : string) (msg : Message) : Message :=
  mkMessage (id msg) (role msg) t (sources msg) (isLoading msg).

Definition ChatRole_eqb (a b : ChatRole) : bool :=
  match a, b with
  | USER, USER | AI, AI | SYSTEM, SYSTEM => true
  | _, _ => false
  end.

(** [a === b] on two ids, each a string or [null]. *)
Definition id_eqb (a b : option Z) : bool :=
  match a, b with
  | Some x, Some y => (x =? y)%Z
  | None, None => true
  | _, _ => false
  end.

End Types.

(** ** [App.tsx]: text routing *)

Module Routing.

Definition between (lo hi k : N) : bool := ((lo <=? k) && (k <=? hi))%N.

(** [toLowerCase] on one code unit below 256: the letters [A]-[Z] and the
    accented capitals U+00C0-U+00DE (the sign U+00D7 apart) move up by 32. *)
Definition toLowerCase_unit (c : ascii) : ascii :=
  let k := N_of_ascii c in
  if between 65 90 k || (between 192 222 k && negb (k =? 215)%N)
  then ascii_of_N (k + 32)
  else c.

Fixpoint toLowerCase (s : string) : string :=
  match s with
  | EmptyString => EmptyString
  | String c rest => String (toLowerCase_unit c) (toLowerCase rest)
  end.

(** [s.includes(k)]: [k] starts at some position of [s]. *)
Fixpoint includes (s k : string) : bool :=
  String.prefix k s ||
  match s with
  | EmptyString => false
  | String _ rest => includes rest k
  end.

Definition hasGroundingKeywords (text : string) (keywords : list string) : bool :=
  let lowerText := toLowerCase text in
  existsb (fun keyword => includes lowerText keyword) keywords.

Definition SEARCH_KEYWORDS : list string :=
  ["who"; "what is"; "when"; "latest"; "news"; "search for"].

Definition MAPS_KEYWORDS : list string :=
  ["where"; "nearby"; "directions"; "restaurants"; "locations"; "find"].

(** The three branches of the conditional of [sendMessage]. *)
Inductive Route : Type := MapsGrounding | SearchGrounding | StandardChat.

Definition route (messageText : string) : Route :=
  if hasGroundingKeywords messageText MAPS_KEYWORDS then MapsGrounding
  else if hasGroundingKeywords messageText SEARCH_KEYWORDS then SearchGrounding
  else StandardChat.

(** [k] occurs in [s]. *)
Definition substring (k s : string) : Prop :=
  exists pre post : string, s = (pre ++ k ++ post)%string.

End Routing.

(** ** [App.tsx]: the component *)

Module App.

Import Types.

(** *** Platform objects held in refs *)

Definition Chat := unit.
Definition LiveSession := nat.
Definition MediaStream := nat.
Definition ScriptProcessorNode := nat.

(** The promise that [ai.live.connect] returns: it resolves to a session,
    or it is rejected. *)
Inductive SessionPromise : Type :=
  | resolves (session : LiveSession)
  | rejects.

Inductive AudioContextState : Type := suspended | running | closed.

Record AudioContext : Type := mkAudioContext {
  ctx : nat;
  ctxRate : N;
  state : AudioContextState
}.

Definition is_closed (c : AudioContext) : bool :=
  match state c with
  | closed => true
  | _ => false
  end.

(** Calls made on platform objects, in order. *)
Inductive DeviceCall : Type :=
  | SessionClose (s : LiveSession)
  | TrackStop (m : MediaStream)
  | ProcessorDisconnect (p : ScriptProcessorNode)
  | ContextClose (c : AudioContext)
  | ContextCreate (c : nat) (rate : N)
  | LiveConnect (p : SessionPromise).

(** [AudioContext.close()] is refused on a context that is closed; no other
    call of the component can fail. *)
Definition refused (c : DeviceCall) : bool :=
  match c with
  | ContextClose a => is_closed a
  | _ => false
  end.

(** *** State of the component: React state, refs, and the calls made *)

Record State : Type := mkState {
  messages : list Message;
  input : string;
  isListening : bool;
  isLoading : bool;
  isApiKeyReady : bool;
  chatRef : option Chat;
  sessionPromiseRef : option SessionPromise;
  mediaStreamRef : option MediaStream;
  audioContextRef : option AudioContext;
  scriptProcessorRef : option ScriptProcessorNode;
  calls : list DeviceCall
}.

Definition greeting : Message :=
  mkMessage (Some 1%Z) AI
    "Hello! How can I help you today? You can ask me questions, or press the microphone to talk."
    None None.

Definition initial : State :=
  mkState [greeting] "" false false false None None None None None [].

Definition setMessages (f : list Message -> list Message) (st : State) : State :=
  mkState (f (messages st)) (input st) (isListening st) (isLoading st)
    (isApiKeyReady st) (chatRef st) (sessionPromiseRef st) (mediaStreamRef st)
    (audioContextRef st) (scriptProcessorRef st) (calls st).

Definition setInput (v : string) (st : State) : State :=
  mkState (messages st) v (isListening st) (isLoading st)
    (isApiKeyReady st) (chatRef st) (sessionPromiseRef st) (mediaStreamRef st)
    (audioContextRef st) (scriptProcessorRef st) (calls st).

Definition setIsListening (v : bool) (st : State) : State :=
  mkState (messages st) (input st) v (isLoading st)
    (isApiKeyReady st) (chatRef st) (sessionPromiseRef st) (mediaStreamRef st)
    (audioContextRef st) (scriptProcessorRef st) (calls st).

Definition setIsLoading (v : bool) (st : State) : State :=
  mkState (messages st) (input st) (isListening st) v
    (isApiKeyReady st) (chatRef st) (sessionPromiseRef st) (mediaStreamRef st)
    (audioContextRef st) (scriptProcessorRef st) (calls st).

Definition setIsApiKeyReady (v : bool) (st : State) : State :=
  mkState (messages st) (input st) (isListening st) (isLoading st)
    v (chatRef st) (sessionPromiseRef st) (mediaStreamRef st)
    (audioContextRef st) (scriptProcessorRef st) (calls st).

Definition set_chatRef (v : option Chat) (st : State) : State :=
  mkState (messages st) (input st) (isListening st) (isLoading st)
    (isApiKeyReady st) v (sessionPromiseRef st) (mediaStreamRef st)
    (audioContextRef st) (scriptProcessorRef st) (calls st).

Definition set_sessionPromiseRef (v : option SessionPromise) (st : State) : State :=
  mkState (messages st) (input st) (isListening st) (isLoading st)
    (isApiKeyReady st) (chatRef st) v (mediaStreamRef st)
    (audioContextRef st) (scriptProcessorRef st) (calls st).

Definition set_mediaStreamRef (v : option MediaStream) (st : State) : State :=
  mkState (messages st) (input st) (isListening st) (isLoading st)
    (isApiKeyReady st) (chatRef st) (sessionPromiseRef st) v
    (audioContextRef st) (scriptProcessorRef st) (calls st).

Definition set_audioContextRef (v : option AudioContext) (st : State) : State :=
  mkState (messages st) (input st) (isListening st) (isLoading st)
    (isApiKeyReady st) (chatRef st) (sessionPromiseRef st) (mediaStreamRef st)
    v (scriptProcessorRef st) (calls st).

Definition set_scriptProcessorRef (v : option ScriptProcessorNode) (st : State) : State :=
  mkState (messages st) (input st) (isListening st) (isLoading st)
    (isApiKeyReady st) (chatRef st) (sessionPromiseRef st) (mediaStreamRef st)
    (audioContextRef st) v (calls st).

(** A call on a platform object, appended to the trace. *)
Definition call (c : DeviceCall) (st : State) : State :=
  mkState (messages st) (input st) (isListening st) (isLoading st)
    (isApiKeyReady st) (chatRef st) (sessionPromiseRef st) (mediaStreamRef st)
    (audioContextRef st) (scriptProcessorRef st) (calls st ++ [c]).

(** [prev => [...prev, m]] *)
Definition append (m : Message) (prev : list Message) : list Message :=
  prev ++ [m].

(** [prev => prev.map(msg => msg.id === i ? { ...msg, text: t } : msg)],
    [i] being a string or [null]. *)
Definition retext (i : option Z) (t : string) (prev : list Message) : list Message :=
  map (fun msg => if id_eqb (id msg) i then with_text t msg else msg) prev.

(** *** [sendMessage] *)

Definition isWhiteSpace (c : ascii) : bool :=
  let k := N_of_ascii c in
  Routing.between 9 13 k || (k =? 32)%N || (k =? 160)%N.

Fixpoint trimStart (s : string) : string :=
  match s with
  | EmptyString => EmptyString
  | String c rest => if isWhiteSpace c then trimStart rest else s
  end.

Fixpoint trimEnd (s : string) : string :=
  match s with
  | EmptyString => EmptyString
  | String c rest =>
      match trimEnd rest with
      | EmptyString => if isWhiteSpace c then EmptyString else String c EmptyString
      | r => String c r
      end
  end.

Definition trim (s : string) : string := trimEnd (trimStart s).

Fixpoint whitespace_only (s : string) : bool :=
  match s with
  | EmptyString => true
  | String c rest => isWhiteSpace c && whitespace_only rest
  end.

(** How the [try] block of [sendMessage] goes: [new GoogleGenAI] throws
    (line 61), before anything of the branch is run; or the client is there
    and the request of the branch (for the maps, the position before it)
    fails; or the request is answered.  [message] is the message of what
    was thrown, if it is an [Error]. *)
Inductive Response : Type :=
  | Replied (responseText : string) (groundingSources : list GroundingSource)
  | Failed (message : option string)
  | NoClient (message : option string).

Record SendEnv : Type := mkSendEnv {
  sendNow : Z;                                   (* Date.now(), user message *)
  sendNow' : Z;                                  (* Date.now(), placeholder *)
  errorNow : Z;                                  (* Date.now(), error message *)
  backend : Routing.Route -> string -> Response  (* the [try] block *)
}.

(** What was thrown in the [try] block, if anything was. *)
Definition thrown (r : Response) : option (option string) :=
  match r with
  | Replied _ _ => None
  | Failed message => Some message
  | NoClient message => Some message
  end.

(** [initializeChat], its constructor returning (it is given what the
    constructor of line 61 was given, and is reached only past that one). *)
Definition initializeChat (st : State) : State :=
  match chatRef st with
  | None => set_chatRef (Some tt) st
  | Some _ => st
  end.

(** [prev.map(msg => msg.id === aiMessageId ? { ...msg, text, sources, isLoading: false } : msg)] *)
Definition resolve_placeholder (aiMessageId : Z) (t : string)
  (srcs : list GroundingSource) (prev : list Message) : list Message :=
  map (fun msg =>
         if id_eqb (id msg) (Some aiMessageId)
         then mkMessage (id msg) (role msg) t (Some srcs) (Some false)
         else msg) prev.

(** [prev.map(msg => msg.id === aiMessageId ? { ...msg, text, isLoading: false } : msg)] *)
Definition fail_placeholder (aiMessageId : Z) (t : string)
  (prev : list Message) : list Message :=
  map (fun msg =>
         if id_eqb (id msg) (Some aiMessageId)
         then mkMessage (id msg) (role msg) t (sources msg) (Some false)
         else msg) prev.

Definition error_text (message : option string) : string :=
  match message with
  | Some m => m
  | None => "An unknown error occurred."
  end.

(** The branch of the conditional, up to its request: the plain chat
    creates the chat object if there is none. *)
Definition enter_branch (r : Routing.Route) (st : State) : State :=
  match r with
  | Routing.StandardChat => initializeChat st
  | _ => st
  end.

Definition sendMessage (messageText : string) (env : SendEnv) (st : State) : State :=
  if Audio.is_empty (trim messageText) || isLoading st then st
  else
    let st := setIsLoading true st in
    let userMessage := mkMessage (Some (sendNow env)) USER messageText None None in
    let st := setMessages (append userMessage) st in
    let st := setInput "" st in
    let aiMessageId := (sendNow' env + 1)%Z in
    let aiMessagePlaceholder :=
      mkMessage (Some aiMessageId) AI "" None (Some true) in
    let st := setMessages (append aiMessagePlaceholder) st in
    let r := Routing.route messageText in
    let st :=
      match backend env r messageText with
      | NoClient message =>
          setMessages
            (fail_placeholder aiMessageId
               ("Sorry, I ran into an error: " ++ error_text message)%string) st
      | Failed message =>
          let st := enter_branch r st in
          setMessages
            (fail_placeholder aiMessageId
               ("Sorry, I ran into an error: " ++ error_text message)%string) st
      | Replied responseText srcs =>
          let st := enter_branch r st in
          let srcs := match r with Routing.StandardChat => [] | _ => srcs end in
          setMessages (resolve_placeholder aiMessageId responseText srcs) st
      end in
    setIsLoading false st.

(** *** [stopListening] *)

(** [stopListening].  Its first statement hands [session => session.close()]
    to the promise of the session and clears the ref; the callback runs
    once [stopListening] and its caller have returned (no caller runs
    anything after it), if the promise resolves, so that [close()] comes
    after the three calls made on the way.  When the promise is still
    pending the callback runs later still; the trace has it where it can
    run at the earliest. *)
Definition stopListening (st : State) : State :=
  let promise := sessionPromiseRef st in
  let st :=
    match promise with
    | Some _ => set_sessionPromiseRef None st
    | None => st
    end in
  let st :=
    match mediaStreamRef st with
    | Some stream => set_mediaStreamRef None (call (TrackStop stream) st)
    | None => st
    end in
  let st :=
    match scriptProcessorRef st with
    | Some node => set_scriptProcessorRef None (call (ProcessorDisconnect node) st)
    | None => st
    end in
  let st :=
    match audioContextRef st with
    | Some c =>
        if negb (is_closed c)
        then set_audioContextRef None (call (ContextClose c) st)
        else st
    | None => st
    end in
  let st := setIsListening false st in
  match promise with
  | Some (resolves session) => call (SessionClose session) st
  | _ => st
  end.

(** *** The live session: variables of one [startListening] *)

Record PlaybackQueueEntry : Type := mkEntry {
  buffer : Audio.AudioBuffer;
  startTime : Q;          (* the argument of [source.start] *)
  clockAtEnqueue : Q      (* [outputAudioContext.currentTime] as read for it *)
}.

Record Live : Type := mkLive {
  currentInputTranscription : string;
  currentOutputTranscription : string;
  nextStartTime : Q;
  userInputId : option Z;
  aiResponseId : option Z;
  scheduled : list PlaybackQueueEntry   (* sources started on the output node *)
}.

Definition fresh : Live := mkLive "" "" 0 None None [].

Definition set_nextStartTime (t : Q) (l : Live) : Live :=
  mkLive (currentInputTranscription l) (currentOutputTranscription l) t
    (userInputId l) (aiResponseId l) (scheduled l).

Record StartEnv : Type := mkStartEnv {
  getUserMedia : option MediaStream;     (* None: the request is refused *)
  newGoogleGenAI : bool;                 (* false: the constructor throws *)
  newOutputAudioContext : option nat;    (* None: the constructor throws *)
  liveConnect : SessionPromise;
  startNow : Z                           (* Date.now() of the catch block *)
}.

(** How the promise of an asynchronous function settles. *)
Inductive Settled : Type :=
  | Resolved
  | Rejected (e : SessionError).

(** The [catch] block of [startListening]. *)
Definition start_catch (env : StartEnv) (st : State) : State :=
  setMessages
    (append (mkMessage (Some (startNow env)) SYSTEM
               "Could not access microphone. Please check permissions." None None))
    (setIsListening false st).

(** [startListening] from the point where its [await] of [getUserMedia]
    returns or throws, on the state the component has by then. *)
Definition startListening_resume (env : StartEnv) (st : State)
  : State * option Live * Settled :=
  match getUserMedia env with
  | None => (start_catch env st, None, Resolved)
  | Some stream =>
      let st := set_mediaStreamRef (Some stream) st in
      let st := setIsListening true st in
      if negb (newGoogleGenAI env) then (start_catch env st, None, Resolved)
      else
        match newOutputAudioContext env with
        | None => (start_catch env st, None, Resolved)
        | Some c =>
            let st := call (ContextCreate c 24000) st in
            let st := call (LiveConnect (liveConnect env)) st in
            let st := set_sessionPromiseRef (Some (liveConnect env)) st in
            (st, Some fresh, Resolved)
        end
  end.

(** [startListening] with nothing run during its [await]: the guard, then
    the rest on the same state.  The guard is read before the [await]; what
    runs in between, another [startListening] included, is an operation of
    its own in [reachable] below. *)
Definition startListening (env : StartEnv) (st : State)
  : State * option Live * Settled :=
  if isListening st then (stopListening st, None, Resolved)
  else startListening_resume env st.

(** *** Callbacks of the live session *)

(** [onopen]: the capture context and its processing node. *)
Definition onopen (c : nat) (node : ScriptProcessorNode) (st : State) : State :=
  let st := call (ContextCreate c 16000) st in
  let st := set_audioContextRef (Some (mkAudioContext c 16000 running)) st in
  match mediaStreamRef st with
  | None => st                       (* createMediaStreamSource(null) throws *)
  | Some _ => set_scriptProcessorRef (Some node) st
  end.

(** [onerror] of [App.tsx]. *)
Definition onerror (now : Z) (e_message : string) (st : State) : State :=
  let st :=
    setMessages
      (append (mkMessage (Some now) SYSTEM
                 ("Connection error: " ++ e_message)%string None None)) st in
  stopListening st.

(** [handleApiError] of the later revision of the component. *)
Definition handleApiError (now : Z) (error : option string)
  (aiMessageId : option Z) (st : State) : State :=
  let errorMessage := error_text error in
  if Routing.includes errorMessage "API Key"
     || Routing.includes errorMessage "Requested entity was not found"
  then
    let st := setIsApiKeyReady false st in
    let systemMessage :=
      mkMessage (Some now) SYSTEM
        "Your API key is invalid or missing. Please select a valid key to continue."
        None None in
    match aiMessageId with
    | Some k =>
        setMessages
          (fun prev =>
             filter (fun msg => negb (id_eqb (id msg) (Some k))) prev
               ++ [systemMessage]) st
    | None => setMessages (append systemMessage) st
    end
  else
    let displayError := ("Sorry, I ran into an error: " ++ errorMessage)%string in
    match aiMessageId with
    | Some k => setMessages (fail_placeholder k displayError) st
    | None =>
        setMessages (append (mkMessage (Some now) SYSTEM displayError None None)) st
    end.

(** [sendMessage] of the later revision: the same but for its [catch]
    block, which is [handleApiError(error, aiMessageId)]. *)
Definition sendMessage' (messageText : string) (env : SendEnv) (st : State) : State :=
  if Audio.is_empty (trim messageText) || isLoading st then st
  else
    let st := setIsLoading true st in
    let userMessage := mkMessage (Some (sendNow env)) USER messageText None None in
    let st := setMessages (append userMessage) st in
    let st := setInput "" st in
    let aiMessageId := (sendNow' env + 1)%Z in
    let aiMessagePlaceholder :=
      mkMessage (Some aiMessageId) AI "" None (Some true) in
    let st := setMessages (append aiMessagePlaceholder) st in
    let r := Routing.route messageText in
    let st :=
      match backend env r messageText with
      | NoClient message =>
          handleApiError (errorNow env) message (Some aiMessageId) st
      | Failed message =>
          let st := enter_branch r st in
          handleApiError (errorNow env) message (Some aiMessageId) st
      | Replied responseText srcs =>
          let st := enter_branch r st in
          let srcs := match r with Routing.StandardChat => [] | _ => srcs end in
          setMessages (resolve_placeholder aiMessageId responseText srcs) st
      end in
    setIsLoading false st.

(** [onerror] of the later revision: [handleApiError(new Error(e.message))]
    and then [stopListening()]. *)
Definition onerror' (now : Z) (e_message : string) (st : State) : State :=
  stopListening (handleApiError now (Some e_message) None st).

(** What [message.serverContent?.modelTurn?.parts[0]?.inlineData.data]
    (line 223) comes to: [undefined] (no model turn, no first part, or an
    [inlineData] without [data]), a string, or a [TypeError] (a model turn
    without [parts], or a first part without [inlineData]). *)
Inductive InlineData : Type :=
  | NoData
  | Data (base64Audio : string)
  | NoInlineData.

(** One message of the remote service: the four fields [onmessage] reads. *)
Record ServerMessage : Type := mkServerMessage {
  inputTranscription : option string;
  outputTranscription : option string;
  turnComplete : bool;
  inlineData : InlineData
}.

(** What one run of [onmessage] reads from its environment. *)
Record Env : Type := mkEnv {
  dateNow : Z;          (* Date.now() for the user record *)
  dateNow' : Z;         (* Date.now() for the AI record *)
  currentTime : Q       (* outputAudioContext.currentTime *)
}.

(** The events of the specification (§3, InboundEvent) as messages with one
    field. *)
Definition InputTranscriptDelta (t : string) : ServerMessage :=
  mkServerMessage (Some t) None false NoData.

Definition OutputTranscriptDelta (t : string) : ServerMessage :=
  mkServerMessage None (Some t) false NoData.

Definition TurnComplete : ServerMessage :=
  mkServerMessage None None true NoData.

Definition AudioChunk (b : Audio.bytes) : ServerMessage :=
  mkServerMessage None None false (Data (Audio.encode b)).

(** Where a run of [onmessage] stops. *)
Inductive Suspension : Type :=
  | Completed
  | Threw (e : SessionError)
  | Awaiting (audioBuffer : Audio.AudioBuffer) (clock : Q).

Definition emphasis (s : string) : string := ("*" ++ s ++ "*")%string.

(** The five updaters that [onmessage] hands to [setMessages] (lines 196,
    198, 207, 209 and 215).  Each closes over the variables of the session
    and reads them when it runs; [fullInput] alone is a constant of its
    closure. *)
Inductive Updater : Type :=
  | AppendUserRecord
  | RetextUserRecord
  | AppendAIRecord
  | RetextAIRecord
  | FinalizeUserRecord (fullInput : string).

Definition run_updater (l : Live) (u : Updater) (prev : list Message)
  : list Message :=
  match u with
  | AppendUserRecord =>
      append (mkMessage (userInputId l) USER
                (emphasis (currentInputTranscription l)) None None) prev
  | RetextUserRecord =>
      retext (userInputId l) (emphasis (currentInputTranscription l)) prev
  | AppendAIRecord =>
      append (mkMessage (aiResponseId l) AI
                (currentOutputTranscription l) None None) prev
  | RetextAIRecord =>
      retext (aiResponseId l) (currentOutputTranscription l) prev
  | FinalizeUserRecord fullInput =>
      retext (userInputId l) fullInput prev
  end.

(** The component is rendered: the updaters handed over are run in their
    order, on the variables of the session as they are. *)
Definition render (l : Live) (queue : list Updater) (st : State) : State :=
  setMessages (fun prev => fold_left (fun ms u => run_updater l u ms) queue prev) st.

Definition on_inputTranscription (env : Env) (message : ServerMessage)
  (l : Live) : Live * list Updater :=
  match inputTranscription message with
  | None => (l, [])
  | Some t =>
      let cur := (currentInputTranscription l ++ t)%string in
      match userInputId l with
      | None =>
          let uid := dateNow env in
          (mkLive cur (currentOutputTranscription l) (nextStartTime l)
             (Some uid) (aiResponseId l) (scheduled l),
           [AppendUserRecord])
      | Some uid =>
          (mkLive cur (currentOutputTranscription l) (nextStartTime l)
             (Some uid) (aiResponseId l) (scheduled l),
           [RetextUserRecord])
      end
  end.

Definition on_outputTranscription (env : Env) (message : ServerMessage)
  (l : Live) : Live * list Updater :=
  match outputTranscription message with
  | None => (l, [])
  | Some t =>
      let cur := (currentOutputTranscription l ++ t)%string in
      match aiResponseId l with
      | None =>
          let aid := (dateNow' env + 1)%Z in
          (mkLive (currentInputTranscription l) cur (nextStartTime l)
             (userInputId l) (Some aid) (scheduled l),
           [AppendAIRecord])
      | Some aid =>
          (mkLive (currentInputTranscription l) cur (nextStartTime l)
             (userInputId l) (Some aid) (scheduled l),
           [RetextAIRecord])
      end
  end.

Definition on_turnComplete (message : ServerMessage)
  (l : Live) : Live * list Updater :=
  if turnComplete message then
    let fullInput := currentInputTranscription l in
    (mkLive "" "" (nextStartTime l) None None (scheduled l),
     [FinalizeUserRecord fullInput])
  else (l, []).

(** The audio part of [onmessage], up to its [await]. *)
Definition on_audio (env : Env) (message : ServerMessage) (l : Live)
  : Live * Suspension :=
  match inlineData message with
  | NoData => (l, Completed)
  | NoInlineData => (l, Threw TypeError)
  | Data base64Audio =>
      if Audio.is_empty base64Audio then (l, Completed)
      else
        let l := set_nextStartTime (Qmax (nextStartTime l) (currentTime env)) l in
        match Audio.decode base64Audio with
        | None => (l, Threw InvalidCharacterError)
        | Some data =>
            match Audio.decodeAudioData data 24000 1 with
            | Err e => (l, Threw e)
            | Ok audioBuffer => (l, Awaiting audioBuffer (currentTime env))
            end
        end
  end.

(** [onmessage], from its start to its [await] or its end, and the
    rendering that follows: the updaters it has handed over read the
    variables as its assignments have left them. *)
Definition onmessage (env : Env) (message : ServerMessage)
  (l : Live) (st : State) : Live * State * Suspension :=
  let '(l, q1) := on_inputTranscription env message l in
  let '(l, q2) := on_outputTranscription env message l in
  let '(l, q3) := on_turnComplete message l in
  let '(l, s) := on_audio env message l in
  (l, render l (q1 ++ q2 ++ q3) st, s).

(** [onmessage] after its [await]: the source is started at the cursor, and
    the cursor moves by the duration of the buffer. *)
Definition onmessage_resume (audioBuffer : Audio.AudioBuffer) (clock : Q)
  (l : Live) : Live :=
  mkLive (currentInputTranscription l) (currentOutputTranscription l)
    (nextStartTime l + Audio.duration audioBuffer)
    (userInputId l) (aiResponseId l)
    (scheduled l ++ [mkEntry audioBuffer (nextStartTime l) clock]).

(** *** Runs of the live session

    Messages are delivered in order; a run of [onmessage] that awaits its
    buffer is resumed at any later point, other messages being delivered
    in between or not. *)

Record Pending : Type := mkPending {
  pendingBuffer : Audio.AudioBuffer;
  pendingClock : Q
}.

Record Run : Type := mkRun {
  component : State;
  live : Live;
  awaiting : list Pending
}.

Inductive Event : Type :=
  | Deliver (env : Env) (message : ServerMessage)
  | Resume (k : nat).

Fixpoint drop_nth {A : Type} (k : nat) (l : list A) : list A :=
  match k, l with
  | _, [] => []
  | O, _ :: tl => tl
  | S k', x :: tl => x :: drop_nth k' tl
  end.

Definition step (r : Run) (ev : Event) : Run :=
  match ev with
  | Deliver env message =>
      let '(l, st, s) := onmessage env message (live r) (component r) in
      mkRun st l
        (awaiting r ++
           match s with
           | Awaiting b c => [mkPending b c]
           | _ => []
           end)
  | Resume k =>
      match nth_error (awaiting r) k with
      | Some p =>
          mkRun (component r)
            (onmessage_resume (pendingBuffer p) (pendingClock p) (live r))
            (drop_nth k (awaiting r))
      | None => r
      end
  end.

Definition run (r : Run) (evs : list Event) : Run := fold_left step evs r.

(** A message handled to its end before the next one is delivered. *)
Definition handle (env : Env) (message : ServerMessage) (r : Run) : Run :=
  step (step r (Deliver env message)) (Resume (List.length (awaiting r))).

(** Entries scheduled back to back or later: none starts before the one
    before it has ended. *)
Fixpoint no_overlap (q : list PlaybackQueueEntry) : Prop :=
  match q with
  | [] => True
  | e :: tl =>
      match tl with
      | [] => True
      | e' :: _ => startTime e + Audio.duration (buffer e) <= startTime e'
      end /\ no_overlap tl
  end.

(** What every run of the session keeps: the queue is free of overlap,
    every entry ends at or before the cursor and starts at or after the
    clock reading taken for it, and the cursor is at or after the clock
    reading of every run of [onmessage] that still awaits its buffer. *)
Definition scheduler_invariant (r : Run) : Prop :=
  no_overlap (scheduled (live r)) /\
  Forall (fun e => startTime e + Audio.duration (buffer e)
                   <= nextStartTime (live r)) (scheduled (live r)) /\
  Forall (fun e => clockAtEnqueue e <= startTime e) (scheduled (live r)) /\
  Forall (fun p => pendingClock p <= nextStartTime (live r)) (awaiting r).

(** *** States of the component

    From [initial], by the operations of the component and the callbacks
    of its sessions.  A [startListening] that has passed its guard is
    resumed at any later point ([startListening_resume]), whatever has run
    during its [await]: the button is not disabled meanwhile. *)
Inductive reachable : State -> Prop :=
  | reach_initial : reachable initial
  | reach_setInput v st :
      reachable st -> reachable (setInput v st)
  | reach_sendMessage t env st :
      reachable st -> reachable (sendMessage t env st)
  | reach_sendMessage' t env st :
      reachable st -> reachable (sendMessage' t env st)
  | reach_stopListening st :
      reachable st -> reachable (stopListening st)
  | reach_startListening env st :
      reachable st -> reachable (fst (fst (startListening env st)))
  | reach_startListening_resume env st :
      reachable st -> reachable (fst (fst (startListening_resume env st)))
  | reach_onopen c node st :
      reachable st -> reachable (onopen c node st)
  | reach_onmessage env m l st :
      reachable st -> reachable (snd (fst (onmessage env m l st)))
  | reach_onerror now e st :
      reachable st -> reachable (onerror now e st)
  | reach_handleApiError now e k st :
      reachable st -> reachable (handleApiError now e k st).

(** *** [onaudioprocess]: the PCM framer *)

(** A sample of the capture buffer, read as a number: a 32-bit float is a
    rational, a NaN or an infinity. *)
Inductive Number : Type :=
  | Finite (q : Q)
  | NaN
  | Infinity (negative : bool).

(** [x * 32768]: exact on every 32-bit float. *)
Definition times_32768 (x : Number) : Number :=
  match x with
  | Finite q => Finite (q * 32768)
  | NaN => NaN
  | Infinity s => Infinity s
  end.

(** The integer part of a rational, towards zero. *)
Definition truncate (q : Q) : Z := Z.quot (Qnum q) (Zpos (Qden q)).

(** An integer modulo 2^16, read as signed. *)
Definition wrap16 (z : Z) : Z :=
  let m := (z mod 65536)%Z in
  if (32768 <=? m)%Z then (m - 65536)%Z else m.

(** The conversion of a number stored into an [Int16Array]. *)
Definition ToInt16 (x : Number) : Z :=
  match x with
  | Finite q => wrap16 (truncate q)
  | NaN => 0%Z
  | Infinity _ => 0%Z
  end.

(** [a[i] = v] on a typed array: nothing is written out of range. *)
Fixpoint store (a : list Z) (i : nat) (v : Z) : list Z :=
  match a, i with
  | [], _ => []
  | _ :: tl, O => v :: tl
  | x :: tl, S i' => x :: store tl i' v
  end.

(** [for (let i = ...; i < l; i++) int16[i] = inputData[i] * 32768],
    with [n] iterations left. *)
Fixpoint fill (inputData : list Number) (i n : nat) (int16 : list Z) : list Z :=
  match n with
  | O => int16
  | S n' =>
      fill inputData (S i) n'
        (store int16 i (ToInt16 (times_32768 (nth i inputData NaN))))
  end.

Definition frame (inputData : list Number) : list Z :=
  let l := List.length inputData in
  let int16 := repeat 0%Z l in
  fill inputData 0 l int16.

(** The two bytes of a 16-bit sample, low byte first. *)
Definition bytes_of_int16 (v : Z) : list Byte.byte :=
  let u := Z.to_N (v mod 65536) in
  [Audio.byte_of (u mod 256); Audio.byte_of (u / 256)].

Record Blob : Type := mkBlob {
  data : string;
  mimeType : string
}.

Definition onaudioprocess (inputData : list Number) : Blob :=
  let int16 := frame inputData in
  mkBlob (Audio.encode (flat_map bytes_of_int16 int16)) "audio/pcm;rate=16000".

(** Rounding to the nearest integer, halves upwards. *)
Definition round (q : Q) : Z := Qfloor (q + (1 # 2)).

(** Follows the words of the specification (§8, PCM framing): each element
    is [round(sample * 32768)], then cut to 16 bits. *)
Definition spec_frame (inputData : list Number) : list Z :=
  map (fun x =>
         match times_32768 x with
         | Finite q => wrap16 (round q)
         | _ => 0%Z
         end) inputData.

(** *** [sendMessage] around its [await]

    The statements before the [try] block, and the [try] block with its
    [catch] and [finally]: [sendMessage] is the second after the first. *)
Definition sendMessage_begin (messageText : string) (env : SendEnv) (st : State)
  : State :=
  let st := setIsLoading true st in
  let userMessage := mkMessage (Some (sendNow env)) USER messageText None None in
  let st := setMessages (append userMessage) st in
  let st := setInput "" st in
  let aiMessageId := (sendNow' env + 1)%Z in
  let aiMessagePlaceholder :=
    mkMessage (Some aiMessageId) AI "" None (Some true) in
  setMessages (append aiMessagePlaceholder) st.

Definition sendMessage_finish (messageText : string) (env : SendEnv) (st : State)
  : State :=
  let aiMessageId := (sendNow' env + 1)%Z in
  let r := Routing.route messageText in
  let st :=
    match backend env r messageText with
    | NoClient message =>
        setMessages
          (fail_placeholder aiMessageId
             ("Sorry, I ran into an error: " ++ error_text message)%string) st
    | Failed message =>
        let st := enter_branch r st in
        setMessages
          (fail_placeholder aiMessageId
             ("Sorry, I ran into an error: " ++ error_text message)%string) st
    | Replied responseText srcs =>
        let st := enter_branch r st in
        let srcs := match r with Routing.StandardChat => [] | _ => srcs end in
        setMessages (resolve_placeholder aiMessageId responseText srcs) st
    end in
  setIsLoading false st.

(** *** The controls of the footer *)

(** [disabled] of the text field. *)
Definition inputDisabled (st : State) : bool :=
  isListening st || isLoading st.

(** [disabled] of the send button. *)
Definition sendDisabled (st : State) : bool :=
  isLoading st || Audio.is_empty (trim (input st)) || isListening st.

(** [onKeyPress] of the text field: [e.key === 'Enter' && sendMessage(input)]. *)
Definition onKeyPress (key : string) (env : SendEnv) (st : State) : State :=
  if String.eqb key "Enter" then sendMessage (input st) env st else st.

(** [onClick] of the send button. *)
Definition sendClick (env : SendEnv) (st : State) : State :=
  sendMessage (input st) env st.

(** [onClick] of the microphone button:
    [isListening ? stopListening : startListening]. *)
Definition micClick (env : StartEnv) (st : State) : State :=
  if isListening st then stopListening st
  else fst (fst (startListening env st)).

(** *** The key selection of the later revision *)

(** [window.aistudio], when there is one: what [hasSelectedApiKey()]
    resolves to, and whether [openSelectKey()] resolves. *)
Record AIStudio : Type := mkAIStudio {
  hasSelectedApiKey : bool;
  openSelectKey : bool
}.

(** The effect run when the component mounts. *)
Definition checkApiKey (aistudio : option AIStudio) (st : State) : State :=
  match aistudio with
  | Some a => if hasSelectedApiKey a then setIsApiKeyReady true st else st
  | None => st
  end.

Definition handleSelectApiKey (aistudio : option AIStudio) (st : State) : State :=
  match aistudio with
  | Some a => if openSelectKey a then setIsApiKeyReady true st else st
  | None => st
  end.

(** What the component returns: the key selection, or the chat. *)
Inductive Screen : Type := KeySelection | ChatWindow.

Definition screen (st : State) : Screen :=
  if negb (isApiKeyReady st) then KeySelection else ChatWindow.

(** States of the later revision, for a given [window.aistudio]. *)
Inductive reachable' (aistudio : option AIStudio) : State -> Prop :=
  | reach'_initial : reachable' aistudio initial
  | reach'_checkApiKey st :
      reachable' aistudio st -> reachable' aistudio (checkApiKey aistudio st)
  | reach'_handleSelectApiKey st :
      reachable' aistudio st ->
      reachable' aistudio (handleSelectApiKey aistudio st)
  | reach'_setInput v st :
      reachable' aistudio st -> reachable' aistudio (setInput v st)
  | reach'_sendMessage t env st :
      reachable' aistudio st -> reachable' aistudio (sendMessage' t env st)
  | reach'_stopListening st :
      reachable' aistudio st -> reachable' aistudio (stopListening st)
  | reach'_startListening env st :
      reachable' aistudio st ->
      reachable' aistudio (fst (fst (startListening env st)))
  | reach'_startListening_resume env st :
      reachable' aistudio st ->
      reachable' aistudio (fst (fst (startListening_resume env st)))
  | reach'_onopen c node st :
      reachable' aistudio st -> reachable' aistudio (onopen c node st)
  | reach'_onmessage env m l st :
      reachable' aistudio st ->
      reachable' aistudio (snd (fst (onmessage env m l st)))
  | reach'_onerror now e st :
      reachable' aistudio st -> reachable' aistudio (onerror' now e st).

(** The deltas of a transcript, put end to end. *)
Definition joined (deltas : list string) : string :=
  fold_right String.append ""%string deltas.

(** The messages that carry the input deltas, each with the environment of
    its delivery; and the same for the output deltas. *)
Definition input_deltas (ds : list (Env * string)) : list Event :=
  map (fun d => Deliver (fst d) (InputTranscriptDelta (snd d))) ds.

Definition output_deltas (ds : list (Env * string)) : list Event :=
  map (fun d => Deliver (fst d) (OutputTranscriptDelta (snd d))) ds.

(** *** Messages handled one after the other *)

Definition handle_all (r : Run) (ms : list (Env * ServerMessage)) : Run :=
  fold_left (fun r em => handle (fst em) (snd em) r) ms r.

(** The end of an entry of the playback queue. *)
Definition endTime (e : PlaybackQueueEntry) : Q :=
  startTime e + Audio.duration (buffer e).

(** An entry that follows another with no gap that could be avoided: it
    starts when the other ends, or, having arrived after that end, at the
    reading of the clock taken for it. *)
Definition follows (e e' : PlaybackQueueEntry) : Prop :=
  startTime e' == endTime e \/
  (endTime e < clockAtEnqueue e' /\ startTime e' == clockAtEnqueue e').

Fixpoint tight (q : list PlaybackQueueEntry) : Prop :=
  match q with
  | [] => True
  | e :: tl =>
      match tl with
      | [] => True
      | e' :: _ => follows e e'
      end /\ tight tl
  end.

(** Readings of a clock that does not run backwards, none before [c]. *)
Fixpoint nondecreasing_from (c : Q) (readings : list Q) : Prop :=
  match readings with
  | [] => True
  | x :: tl => c <= x /\ nondecreasing_from x tl
  end.

(** The identity of a record: what no update of the transcript changes. *)
Definition identity (msg : Message) : option Z * ChatRole := (id msg, role msg).

(** The records of [old] are those [new] starts with, text and marks
    apart. *)
Definition extends (old new : list Message) : Prop :=
  exists added, map identity new = map identity old ++ added.

(** One operation or callback of the component of [App.tsx]. *)
Inductive transition : State -> State -> Prop :=
  | t_setInput v st :
      transition st (setInput v st)
  | t_sendMessage t env st :
      transition st (sendMessage t env st)
  | t_stopListening st :
      transition st (stopListening st)
  | t_startListening env st :
      transition st (fst (fst (startListening env st)))
  | t_startListening_resume env st :
      transition st (fst (fst (startListening_resume env st)))
  | t_onopen c node st :
      transition st (onopen c node st)
  | t_onmessage env m l st :
      transition st (snd (fst (onmessage env m l st)))
  | t_onerror now e st :
      transition st (onerror now e st).

(** A call that closes a context other than a 16 kHz capture context. *)
Definition closes_output (c : DeviceCall) : bool :=
  match c with
  | ContextClose a => negb (ctxRate a =? 16000)%N
  | _ => false
  end.

End App.

(** ** [components/ChatMessage.tsx] *)

Module ChatMessage.

Import Types.

Inductive Icon : Type := BotIcon | UserIcon | SearchIcon | MapPinIcon.

(** The inside of the bubble: the three dots, or the markup of the text. *)
Inductive Body : Type :=
  | LoadingDots
  | Prose (rawMarkup : string).

Record SourceLink : Type := mkSourceLink {
  href : string;
  icon : Icon;
  label : string
}.

(** What the component renders of a message. *)
Record View : Type := mkView {
  justifyEnd : bool;                 (* the row is pushed to the right *)
  leading : option Icon;             (* the avatar before the bubble *)
  body : Body;
  sourceLinks : option (list SourceLink);   (* the panel of sources *)
  trailing : option Icon             (* the avatar after the bubble *)
}.

Definition is_true (b : option bool) : bool :=
  match b with
  | Some true => true
  | _ => false
  end.

(** The component, for a given [marked.parse]. *)
Definition render (parse : string -> string) (message : Message) : View :=
  let isUser := ChatRole_eqb (role message) USER in
  let rawMarkup :=
    if Audio.is_empty (text message) then ""%string
    else parse (text message) in
  mkView isUser
    (if negb isUser then Some BotIcon else None)
    (if is_true (isLoading message) then LoadingDots else Prose rawMarkup)
    (match sources message with
     | Some ((_ :: _) as srcs) =>
         Some (map (fun source =>
                      mkSourceLink (uri source)
                        (match type source with
                         | search => SearchIcon
                         | maps => MapPinIcon
                         end)
                        (title source)) srcs)
     | _ => None
     end)
    (if isUser then Some UserIcon else None).

End ChatMessage.

(* ================================================================== *)
(** * Part II: properties *)
(* ================================================================== *)

Section CodecFacts.
Import Audio.

Lemma decChar_encChar (n : N) : (n < 64)%N -> decChar (encChar n) = Some n.
Proof.
  intros H.
  assert (E : n = N.of_nat (N.to_nat n)) by (symmetry; apply N2Nat.id).
  assert (L : (N.to_nat n < 64)%nat) by lia.
  rewrite E at 2. unfold encChar. clear E H.
  generalize dependent (N.to_nat n). intros k L.
  do 64 (destruct k as [|k]; [reflexivity|]). lia.
Qed.

Lemma encChar_not_pad (n : N) : (n < 64)%N -> Ascii.eqb (encChar n) pad = false.
Proof.
  intros H.
  assert (L : (N.to_nat n < 64)%nat) by lia.
  unfold encChar. clear H.
  generalize dependent (N.to_nat n). intros k L.
  do 64 (destruct k as [|k]; [reflexivity|]). lia.
Qed.

Lemma byte_of_to_N (b : Byte.byte) : byte_of (Byte.to_N b) = b.
Proof.
  unfold byte_of. pose proof (Byte.to_N_bounded b) as B.
  rewrite N.mod_small by lia. now rewrite Byte.of_to_N.
Qed.

End CodecFacts.

Section CodecRoundTrip.
Import Audio.

Lemma list_ind3 {A : Type} (P : list A -> Prop) :
  P [] -> (forall a, P [a]) -> (forall a b, P [a; b]) ->
  (forall a b c l, P l -> P (a :: b :: c :: l)) ->
  forall l, P l.
Proof.
  intros H0 H1 H2 H3.
  fix IH 1.
  intros [|a [|b [|c l]]];
    [apply H0 | apply H1 | apply H2 | apply H3; apply IH].
Qed.

Lemma sextets (x y z : N) :
  (x < 256 -> y < 256 -> z < 256 ->
   x / 4 < 64 /\ (x mod 4) * 16 + y / 16 < 64 /\
   (y mod 16) * 4 + z / 64 < 64 /\ z mod 64 < 64 /\
   (x mod 4) * 16 < 64 /\ (y mod 16) * 4 < 64)%N.
Proof.
  intros. 
  pose proof (N.div_mod x 4 ltac:(lia)). pose proof (N.mod_lt x 4 ltac:(lia)).
  pose proof (N.div_mod y 16 ltac:(lia)). pose proof (N.mod_lt y 16 ltac:(lia)).
  pose proof (N.div_mod z 64 ltac:(lia)). pose proof (N.mod_lt z 64 ltac:(lia)).
  generalize dependent (x / 4)%N. generalize dependent (x mod 4)%N.
  generalize dependent (y / 16)%N. generalize dependent (y mod 16)%N.
  generalize dependent (z / 64)%N. generalize dependent (z mod 64)%N.
  intros. lia.
Qed.

Lemma regroup (x y z : N) :
  (x < 256 -> y < 256 -> z < 256 ->
   (x / 4) * 4 + ((x mod 4) * 16 + y / 16) / 16 = x /\
   (((x mod 4) * 16 + y / 16) mod 16) * 16 + ((y mod 16) * 4 + z / 64) / 4 = y /\
   (((y mod 16) * 4 + z / 64) mod 4) * 64 + z mod 64 = z /\
   (x / 4) * 4 + ((x mod 4) * 16) / 16 = x /\
   (((x mod 4) * 16 + y / 16) mod 16) * 16 + ((y mod 16) * 4) / 4 = y)%N.
Proof.
  intros.
  pose proof (N.div_mod x 4 ltac:(lia)). pose proof (N.mod_lt x 4 ltac:(lia)).
  pose proof (N.div_mod y 16 ltac:(lia)). pose proof (N.mod_lt y 16 ltac:(lia)).
  pose proof (N.div_mod z 64 ltac:(lia)). pose proof (N.mod_lt z 64 ltac:(lia)).
  set (u := (x / 4)%N) in *. set (u' := (x mod 4)%N) in *.
  set (v := (y / 16)%N) in *. set (v' := (y mod 16)%N) in *.
  set (w := (z / 64)%N) in *. set (w' := (z mod 64)%N) in *.
  assert (v < 16 /\ w < 4)%N as [Hv Hw] by lia.
  clearbody u u' v v' w w'.
  rewrite !N.div_add_l, !N.div_mul by lia.
  rewrite (N.add_comm (u' * 16) v), (N.add_comm (v' * 4) w).
  rewrite !N.Div0.mod_add.
  rewrite !N.div_small, !N.mod_small by lia.
  lia.
Qed.

Lemma decode_encode (b : bytes) : decode (encode b) = Some b.
Proof.
  induction b as [|x|x y|x y z l IH] using list_ind3.
  - reflexivity.
  - pose proof (Byte.to_N_bounded x) as Bx.
    destruct (sextets (Byte.to_N x) 0 0) as (S0 & _ & _ & _ & S1 & _); try lia.
    destruct (regroup (Byte.to_N x) 0 0) as (_ & _ & _ & R & _); try lia.
    cbn [encode decode].
    rewrite !decChar_encChar by assumption.
    cbn [Ascii.eqb pad Bool.eqb andb is_empty]. rewrite R.
    now rewrite byte_of_to_N.
  - pose proof (Byte.to_N_bounded x) as Bx.
    pose proof (Byte.to_N_bounded y) as By.
    destruct (sextets (Byte.to_N x) (Byte.to_N y) 0)
      as (S0 & S1 & _ & _ & _ & S2); try lia.
    destruct (regroup (Byte.to_N x) (Byte.to_N y) 0)
      as (R0 & _ & _ & _ & R1); try lia.
    cbn [encode decode].
    rewrite !decChar_encChar by assumption.
    rewrite encChar_not_pad by assumption.
    cbn [Ascii.eqb pad Bool.eqb andb is_empty]. rewrite R0, R1.
    now rewrite !byte_of_to_N.
  - pose proof (Byte.to_N_bounded x) as Bx.
    pose proof (Byte.to_N_bounded y) as By.
    pose proof (Byte.to_N_bounded z) as Bz.
    destruct (sextets (Byte.to_N x) (Byte.to_N y) (Byte.to_N z))
      as (S0 & S1 & S2 & S3 & _); try lia.
    destruct (regroup (Byte.to_N x) (Byte.to_N y) (Byte.to_N z))
      as (R0 & R1 & R2 & _); try lia.
    cbn [encode decode].
    rewrite !decChar_encChar by assumption.
    rewrite !encChar_not_pad by assumption.
    rewrite R0, R1, R2, IH.
    now rewrite !byte_of_to_N.
Qed.

Lemma encode_length (b : bytes) :
  String.length (encode b) = encoded_length (List.length b).
Proof.
  induction b as [|x|x y|x y z l IH] using list_ind3; try reflexivity.
  cbn [encode String.length List.length]. rewrite IH. unfold encoded_length.
  replace (S (S (S (List.length l))) + 2)%nat
    with (List.length l + 2 + 1 * 3)%nat by lia.
  rewrite Nat.div_add by lia. lia.
Qed.

(** C3. For every byte buffer [b], [decode (encode b)] is [b].  [encode] is
    base64: four characters for every three bytes, a last group of one or
    two bytes being completed to four characters by padding, as the
    standard test vectors show. *)
Theorem codec_round_trip (b : bytes) :
  decode (encode b) = Some b /\
  String.length (encode b) = encoded_length (List.length b) /\
  (forall x y z rest,
      exists c0 c1 c2 c3,
        encode (x :: y :: z :: rest)
        = String c0 (String c1 (String c2 (String c3 (encode rest))))) /\
  encode [Byte.x4d; Byte.x61; Byte.x6e] = "TWFu"%string /\
  encode [Byte.x4d; Byte.x61] = "TWE="%string /\
  encode [Byte.x4d] = "TQ=="%string /\
  encode [Byte.xff; Byte.xfe; Byte.xfd; Byte.x00] = "//79AA=="%string.
Proof.
  split; [apply decode_encode|]. split; [apply encode_length|].
  split; [|repeat split; reflexivity].
  intros x y z rest. cbn [encode]. do 4 eexists. reflexivity.
Qed.

End CodecRoundTrip.

(** ** The playback scheduler *)

Section SchedulerFacts.
Import App.

Lemma duration_nonneg (b : Audio.AudioBuffer) : 0 <= Audio.duration b.
Proof.
  unfold Audio.duration, Qle. cbn [Qnum Qden]. lia.
Qed.

(** The transcript parts of [onmessage] leave the cursor and the queue. *)
Lemma on_inputTranscription_audio env m l :
  nextStartTime (fst (on_inputTranscription env m l)) = nextStartTime l /\
  scheduled (fst (on_inputTranscription env m l)) = scheduled l.
Proof.
  unfold on_inputTranscription.
  destruct (inputTranscription m); [destruct (userInputId l)|]; auto.
Qed.

Lemma on_outputTranscription_audio env m l :
  nextStartTime (fst (on_outputTranscription env m l)) = nextStartTime l /\
  scheduled (fst (on_outputTranscription env m l)) = scheduled l.
Proof.
  unfold on_outputTranscription.
  destruct (outputTranscription m); [destruct (aiResponseId l)|]; auto.
Qed.

Lemma on_turnComplete_audio m l :
  nextStartTime (fst (on_turnComplete m l)) = nextStartTime l /\
  scheduled (fst (on_turnComplete m l)) = scheduled l.
Proof.
  unfold on_turnComplete. destruct (turnComplete m); auto.
Qed.

Lemma on_audio_cursor env m l :
  scheduled (fst (on_audio env m l)) = scheduled l /\
  (nextStartTime (fst (on_audio env m l)) = nextStartTime l \/
   nextStartTime (fst (on_audio env m l))
   = Qmax (nextStartTime l) (currentTime env)) /\
  (forall b c, snd (on_audio env m l) = Awaiting b c ->
     c = currentTime env /\
     nextStartTime (fst (on_audio env m l))
     = Qmax (nextStartTime l) (currentTime env)).
Proof.
  unfold on_audio.
  destruct (inlineData m) as [|a|]; [repeat split; auto; discriminate|
                                     |repeat split; auto; discriminate].
  destruct (Audio.is_empty a); [repeat split; auto; discriminate|].
  destruct (Audio.decode a) as [d|]; [|repeat split; auto; discriminate].
  destruct (Audio.decodeAudioData d 24000 1);
    cbn [fst snd set_nextStartTime nextStartTime scheduled];
    repeat split; auto; try discriminate; now inversion H.
Qed.

Lemma onmessage_cursor env m l st :
  scheduled (fst (fst (onmessage env m l st))) = scheduled l /\
  (nextStartTime (fst (fst (onmessage env m l st))) = nextStartTime l \/
   nextStartTime (fst (fst (onmessage env m l st)))
   = Qmax (nextStartTime l) (currentTime env)) /\
  (forall b c, snd (onmessage env m l st) = Awaiting b c ->
     c = currentTime env /\
     nextStartTime (fst (fst (onmessage env m l st)))
     = Qmax (nextStartTime l) (currentTime env)).
Proof.
  unfold onmessage.
  pose proof (on_inputTranscription_audio env m l) as [N1 S1].
  destruct (on_inputTranscription env m l) as [l1 q1].
  pose proof (on_outputTranscription_audio env m l1) as [N2 S2].
  destruct (on_outputTranscription env m l1) as [l2 q2].
  pose proof (on_turnComplete_audio m l2) as [N3 S3].
  destruct (on_turnComplete m l2) as [l3 q3].
  pose proof (on_audio_cursor env m l3) as (S4 & N4 & A4).
  destruct (on_audio env m l3) as [l4 s].
  cbn [fst snd] in *.
  rewrite S4, S3, S2, S1. rewrite N3, N2, N1 in *.
  split; [reflexivity|]. split; [assumption|]. intros b c H. exact (A4 b c H).
Qed.

Lemma no_overlap_snoc (q : list PlaybackQueueEntry) (e : PlaybackQueueEntry) :
  no_overlap q ->
  Forall (fun x => startTime x + Audio.duration (buffer x) <= startTime e) q ->
  no_overlap (q ++ [e]).
Proof.
  induction q as [|x q IH]; intros N F.
  - cbn. auto.
  - destruct N as [N1 N2]. inversion F as [|? ? Fx Fq]; subst.
    change ((x :: q) ++ [e]) with (x :: (q ++ [e])).
    split; [|now apply IH].
    destruct q as [|y q']; cbn [app]; assumption.
Qed.

Lemma no_overlap_nth (q : list PlaybackQueueEntry) :
  no_overlap q ->
  forall i e e',
    nth_error q i = Some e -> nth_error q (S i) = Some e' ->
    startTime e + Audio.duration (buffer e) <= startTime e'.
Proof.
  induction q as [|x q IH]; intros N i e e' H H'.
  - destruct i; discriminate.
  - destruct N as [N1 N2]. destruct i as [|i].
    + cbn in H, H'. inversion H; subst. destruct q; [discriminate|].
      cbn in H'. inversion H'; subst. exact N1.
    + cbn in H, H'. eapply IH; eauto.
Qed.

Lemma Forall_drop_nth {A : Type} (P : A -> Prop) (k : nat) (l : list A) :
  Forall P l -> Forall P (drop_nth k l).
Proof.
  revert k. induction l as [|x l IH]; intros k F.
  - destruct k; constructor.
  - inversion F; subst. destruct k; cbn; auto.
Qed.

Lemma Forall_weaken_le {A : Type} (f : A -> Q) (t t' : Q) (l : list A) :
  t <= t' -> Forall (fun x => f x <= t) l -> Forall (fun x => f x <= t') l.
Proof.
  intros L F. eapply Forall_impl; [|exact F].
  intros a Ha. cbn in *. eapply Qle_trans; eauto.
Qed.

(** The cursor never moves back. *)
Lemma step_monotone (r : Run) (ev : Event) :
  nextStartTime (live r) <= nextStartTime (live (step r ev)).
Proof.
  destruct ev as [env m|k]; cbn [step].
  - pose proof (onmessage_cursor env m (live r) (component r)) as (_ & N & _).
    destruct (onmessage env m (live r) (component r)) as [[l st] s].
    cbn [fst snd live] in *.
    destruct N as [-> | ->]; [apply Qle_refl | apply Q.le_max_l].
  - destruct (nth_error (awaiting r) k) as [p|]; [|apply Qle_refl].
    cbn [live onmessage_resume nextStartTime].
    pose proof (duration_nonneg (pendingBuffer p)). lra.
Qed.

Lemma step_invariant (r : Run) (ev : Event) :
  scheduler_invariant r -> scheduler_invariant (step r ev).
Proof.
  intros (NO & ENDS & CLK & PEND).
  pose proof (step_monotone r ev) as MONO.
  destruct ev as [env m|k]; cbn [step] in *.
  - pose proof (onmessage_cursor env m (live r) (component r)) as (S & N & A).
    destruct (onmessage env m (live r) (component r)) as [[l st] s].
    cbn [fst snd live] in *.
    unfold scheduler_invariant. cbn [live awaiting]. rewrite S.
    repeat split; auto.
    + eapply Forall_weaken_le
        with (f := fun e => startTime e + Audio.duration (buffer e)); eauto.
    + apply Forall_app. split.
      * eapply Forall_weaken_le with (f := pendingClock); eauto.
      * destruct s as [| |b c]; constructor; [|constructor].
        destruct (A b c eq_refl) as [-> ->]. cbn. apply Q.le_max_r.
  - destruct (nth_error (awaiting r) k) as [p|] eqn:E;
      [|repeat split; assumption].
    assert (Pp : pendingClock p <= nextStartTime (live r)).
    { apply nth_error_In in E. rewrite Forall_forall in PEND. now apply PEND. }
    pose proof (duration_nonneg (pendingBuffer p)) as D.
    unfold scheduler_invariant.
    cbn [live awaiting onmessage_resume nextStartTime scheduled] in *.
    repeat split.
    + apply no_overlap_snoc; assumption.
    + apply Forall_app. split.
      * eapply Forall_weaken_le
          with (f := fun e => startTime e + Audio.duration (buffer e)); eauto.
      * constructor; [|constructor]. cbn. apply Qle_refl.
    + apply Forall_app. split; [assumption|].
      constructor; [|constructor]. exact Pp.
    + apply Forall_drop_nth.
      eapply Forall_weaken_le with (f := pendingClock); eauto.
Qed.

Lemma run_invariant (evs : list Event) (r : Run) :
  scheduler_invariant r -> scheduler_invariant (run r evs).
Proof.
  revert r. induction evs as [|ev evs IH]; intros r I; [exact I|].
  cbn [run fold_left]. apply IH. now apply step_invariant.
Qed.

Lemma fresh_invariant (st : State) : scheduler_invariant (mkRun st fresh []).
Proof.
  repeat split; constructor.
Qed.

(** A chunk handled to its end, no other run of [onmessage] awaiting: it
    starts at the later of the cursor and the clock, and the cursor moves
    to its end. *)
Lemma handle_chunk env m (r : Run) b c :
  awaiting r = [] ->
  snd (onmessage env m (live r) (component r)) = Awaiting b c ->
  scheduled (live (handle env m r))
  = scheduled (live r)
      ++ [mkEntry b (Qmax (nextStartTime (live r)) (currentTime env))
            (currentTime env)] /\
  nextStartTime (live (handle env m r))
  = Qmax (nextStartTime (live r)) (currentTime env) + Audio.duration b.
Proof.
  intros E A. unfold handle. rewrite E. cbn [step List.length].
  pose proof (onmessage_cursor env m (live r) (component r)) as (S & _ & C).
  destruct (onmessage env m (live r) (component r)) as [[l st] s].
  cbn [fst snd] in *. subst s. destruct (C b c eq_refl) as [-> N].
  cbn [awaiting]. rewrite E.
  cbn [List.app nth_error live awaiting onmessage_resume pendingBuffer
       pendingClock scheduled nextStartTime].
  rewrite S, N. split; reflexivity.
Qed.

(** C1. Whatever messages the session receives, and in whatever order the
    runs of [onmessage] that await a buffer are resumed, the entries of the
    playback queue never overlap (each starts at or after the end of the
    one before it), none starts before the reading of the output clock
    taken for it, the cursor [nextStartTime] never moves back, and a chunk
    handled on its own starts at
    [max(nextStartTime, outputAudioContext.currentTime)]. *)
Theorem scheduler_no_overlap_no_past (st0 : State) (evs : list Event) :
  let r := run (mkRun st0 fresh []) evs in
  no_overlap (scheduled (live r)) /\
  (forall i e e',
      nth_error (scheduled (live r)) i = Some e ->
      nth_error (scheduled (live r)) (S i) = Some e' ->
      startTime e + Audio.duration (buffer e) <= startTime e') /\
  Forall (fun e => clockAtEnqueue e <= startTime e) (scheduled (live r)) /\
  (forall ev, nextStartTime (live r) <= nextStartTime (live (step r ev))) /\
  (forall env m b c,
      awaiting r = [] ->
      snd (onmessage env m (live r) (component r)) = Awaiting b c ->
      scheduled (live (handle env m r))
      = scheduled (live r)
          ++ [mkEntry b (Qmax (nextStartTime (live r)) (currentTime env))
                (currentTime env)] /\
      nextStartTime (live (handle env m r))
      = Qmax (nextStartTime (live r)) (currentTime env) + Audio.duration b).
Proof.
  intros r.
  destruct (run_invariant evs _ (fresh_invariant st0)) as (NO & _ & CLK & _).
  fold r in NO, CLK.
  split; [exact NO|]. split; [now apply no_overlap_nth|].
  split; [exact CLK|]. split; [intros ev; apply step_monotone|].
  intros env m b c. apply handle_chunk.
Qed.

End SchedulerFacts.

(** ** A chunk that does not decode *)

Section MalformedChunk.
Import App.

Lemma decodeAudioData_odd (b : Audio.bytes) :
  Nat.odd (List.length b) = true ->
  Audio.decodeAudioData b 24000 1 = Err MalformedAudioError.
Proof.
  intros O. apply Nat.odd_spec in O. destruct O as [k E].
  unfold Audio.decodeAudioData. rewrite E.
  replace (N.of_nat (2 * k + 1)) with (1 + N.of_nat k * 2)%N by lia.
  change (2 * 1)%N with 2%N. rewrite N.Div0.mod_add. reflexivity.
Qed.

Lemma encode_nonempty (b : Audio.bytes) :
  b <> [] -> Audio.is_empty (Audio.encode b) = false.
Proof.
  destruct b as [|x [|y [|z l]]]; intros H; [contradiction| | |]; reflexivity.
Qed.

Lemma Qmax_left (x y : Q) : y <= x -> Qmax x y = x.
Proof.
  intros L. unfold Qmax, GenericMinMax.gmax.
  destruct (Qcompare x y) eqn:C; try reflexivity.
  apply Qlt_alt in C. exfalso. eapply Qlt_not_le; eauto.
Qed.

(** [onmessage] writes no state of the component but the messages. *)
Lemma onmessage_component env m l st :
  exists ms, snd (fst (onmessage env m l st)) = setMessages (fun _ => ms) st.
Proof.
  unfold onmessage.
  destruct (on_inputTranscription env m l) as [l1 q1].
  destruct (on_outputTranscription env m l1) as [l2 q2].
  destruct (on_turnComplete m l2) as [l3 q3].
  destruct (on_audio env m l3) as [l4 s].
  cbn [fst snd]. unfold render. eexists. reflexivity.
Qed.

Lemma on_audio_malformed env m l (b : Audio.bytes) :
  Nat.odd (List.length b) = true ->
  inlineData m = Data (Audio.encode b) ->
  on_audio env m l
  = (set_nextStartTime (Qmax (nextStartTime l) (currentTime env)) l,
     Threw MalformedAudioError).
Proof.
  intros O E. unfold on_audio. rewrite E.
  rewrite encode_nonempty by (intros ->; discriminate).
  rewrite decode_encode, decodeAudioData_odd by assumption. reflexivity.
Qed.

(** C5, as the code has it.  A chunk of odd byte length fails to decode
    with [MalformedAudioError]; nothing is scheduled for it, no run of
    [onmessage] is left awaiting, and the session is not torn down.  The
    cursor is not moved by any duration, but it has been raised to the
    output clock before the decoding: it is [max(nextStartTime, clock)],
    which is the old cursor when the clock has not passed it. *)
Theorem malformed_chunk_dropped
  (b : Audio.bytes) (env : Env) (m : ServerMessage) (r : Run) :
  Nat.odd (List.length b) = true ->
  inlineData m = Data (Audio.encode b) ->
  let r' := step r (Deliver env m) in
  snd (onmessage env m (live r) (component r)) = Threw MalformedAudioError /\
  nextStartTime (live r')
  = Qmax (nextStartTime (live r)) (currentTime env) /\
  (currentTime env <= nextStartTime (live r) ->
   nextStartTime (live r') = nextStartTime (live r)) /\
  scheduled (live r') = scheduled (live r) /\
  awaiting r' = awaiting r /\
  isListening (component r') = isListening (component r) /\
  sessionPromiseRef (component r') = sessionPromiseRef (component r) /\
  mediaStreamRef (component r') = mediaStreamRef (component r) /\
  audioContextRef (component r') = audioContextRef (component r) /\
  scriptProcessorRef (component r') = scriptProcessorRef (component r) /\
  calls (component r') = calls (component r).
Proof.
  intros O E r'. subst r'. cbn [step].
  destruct (onmessage_component env m (live r) (component r)) as [ms C].
  assert (A : snd (onmessage env m (live r) (component r))
              = Threw MalformedAudioError
              /\ nextStartTime (fst (fst (onmessage env m (live r) (component r))))
                = Qmax (nextStartTime (live r)) (currentTime env)
              /\ scheduled (fst (fst (onmessage env m (live r) (component r))))
                = scheduled (live r)).
  { unfold onmessage.
    pose proof (on_inputTranscription_audio env m (live r)) as [N1 S1].
    destruct (on_inputTranscription env m (live r)) as [l1 q1].
    pose proof (on_outputTranscription_audio env m l1) as [N2 S2].
    destruct (on_outputTranscription env m l1) as [l2 q2].
    pose proof (on_turnComplete_audio m l2) as [N3 S3].
    destruct (on_turnComplete m l2) as [l3 q3].
    rewrite (on_audio_malformed env m l3 b O E).
    cbn [fst snd set_nextStartTime nextStartTime scheduled] in *.
    rewrite N3, N2, N1, S3, S2, S1. auto. }
  destruct (onmessage env m (live r) (component r)) as [[l st] s].
  cbn [fst snd] in *. destruct A as (-> & N & S). subst st.
  cbn [live component awaiting]. rewrite N, S, app_nil_r.
  repeat split; auto. intros L. now apply Qmax_left.
Qed.

(** An instance: one byte, on a fresh session. *)
Lemma malformed_chunk_dropped_witness :
  let m := AudioChunk [Byte.x00] in
  let r := mkRun initial fresh [] in
  Nat.odd (List.length [Byte.x00]) = true /\
  inlineData m = Data (Audio.encode [Byte.x00]) /\
  scheduled (live (step r (Deliver (mkEnv 0 0 5) m))) = [].
Proof.
  intros m r. split; [reflexivity|]. split; [reflexivity|].
  exact (proj1 (proj2 (proj2 (proj2
           (malformed_chunk_dropped [Byte.x00] (mkEnv 0 0 5) m r
              eq_refl eq_refl))))).
Defined.

(** C5 as the specification states it does not hold: on a fresh session
    whose output clock reads 5, a chunk of one byte raises
    [MalformedAudioError] and the cursor is 5 afterwards, not 0. *)
Lemma malformed_chunk_moves_cursor :
  let m := AudioChunk [Byte.x00] in
  let r := mkRun initial fresh [] in
  let r' := step r (Deliver (mkEnv 0 0 5) m) in
  Nat.odd (List.length [Byte.x00]) = true /\
  snd (onmessage (mkEnv 0 0 5) m (live r) (component r))
  = Threw MalformedAudioError /\
  nextStartTime (live r) == 0 /\
  nextStartTime (live r') == 5 /\
  ~ nextStartTime (live r') == nextStartTime (live r).
Proof.
  cbv zeta. repeat split; try reflexivity.
  vm_compute. discriminate.
Qed.

End MalformedChunk.

(** ** The transcript reconciler *)

Section ReconcilerFacts.
Import Types App.

Lemma id_eqb_spec (a b : option Z) : reflect (a = b) (id_eqb a b).
Proof.
  destruct a as [x|], b as [y|]; cbn [id_eqb];
    try (constructor; congruence).
  destruct (Z.eqb_spec x y); constructor; congruence.
Qed.

Lemma id_eqb_refl (a : option Z) : id_eqb a a = true.
Proof. destruct a; cbn; [apply Z.eqb_refl|reflexivity]. Qed.

Lemma retext_app i t (a b : list Message) :
  retext i t (a ++ b) = retext i t a ++ retext i t b.
Proof. apply map_app. Qed.

Lemma retext_retext i t t' (l : list Message) :
  retext i t (retext i t' l) = retext i t l.
Proof.
  unfold retext. rewrite map_map. apply map_ext. intros msg.
  destruct (id_eqb (id msg) i) eqn:E; cbn [with_text id]; rewrite E; reflexivity.
Qed.

Lemma retext_fresh i t (l : list Message) :
  Forall (fun msg => id msg <> i) l -> retext i t l = l.
Proof.
  induction 1 as [|msg l H _ IH]; [reflexivity|].
  unfold retext in *. cbn [map]. rewrite IH.
  destruct (id_eqb_spec (id msg) i); [contradiction|reflexivity].
Qed.

Lemma retext_pointwise i t (l : list Message) :
  Forall2 (fun old new =>
             id new = id old /\ role new = role old /\
             (id old = i -> text new = t) /\
             (id old <> i -> new = old))
    l (retext i t l).
Proof.
  induction l as [|msg l IH]; [constructor|].
  cbn [retext map]. constructor; [|exact IH].
  destruct (id_eqb_spec (id msg) i) as [E|N].
  - split; [reflexivity|]. split; [reflexivity|]. split; [reflexivity|].
    intros H. contradiction.
  - split; [reflexivity|]. split; [reflexivity|]. split; [|reflexivity].
    intros H. contradiction.
Qed.

Lemma retext_nth i t (l : list Message) (n : nat) (msg : Message) :
  nth_error l n = Some msg -> id msg <> i ->
  nth_error (retext i t l) n = Some msg.
Proof.
  intros H N. unfold retext. rewrite nth_error_map, H. cbn [option_map].
  destruct (id_eqb_spec (id msg) i); [contradiction|reflexivity].
Qed.

(** The end of a turn alone: the updater of line 215 runs when the handles
    have been cleared, and compares the ids with [null]. *)
Lemma turnComplete_alone env (l : Live) (st : State) :
  onmessage env TurnComplete l st
  = (mkLive "" "" (nextStartTime l) None None (scheduled l),
     setMessages (retext None (currentInputTranscription l)) st,
     Completed).
Proof. reflexivity. Qed.

Lemma merge_run (st0 : State) (e1 e2 e3 : Env) :
  let uid := dateNow e1 in
  let deltas := [Deliver e1 (InputTranscriptDelta "Hel");
                 Deliver e2 (InputTranscriptDelta "lo")] in
  let r2 := run (mkRun st0 fresh []) deltas in
  messages (component r2)
  = retext (Some uid) "*Hello*" (messages st0)
      ++ [mkMessage (Some uid) USER "*Hello*" None None] /\
  step r2 (Deliver e3 TurnComplete)
  = mkRun (setMessages (retext None "Hello") (component r2)) fresh [] /\
  messages (component (step r2 (Deliver e3 TurnComplete)))
  = retext None "Hello" (retext (Some uid) "*Hello*" (messages st0))
      ++ [mkMessage (Some uid) USER "*Hello*" None None].
Proof.
  intros uid deltas r2.
  assert (M2 : messages (component r2)
               = retext (Some uid) "*Hello*" (messages st0)
                   ++ [mkMessage (Some uid) USER "*Hello*" None None]).
  { subst r2 deltas uid. cbn. unfold append, retext. rewrite map_app. cbn.
    now rewrite Z.eqb_refl. }
  assert (L2 : live r2 = mkLive "Hello" "" 0 (Some uid) None []) by reflexivity.
  assert (A2 : awaiting r2 = []) by reflexivity.
  assert (S3 : step r2 (Deliver e3 TurnComplete)
               = mkRun (setMessages (retext None "Hello") (component r2))
                   fresh []).
  { cbn [step]. rewrite turnComplete_alone, L2, A2. reflexivity. }
  split; [exact M2|]. split; [exact S3|].
  rewrite S3. cbn [component setMessages messages]. rewrite M2.
  rewrite retext_app. reflexivity.
Qed.

(** C4 does not hold of the code.  The deltas ["Hel"] and ["lo"] of the
    input transcript, each rendered, open one user record and bring its
    text to ["*Hello*"].  The end of the turn then hands over the updater
    that should put ["Hello"] in the record whose id is [userInputId], and
    clears [userInputId] in the same run of [onmessage]; when the updater
    runs the variable is [null], so the record of the turn is not
    rewritten and keeps its asterisks: the transcript has one user record
    more, with the text ["*Hello*"], not ["Hello"].  What the updater does
    rewrite are the records whose id is [null], if there are any.  The
    rest of the claim holds: both buffers are emptied and both handles
    cleared, and the next delta opens a new record.  In general the end of
    a turn gives the cumulative input text to the records whose id is
    [null] and keeps every other record, the open user record included. *)
Theorem reconciler_keeps_marker (st0 : State) (e1 e2 e3 : Env) :
  let uid := dateNow e1 in
  let deltas := [Deliver e1 (InputTranscriptDelta "Hel");
                 Deliver e2 (InputTranscriptDelta "lo")] in
  let r2 := run (mkRun st0 fresh []) deltas in
  let r3 := step r2 (Deliver e3 TurnComplete) in
  let i3 := step (run (mkRun initial fresh []) deltas) (Deliver e3 TurnComplete) in
  messages (component r2)
  = retext (Some uid) "*Hello*" (messages st0)
      ++ [mkMessage (Some uid) USER "*Hello*" None None] /\
  messages (component r3)
  = retext None "Hello" (retext (Some uid) "*Hello*" (messages st0))
      ++ [mkMessage (Some uid) USER "*Hello*" None None] /\
  (Forall (fun msg => id msg <> Some uid /\ id msg <> None) (messages st0) ->
   messages (component r3)
   = messages st0 ++ [mkMessage (Some uid) USER "*Hello*" None None]) /\
  filter (fun msg => ChatRole_eqb (role msg) USER) (messages (component i3))
  = [mkMessage (Some uid) USER "*Hello*" None None] /\
  filter (fun msg => ChatRole_eqb (role msg) USER) (messages (component i3))
  <> [mkMessage (Some uid) USER "Hello" None None] /\
  live r3 = fresh /\ awaiting r3 = [] /\
  (forall env t,
      messages (component (step r3 (Deliver env (InputTranscriptDelta t))))
      = messages (component r3)
          ++ [mkMessage (Some (dateNow env)) USER (emphasis t) None None]) /\
  (forall env l st,
      let res := onmessage env TurnComplete l st in
      fst (fst res) = mkLive "" "" (nextStartTime l) None None (scheduled l) /\
      snd res = Completed /\
      messages (snd (fst res))
      = retext None (currentInputTranscription l) (messages st) /\
      Forall2 (fun old new =>
                 id new = id old /\ role new = role old /\
                 (id old = None -> text new = currentInputTranscription l) /\
                 (id old <> None -> new = old))
        (messages st) (messages (snd (fst res))) /\
      (forall k n rec,
          userInputId l = Some k ->
          nth_error (messages st) n = Some rec -> id rec = Some k ->
          nth_error (messages (snd (fst res))) n = Some rec)).
Proof.
  intros uid deltas r2 r3 i3.
  destruct (merge_run st0 e1 e2 e3) as (M2 & S3 & M3).
  destruct (merge_run initial e1 e2 e3) as (_ & _ & I3).
  fold uid deltas r2 in M2, S3, M3. fold r3 in S3, M3.
  fold uid deltas in I3. fold i3 in I3.
  assert (U : filter (fun msg => ChatRole_eqb (role msg) USER)
                (messages (component i3))
              = [mkMessage (Some uid) USER "*Hello*" None None]).
  { rewrite I3. unfold retext, initial. cbn [messages map List.app].
    destruct (id_eqb (id greeting) (Some uid)); reflexivity. }
  split; [exact M2|]. split; [exact M3|].
  split.
  { intros F. rewrite M3. rewrite (retext_fresh (Some uid)).
    - rewrite retext_fresh; [reflexivity|].
      eapply Forall_impl; [|exact F]. intros msg H. apply H.
    - eapply Forall_impl; [|exact F]. intros msg H. apply H. }
  split; [exact U|].
  split; [rewrite U; discriminate|].
  split; [now rewrite S3|]. split; [now rewrite S3|].
  split; [intros env t; rewrite S3; reflexivity|].
  intros env l st res. subst res. rewrite turnComplete_alone.
  cbn [fst snd setMessages messages].
  split; [reflexivity|]. split; [reflexivity|]. split; [reflexivity|].
  split; [apply retext_pointwise|].
  intros k n rec _ H E. apply retext_nth; [exact H|]. rewrite E. discriminate.
Qed.

End ReconcilerFacts.

(** ** The PCM framer *)

Section FramerFacts.
Import App.

Lemma store_at (pre tl : list Z) (x v : Z) :
  store (pre ++ x :: tl) (List.length pre) v = pre ++ v :: tl.
Proof.
  induction pre as [|y pre IH]; [reflexivity|].
  cbn [List.app List.length store]. now rewrite IH.
Qed.

Lemma skipn_cons_nth {A : Type} (d : A) (l : list A) (i : nat) :
  (i < List.length l)%nat -> skipn i l = nth i l d :: skipn (S i) l.
Proof.
  revert i. induction l as [|x l IH]; intros i H; [cbn in H; lia|].
  destruct i as [|i]; [reflexivity|].
  cbn [skipn nth]. rewrite IH by (cbn in H; lia). reflexivity.
Qed.

(** The loop, [i] elements written and [n] to go. *)
Lemma fill_spec (inputData : list Number) (n : nat) :
  forall (pre : list Z),
    (List.length pre + n = List.length inputData)%nat ->
    fill inputData (List.length pre) n (pre ++ repeat 0%Z n)
    = pre ++ map (fun x => ToInt16 (times_32768 x))
               (skipn (List.length pre) inputData).
Proof.
  induction n as [|n IH]; intros pre H.
  - cbn [fill repeat]. rewrite skipn_all2 by lia. reflexivity.
  - cbn [fill repeat]. rewrite store_at.
    rewrite (skipn_cons_nth NaN) by lia. cbn [map].
    set (v := ToInt16 (times_32768 (nth (List.length pre) inputData NaN))).
    specialize (IH (pre ++ [v])).
    rewrite length_app in IH. cbn [List.length] in IH.
    rewrite Nat.add_1_r, <- app_assoc in IH. cbn [List.app] in IH.
    rewrite IH by lia. now rewrite <- app_assoc.
Qed.

Lemma frame_map (inputData : list Number) :
  frame inputData = map (fun x => ToInt16 (times_32768 x)) inputData.
Proof.
  unfold frame. apply (fill_spec inputData (List.length inputData) []).
  reflexivity.
Qed.

Lemma wrap16_spec (z : Z) :
  (-32768 <= wrap16 z < 32768)%Z /\
  exists k : Z, (wrap16 z = z + 65536 * k)%Z.
Proof.
  unfold wrap16.
  pose proof (Z.mod_pos_bound z 65536 ltac:(lia)) as B.
  pose proof (Z.div_mod z 65536 ltac:(lia)) as D.
  destruct (Z.leb_spec 32768 (z mod 65536)).
  - split; [lia|]. exists (- (z / 65536) - 1)%Z. lia.
  - split; [lia|]. exists (- (z / 65536))%Z. lia.
Qed.

(** [truncate] drops the fraction: towards zero on either side. *)
Lemma truncate_spec (q : Q) :
  (0 <= q -> inject_Z (truncate q) <= q /\ q < inject_Z (truncate q) + 1) /\
  (q <= 0 -> inject_Z (truncate q) - 1 < q /\ q <= inject_Z (truncate q)).
Proof.
  destruct q as [a b]. unfold truncate, Qle, Qlt. cbn.
  pose proof (Z.quot_rem' a (Zpos b)) as E.
  split; intros H.
  - pose proof (Z.rem_bound_pos a (Zpos b) ltac:(lia) ltac:(lia)). nia.
  - pose proof (Z.rem_bound_pos_neg a (Zpos b) ltac:(lia) ltac:(lia)). nia.
Qed.

Lemma flat_map_bytes_length (frame16 : list Z) :
  List.length (flat_map bytes_of_int16 frame16) = (2 * List.length frame16)%nat.
Proof.
  induction frame16 as [|v l IH]; [reflexivity|].
  cbn [flat_map List.length List.app bytes_of_int16]. rewrite IH. lia.
Qed.

(** The blob of a capture buffer: two bytes a sample, in base64, under the
    fixed MIME type; 4096 samples give 10924 characters. *)
Lemma onaudioprocess_blob (inputData : list Number) :
  String.length (data (onaudioprocess inputData))
  = Audio.encoded_length (2 * List.length inputData) /\
  mimeType (onaudioprocess inputData) = "audio/pcm;rate=16000"%string /\
  N.of_nat (Audio.encoded_length (2 * 4096)) = 10924%N.
Proof.
  unfold onaudioprocess. cbn [data mimeType].
  rewrite encode_length, flat_map_bytes_length, frame_map, length_map.
  repeat split; reflexivity.
Qed.

(** C2, as the code has it.  The frame has as many elements as the capture
    buffer, and element [i] is the sample [i] times 32768 converted as an
    [Int16Array] converts: the fraction is dropped (towards zero, there is
    no rounding to nearest), the integer is taken modulo 2^16 into
    [-32768, 32767], and a NaN or an infinity gives 0.  Nothing is clamped:
    the sample 1.0 gives -32768. *)
Theorem pcm_frame (inputData : list Number) :
  List.length (frame inputData) = List.length inputData /\
  (forall i : nat,
      nth i (frame inputData) 0%Z
      = ToInt16 (times_32768 (nth i inputData NaN))) /\
  (forall q : Q,
      let v := ToInt16 (times_32768 (Finite q)) in
      let t := truncate (q * 32768) in
      (-32768 <= v < 32768)%Z /\
      (exists k : Z, v = t + 65536 * k)%Z /\
      (0 <= q * 32768 -> inject_Z t <= q * 32768 /\ q * 32768 < inject_Z t + 1) /\
      (q * 32768 <= 0 -> inject_Z t - 1 < q * 32768 /\ q * 32768 <= inject_Z t)) /\
  ToInt16 (times_32768 NaN) = 0%Z /\
  (forall s, ToInt16 (times_32768 (Infinity s)) = 0%Z) /\
  frame [Finite 1; Finite (-1); Finite (3 # 2)] = [-32768; -32768; -16384]%Z.
Proof.
  split; [rewrite frame_map; apply length_map|].
  split.
  { intros i. rewrite frame_map.
    change 0%Z with ((fun x => ToInt16 (times_32768 x)) NaN) at 1.
    apply map_nth. }
  split.
  { intros q v t. subst v t. cbn [times_32768 ToInt16].
    destruct (wrap16_spec (truncate (q * 32768))) as [B K].
    destruct (truncate_spec (q * 32768)) as [P N]. auto. }
  split; [reflexivity|]. split; [reflexivity|]. reflexivity.
Qed.

(** C2 as the specification states it does not hold: the sample 3/131072
    times 32768 is 0.75; the frame holds 0 where rounding gives 1. *)
Lemma pcm_frame_does_not_round :
  let x := Finite (3 # 131072) in
  times_32768 x = Finite ((3 # 131072) * 32768) /\
  (3 # 131072) * 32768 == 3 # 4 /\
  frame [x] = [0%Z] /\
  spec_frame [x] = [1%Z] /\
  frame [x] <> spec_frame [x].
Proof.
  cbv zeta. split; [reflexivity|]. split; [reflexivity|].
  split; [reflexivity|]. split; [reflexivity|]. discriminate.
Qed.

End FramerFacts.

(** ** Teardown and start of a session *)

Section SessionFacts.
Import Types App.

Ltac stop_cases st :=
  destruct st as [ms inp lis loa key chat ses med ctx pro cs];
  destruct ses as [[s|]|], med, pro, ctx as [[c rt []]|];
  cbv -[List.app].

Lemma stopListening_twice (st : State) :
  stopListening (stopListening st) = stopListening st.
Proof.
  stop_cases st; reflexivity.
Qed.

Lemma stopListening_calls (st : State) :
  exists cs,
    calls (stopListening st) = calls st ++ cs /\
    forallb (fun c => negb (refused c)) cs = true.
Proof.
  stop_cases st; rewrite <- ?app_assoc;
    first [ eexists; split; [reflexivity|reflexivity]
          | exists []; split; [symmetry; apply app_nil_r|reflexivity] ].
Qed.

Lemma stopListening_refs (st : State) :
  sessionPromiseRef (stopListening st) = None /\
  mediaStreamRef (stopListening st) = None /\
  scriptProcessorRef (stopListening st) = None /\
  isListening (stopListening st) = false /\
  messages (stopListening st) = messages st /\
  (forall c, audioContextRef (stopListening st) = Some c ->
             is_closed c = true /\ audioContextRef st = Some c) /\
  ((forall c, audioContextRef st = Some c -> is_closed c = false) ->
   audioContextRef (stopListening st) = None).
Proof.
  stop_cases st;
    (do 5 (split; [reflexivity|])); split;
    try (intros ? H; discriminate H);
    try (intros ? H; inversion H; subst; split; reflexivity);
    try reflexivity;
    intros H; now specialize (H _ eq_refl).
Qed.

(** The calls of a teardown, in their order: the tracks, the node and the
    context on the way, the session once the callback given to its
    promise runs. *)
Lemma stopListening_trace (st : State) :
  calls (stopListening st)
  = calls st
      ++ match mediaStreamRef st with
         | Some stream => [TrackStop stream]
         | None => []
         end
      ++ match scriptProcessorRef st with
         | Some node => [ProcessorDisconnect node]
         | None => []
         end
      ++ match audioContextRef st with
         | Some a => if is_closed a then [] else [ContextClose a]
         | None => []
         end
      ++ match sessionPromiseRef st with
         | Some (resolves session) => [SessionClose session]
         | _ => []
         end.
Proof.
  stop_cases st; cbn [List.app]; rewrite <- ?app_assoc, ?app_nil_r;
    reflexivity.
Qed.

(** What the setters leave of the refs. *)
Lemma ctx_setMessages f st : audioContextRef (setMessages f st) = audioContextRef st.
Proof. reflexivity. Qed.
Lemma ctx_setInput v st : audioContextRef (setInput v st) = audioContextRef st.
Proof. reflexivity. Qed.
Lemma ctx_setIsListening v st : audioContextRef (setIsListening v st) = audioContextRef st.
Proof. reflexivity. Qed.
Lemma ctx_setIsLoading v st : audioContextRef (setIsLoading v st) = audioContextRef st.
Proof. reflexivity. Qed.
Lemma ctx_setIsApiKeyReady v st : audioContextRef (setIsApiKeyReady v st) = audioContextRef st.
Proof. reflexivity. Qed.
Lemma ctx_set_chatRef v st : audioContextRef (set_chatRef v st) = audioContextRef st.
Proof. reflexivity. Qed.
Lemma ctx_set_sessionPromiseRef v st :
  audioContextRef (set_sessionPromiseRef v st) = audioContextRef st.
Proof. reflexivity. Qed.
Lemma ctx_set_mediaStreamRef v st :
  audioContextRef (set_mediaStreamRef v st) = audioContextRef st.
Proof. reflexivity. Qed.
Lemma ctx_set_scriptProcessorRef v st :
  audioContextRef (set_scriptProcessorRef v st) = audioContextRef st.
Proof. reflexivity. Qed.
Lemma ctx_call c st : audioContextRef (call c st) = audioContextRef st.
Proof. reflexivity. Qed.

Ltac ctx_simpl :=
  rewrite ?ctx_setMessages, ?ctx_setInput, ?ctx_setIsListening,
    ?ctx_setIsLoading, ?ctx_setIsApiKeyReady, ?ctx_set_chatRef,
    ?ctx_set_sessionPromiseRef, ?ctx_set_mediaStreamRef,
    ?ctx_set_scriptProcessorRef, ?ctx_call.

Lemma ctx_enter_branch r st :
  audioContextRef (enter_branch r st) = audioContextRef st.
Proof.
  unfold enter_branch, initializeChat.
  destruct r; try reflexivity. destruct (chatRef st); reflexivity.
Qed.

Lemma ctx_sendMessage t env st :
  audioContextRef (sendMessage t env st) = audioContextRef st.
Proof.
  unfold sendMessage.
  destruct (Audio.is_empty (trim t) || isLoading st); [reflexivity|].
  cbv zeta. ctx_simpl.
  destruct (backend env (Routing.route t) t); ctx_simpl;
    rewrite ?ctx_enter_branch; ctx_simpl; reflexivity.
Qed.

Lemma ctx_handleApiError now e k st :
  audioContextRef (handleApiError now e k st) = audioContextRef st.
Proof.
  unfold handleApiError.
  destruct (_ || _); destruct k; ctx_simpl; reflexivity.
Qed.

Lemma ctx_sendMessage' t env st :
  audioContextRef (sendMessage' t env st) = audioContextRef st.
Proof.
  unfold sendMessage'.
  destruct (Audio.is_empty (trim t) || isLoading st); [reflexivity|].
  cbv zeta. ctx_simpl.
  destruct (backend env (Routing.route t) t);
    rewrite ?ctx_handleApiError; ctx_simpl;
    rewrite ?ctx_enter_branch; ctx_simpl; reflexivity.
Qed.

Lemma ctx_start_catch env st :
  audioContextRef (start_catch env st) = audioContextRef st.
Proof. reflexivity. Qed.

Lemma ctx_startListening_resume env st :
  audioContextRef (fst (fst (startListening_resume env st))) = audioContextRef st.
Proof.
  unfold startListening_resume.
  destruct (getUserMedia env); [|reflexivity]. cbv zeta.
  destruct (negb (newGoogleGenAI env)); [reflexivity|].
  destruct (newOutputAudioContext env); reflexivity.
Qed.

(** A context held in the ref is never a closed one. *)
Lemma reachable_context_open (st : State) :
  reachable st ->
  forall c, audioContextRef st = Some c -> is_closed c = false.
Proof.
  induction 1 as [|v st R IH|t env st R IH|t env st R IH|st R IH|env st R IH
                 |env st R IH
                 |c0 node st R IH|env m l st R IH|now e st R IH
                 |now e k st R IH]; intros c.
  - discriminate.
  - rewrite ctx_setInput. apply IH.
  - rewrite ctx_sendMessage. apply IH.
  - rewrite ctx_sendMessage'. apply IH.
  - destruct (stopListening_refs st) as (_ & _ & _ & _ & _ & _ & N).
    rewrite (N IH). discriminate.
  - unfold startListening.
    destruct (isListening st).
    + cbn [fst].
      destruct (stopListening_refs st) as (_ & _ & _ & _ & _ & _ & N).
      rewrite (N IH). discriminate.
    + rewrite ctx_startListening_resume. apply IH.
  - rewrite ctx_startListening_resume. apply IH.
  - unfold onopen. cbv zeta.
    destruct (mediaStreamRef _); ctx_simpl;
      cbn [audioContextRef set_audioContextRef];
      intros H; inversion H; reflexivity.
  - destruct (onmessage_component env m l st) as [ms ->].
    rewrite ctx_setMessages. apply IH.
  - unfold onerror.
    destruct (stopListening_refs
                (setMessages
                   (append (mkMessage (Some now) SYSTEM
                              ("Connection error: " ++ e)%string None None)) st))
      as (_ & _ & _ & _ & _ & _ & N).
    rewrite N; [discriminate|]. intros c'. rewrite ctx_setMessages. apply IH.
  - rewrite ctx_handleApiError. apply IH.
Qed.

(** C6. [stopListening] releases what the component holds and is
    idempotent.  The first call stops the tracks of the stream held,
    disconnects the processing node held, closes the audio context held
    unless it is closed already, and, through the callback it gives to the
    promise of the session, closes the session once that promise has
    resolved; these calls are made in this order, nothing else is called,
    and none is one the platform refuses.  After it the refs of the
    session promise, the stream and the node are cleared and [isListening]
    is false; so is the ref of the audio context in every state the
    component can reach (a context is left in its ref only when it was
    found closed already).  A second call changes nothing: the state is
    the state after the first call, the trace of calls included, so that
    no platform object is touched again and nothing can fail.  Stopping
    what was never started, or what holds nothing, is no change at all. *)
Theorem stop_idempotent (st : State) :
  let s1 := stopListening st in
  stopListening s1 = s1 /\
  calls (stopListening s1) = calls s1 /\
  calls s1
  = calls st
      ++ match mediaStreamRef st with
         | Some stream => [TrackStop stream]
         | None => []
         end
      ++ match scriptProcessorRef st with
         | Some node => [ProcessorDisconnect node]
         | None => []
         end
      ++ match audioContextRef st with
         | Some a => if is_closed a then [] else [ContextClose a]
         | None => []
         end
      ++ match sessionPromiseRef st with
         | Some (resolves session) => [SessionClose session]
         | _ => []
         end /\
  (forall stream, mediaStreamRef st = Some stream ->
                  In (TrackStop stream) (calls s1)) /\
  (forall node, scriptProcessorRef st = Some node ->
                In (ProcessorDisconnect node) (calls s1)) /\
  (forall a, audioContextRef st = Some a -> is_closed a = false ->
             In (ContextClose a) (calls s1)) /\
  (forall session, sessionPromiseRef st = Some (resolves session) ->
                   In (SessionClose session) (calls s1)) /\
  (exists cs,
      calls s1 = calls st ++ cs /\
      forallb (fun c => negb (refused c)) cs = true) /\
  sessionPromiseRef s1 = None /\
  mediaStreamRef s1 = None /\
  scriptProcessorRef s1 = None /\
  isListening s1 = false /\
  (forall c, audioContextRef s1 = Some c ->
             is_closed c = true /\ audioContextRef st = Some c) /\
  (reachable st -> audioContextRef s1 = None) /\
  stopListening initial = initial /\
  (sessionPromiseRef st = None -> mediaStreamRef st = None ->
   scriptProcessorRef st = None -> audioContextRef st = None ->
   isListening st = false -> stopListening st = st).
Proof.
  intros s1. subst s1.
  destruct (stopListening_refs st) as (R1 & R2 & R3 & R4 & _ & R5 & R6).
  split; [apply stopListening_twice|].
  split; [now rewrite stopListening_twice|].
  split; [apply stopListening_trace|].
  split.
  { intros stream E. rewrite stopListening_trace, E.
    apply in_or_app. right. apply in_or_app. left. left. reflexivity. }
  split.
  { intros node E. rewrite stopListening_trace, E.
    apply in_or_app. right. apply in_or_app. right.
    apply in_or_app. left. left. reflexivity. }
  split.
  { intros a E C. rewrite stopListening_trace, E, C.
    apply in_or_app. right. apply in_or_app. right.
    apply in_or_app. right. apply in_or_app. left. left. reflexivity. }
  split.
  { intros session E. rewrite stopListening_trace, E.
    apply in_or_app. right. apply in_or_app. right.
    apply in_or_app. right. apply in_or_app. right. left. reflexivity. }
  split; [apply stopListening_calls|].
  do 4 (split; [assumption|]).
  split; [exact R5|].
  split; [intros R; apply R6; now apply reachable_context_open|].
  split; [reflexivity|].
  destruct st as [ms inp lis loa key chat ses med ctx pro cs].
  cbn [sessionPromiseRef mediaStreamRef scriptProcessorRef audioContextRef
       isListening].
  intros -> -> -> -> ->. reflexivity.
Qed.

(** C7, as the code has it.  [startListening] called while a session is
    active is not rejected: its promise resolves, the component itself
    having run the teardown of [stopListening]; no session is opened. *)
Theorem start_while_active (env : StartEnv) (st : State) :
  isListening st = true ->
  startListening env st = (stopListening st, None, Resolved) /\
  snd (startListening env st) <> Rejected AlreadyActiveError /\
  sessionPromiseRef (fst (fst (startListening env st))) = None /\
  isListening (fst (fst (startListening env st))) = false.
Proof.
  intros A. unfold startListening. rewrite A. cbn [fst snd].
  destruct (stopListening_refs st) as (R1 & _ & _ & R4 & _).
  repeat split; auto. discriminate.
Qed.

(** An instance: the session started from the initial state. *)
Lemma start_while_active_witness :
  let env := mkStartEnv (Some 7%nat) true (Some 3%nat) (resolves 1%nat) 1000 in
  let active := fst (fst (startListening env initial)) in
  isListening active = true /\
  startListening env active = (stopListening active, None, Resolved).
Proof.
  intros env active. split; [reflexivity|].
  exact (proj1 (start_while_active env active eq_refl)).
Defined.

(** C7 as the specification states it does not hold: a session is started
    from the initial state and is active; the second [startListening]
    resolves, it is not rejected with [AlreadyActiveError]. *)
Lemma second_start_not_rejected :
  let env := mkStartEnv (Some 7%nat) true (Some 3%nat) (resolves 1%nat) 1000 in
  let active := fst (fst (startListening env initial)) in
  isListening active = true /\
  sessionPromiseRef active = Some (resolves 1%nat) /\
  snd (startListening env active) = Resolved /\
  snd (startListening env active) <> Rejected AlreadyActiveError.
Proof.
  cbv zeta. repeat split; try reflexivity. discriminate.
Qed.

(** C8 does not hold of the code.  [startListening] from the initial
    state: the microphone is granted (stream 7) and the constructor of the
    output audio context throws.  The [catch] block appends one system
    message and clears [isListening], and that is all: the stream stays in
    its ref with its tracks running and no call is made on it, where
    [stopListening] on the same state stops the tracks and clears the ref.
    A channel error, by contrast, goes through [stopListening] in both
    revisions of [onerror], after one system message; the output audio
    context (3 below) is closed by neither. *)
Theorem start_failure_keeps_microphone :
  let env := mkStartEnv (Some 7%nat) true None (resolves 1%nat) 1000 in
  let st := fst (fst (startListening env initial)) in
  let ok := mkStartEnv (Some 7%nat) true (Some 3%nat) (resolves 1%nat) 1000 in
  let active := fst (fst (startListening ok initial)) in
  snd (startListening env initial) = Resolved /\
  isListening st = false /\
  messages st
  = [greeting;
     mkMessage (Some 1000%Z) SYSTEM
       "Could not access microphone. Please check permissions." None None] /\
  mediaStreamRef st = Some 7%nat /\
  calls st = [] /\
  mediaStreamRef (stopListening st) = None /\
  calls (stopListening st) = [TrackStop 7%nat] /\
  st <> stopListening st /\
  calls (onerror 2000 "lost" active)
  = [ContextCreate 3 24000; LiveConnect (resolves 1%nat); TrackStop 7%nat;
     SessionClose 1%nat] /\
  (forall now e s,
      exists sys,
        role sys = SYSTEM /\
        messages (onerror now e s) = messages s ++ [sys] /\
        onerror now e s = stopListening (setMessages (append sys) s)) /\
  (forall now e s,
      exists sys,
        role sys = SYSTEM /\
        messages (onerror' now e s) = messages s ++ [sys] /\
        onerror' now e s = stopListening (handleApiError now (Some e) None s)).
Proof.
  cbv zeta.
  do 7 (split; [reflexivity|]).
  split; [discriminate|]. split; [reflexivity|].
  split; intros now e s.
  - eexists. split; [|split; [|reflexivity]]; [reflexivity|].
    unfold onerror.
    match goal with
    | |- context [stopListening ?x] =>
        destruct (stopListening_refs x) as (_ & _ & _ & _ & M & _)
    end.
    rewrite M. reflexivity.
  - unfold onerror'.
    destruct (stopListening_refs (handleApiError now (Some e) None s))
      as (_ & _ & _ & _ & M & _).
    rewrite M. unfold handleApiError.
    destruct (_ || _); eexists;
      (split; [|split; [reflexivity|reflexivity]]); reflexivity.
Qed.

End SessionFacts.

(** ** Routing of a text message *)

Section RoutingFacts.
Import Routing.

Lemma prefix_spec (k s : string) :
  String.prefix k s = true <-> exists post, s = (k ++ post)%string.
Proof.
  revert s. induction k as [|c k IH]; intros s.
  - split; [intros _; now exists s|]. intros _. now destruct s.
  - destruct s as [|d s]; cbn [String.prefix].
    + split; [discriminate|]. intros [post H]. discriminate H.
    + destruct (ascii_dec c d) as [->|N].
      * rewrite IH. split; intros [post H]; exists post.
        -- cbn. now rewrite H.
        -- cbn in H. now inversion H.
      * split; [discriminate|]. intros [post H]. cbn in H. congruence.
Qed.

Lemma includes_spec (s k : string) :
  includes s k = true <-> substring k s.
Proof.
  unfold substring. split.
  - induction s as [|c s IH]; cbn [includes]; intros H.
    + rewrite orb_false_r in H. apply prefix_spec in H.
      destruct H as [post H]. now exists ""%string, post.
    + apply orb_true_iff in H. destruct H as [H|H].
      * apply prefix_spec in H. destruct H as [post H].
        now exists ""%string, post.
      * destruct (IH H) as (pre & post & E).
        exists (String c pre), post. cbn. now rewrite E.
  - intros (pre & post & E). revert s E.
    induction pre as [|c pre IH]; intros s E.
    + cbn in E.
      assert (P : String.prefix k s = true) by (apply prefix_spec; eauto).
      destruct s; cbn [includes]; now rewrite P.
    + cbn in E. subst s. cbn [includes].
      rewrite (IH _ eq_refl). apply orb_true_r.
Qed.

Lemma hasGroundingKeywords_spec (text : string) (keywords : list string) :
  hasGroundingKeywords text keywords = true <->
  exists k, In k keywords /\ substring k (toLowerCase text).
Proof.
  unfold hasGroundingKeywords. rewrite existsb_exists.
  split; intros (k & I & H); exists k; split; auto; now apply includes_spec.
Qed.

(** C9. The branch of [sendMessage] is a function of the text alone, and
    of its lower-case form only.  It is the maps branch exactly when some
    maps keyword occurs in the lower-case text, a search keyword occurring
    as well or not; the search branch exactly when no maps keyword occurs
    and some search keyword does; the plain chat otherwise.  A keyword
    occurs wherever it is a substring, inside a longer word too. *)
Theorem route_by_keywords (text : string) :
  let hit := fun keywords =>
               exists k, In k keywords /\ substring k (toLowerCase text) in
  (route text = MapsGrounding <-> hit MAPS_KEYWORDS) /\
  (route text = SearchGrounding <->
   ~ hit MAPS_KEYWORDS /\ hit SEARCH_KEYWORDS) /\
  (route text = StandardChat <->
   ~ hit MAPS_KEYWORDS /\ ~ hit SEARCH_KEYWORDS) /\
  (forall text', toLowerCase text' = toLowerCase text ->
                 route text' = route text) /\
  MAPS_KEYWORDS
  = ["where"; "nearby"; "directions"; "restaurants"; "locations"; "find"]%string /\
  toLowerCase "Who is NOWHERE to be seen" = "who is nowhere to be seen"%string /\
  route "Who is NOWHERE to be seen" = MapsGrounding /\
  route "Who is here" = SearchGrounding /\
  route "Newspapers" = SearchGrounding /\
  route "Hello there" = StandardChat.
Proof.
  intros hit. subst hit. cbv beta.
  rewrite <- !hasGroundingKeywords_spec. unfold route.
  destruct (hasGroundingKeywords text MAPS_KEYWORDS) eqn:M;
    destruct (hasGroundingKeywords text SEARCH_KEYWORDS) eqn:S.
  all: repeat split; try reflexivity; try discriminate;
    try (intros [? ?]; try discriminate; contradiction);
    try (intros H; discriminate H);
    try (intros text' E; unfold hasGroundingKeywords in *; rewrite E, ?M, ?S;
         reflexivity).
Qed.

End RoutingFacts.

(** ** The guard of [sendMessage] *)

Section SendFacts.
Import Types App.

Lemma trimStart_whitespace (s : string) :
  whitespace_only s = true -> trimStart s = ""%string.
Proof.
  induction s as [|c s IH]; [reflexivity|].
  cbn [whitespace_only trimStart]. intros H.
  apply andb_true_iff in H. destruct H as [W R]. rewrite W. now apply IH.
Qed.

Lemma trimEnd_empty (s : string) :
  trimEnd s = ""%string -> whitespace_only s = true.
Proof.
  induction s as [|c s IH]; [reflexivity|].
  cbn [trimEnd whitespace_only].
  destruct (trimEnd s); [|discriminate].
  destruct (isWhiteSpace c); [|discriminate].
  intros _. now rewrite IH.
Qed.

Lemma trimStart_empty (s : string) :
  whitespace_only (trimStart s) = true -> whitespace_only s = true.
Proof.
  induction s as [|c s IH]; [reflexivity|].
  cbn [trimStart]. destruct (isWhiteSpace c) eqn:W.
  - intros H. cbn [whitespace_only]. rewrite W. now apply IH.
  - auto.
Qed.

(** [!messageText.trim()] holds of the texts made of white space only. *)
Lemma trim_empty (s : string) :
  Audio.is_empty (trim s) = whitespace_only s.
Proof.
  destruct (whitespace_only s) eqn:W.
  - unfold trim. now rewrite trimStart_whitespace.
  - destruct (Audio.is_empty (trim s)) eqn:E; [|reflexivity].
    assert (T : trim s = ""%string) by (destruct (trim s); [reflexivity|discriminate]).
    unfold trim in T. apply trimEnd_empty, trimStart_empty in T. congruence.
Qed.

(** C10. A text that is empty or made of white space only, or a send still
    in flight, makes [sendMessage] return at once, in either revision: the
    state of the component is the state before the call, the message list,
    the input field and the loading flag with it. *)
Theorem sendMessage_guard (messageText : string) (env : SendEnv) (st : State) :
  whitespace_only messageText = true \/ isLoading st = true ->
  sendMessage messageText env st = st /\
  messages (sendMessage messageText env st) = messages st /\
  input (sendMessage messageText env st) = input st /\
  isLoading (sendMessage messageText env st) = isLoading st /\
  sendMessage' messageText env st = st.
Proof.
  intros G.
  assert (E : sendMessage messageText env st = st).
  { unfold sendMessage. rewrite trim_empty.
    destruct G as [-> | ->]; [reflexivity|]. now rewrite orb_true_r. }
  assert (E' : sendMessage' messageText env st = st).
  { unfold sendMessage'. rewrite trim_empty.
    destruct G as [-> | ->]; [reflexivity|]. now rewrite orb_true_r. }
  rewrite E. auto.
Qed.

(** Instances: two blanks; a text sent while a send is in flight. *)
Lemma sendMessage_guard_witness :
  let st := setIsLoading true initial in
  let env := mkSendEnv 10 10 10 (fun _ _ => Replied "ok" []) in
  (whitespace_only "  " = true \/ isLoading initial = true) /\
  (whitespace_only "hello" = true \/ isLoading st = true) /\
  sendMessage "  " env initial = initial /\
  sendMessage "hello" env st = st.
Proof.
  intros st env.
  split; [left; reflexivity|]. split; [right; reflexivity|].
  split.
  - exact (proj1 (sendMessage_guard "  " env initial (or_introl eq_refl))).
  - exact (proj1 (sendMessage_guard "hello" env st (or_intror eq_refl))).
Defined.

Lemma initializeChat_messages (st : State) :
  messages (initializeChat st) = messages st.
Proof. unfold initializeChat. destruct (chatRef st); reflexivity. Qed.

Lemma enter_branch_messages r (st : State) :
  messages (enter_branch r st) = messages st.
Proof. destruct r; try reflexivity. apply initializeChat_messages. Qed.

(** Past the guard the call is not idle: both records are appended. *)
Lemma sendMessage_sends (messageText : string) (env : SendEnv) (st : State) :
  whitespace_only messageText = false -> isLoading st = false ->
  List.length (messages (sendMessage messageText env st))
  = S (S (List.length (messages st))).
Proof.
  intros W L. unfold sendMessage. rewrite trim_empty, W, L. cbv zeta.
  cbn [orb].
  destruct (backend env (Routing.route messageText) messageText);
    cbn [messages setIsLoading setMessages];
    unfold resolve_placeholder, fail_placeholder;
    rewrite length_map, ?enter_branch_messages;
    cbn [messages setMessages setInput setIsLoading];
    unfold append; rewrite !length_app; cbn [List.length]; lia.
Qed.

End SendFacts.

(* ================================================================== *)
(** * Part III: further properties of the component *)
(* ================================================================== *)

(** ** [sendMessage] past its guard *)

Section SendMessageFacts.
Import Types App.

Lemma sendMessage_split (t : string) (env : SendEnv) (st : State) :
  Audio.is_empty (trim t) || isLoading st = false ->
  sendMessage t env st = sendMessage_finish t env (sendMessage_begin t env st).
Proof.
  intros G. unfold sendMessage. rewrite G. reflexivity.
Qed.

Lemma begin_messages (t : string) (env : SendEnv) (st : State) :
  messages (sendMessage_begin t env st)
  = messages st
      ++ [mkMessage (Some (sendNow env)) USER t None None;
          mkMessage (Some (sendNow' env + 1)%Z) AI "" None (Some true)].
Proof.
  unfold sendMessage_begin. cbv zeta.
  cbn [messages setMessages setInput setIsLoading]. unfold append.
  now rewrite <- app_assoc.
Qed.

Lemma finish_messages (t : string) (env : SendEnv) (st : State) :
  messages (sendMessage_finish t env st)
  = match backend env (Routing.route t) t with
    | Replied responseText srcs =>
        resolve_placeholder (sendNow' env + 1) responseText
          (match Routing.route t with Routing.StandardChat => [] | _ => srcs end)
          (messages st)
    | Failed message | NoClient message =>
        fail_placeholder (sendNow' env + 1)
          ("Sorry, I ran into an error: " ++ error_text message)%string
          (messages st)
    end.
Proof.
  unfold sendMessage_finish. cbv zeta.
  destruct (backend env (Routing.route t) t);
    cbn [messages setMessages setIsLoading];
    rewrite ?enter_branch_messages; reflexivity.
Qed.

Lemma resolve_placeholder_fresh k t srcs (l : list Message) :
  Forall (fun msg => id msg <> Some k) l -> resolve_placeholder k t srcs l = l.
Proof.
  induction 1 as [|msg l H _ IH]; [reflexivity|].
  unfold resolve_placeholder in *. cbn [map]. rewrite IH.
  destruct (id_eqb_spec (id msg) (Some k)); [contradiction|reflexivity].
Qed.

Lemma fail_placeholder_fresh k t (l : list Message) :
  Forall (fun msg => id msg <> Some k) l -> fail_placeholder k t l = l.
Proof.
  induction 1 as [|msg l H _ IH]; [reflexivity|].
  unfold fail_placeholder in *. cbn [map]. rewrite IH.
  destruct (id_eqb_spec (id msg) (Some k)); [contradiction|reflexivity].
Qed.

Lemma guard_passes (t : string) (st : State) :
  whitespace_only t = false -> isLoading st = false ->
  Audio.is_empty (trim t) || isLoading st = false.
Proof. intros W L. now rewrite trim_empty, W, L. Qed.

Lemma finish_flags (t : string) (env : SendEnv) (st : State) :
  input (sendMessage_finish t env st) = input st /\
  isLoading (sendMessage_finish t env st) = false.
Proof.
  unfold sendMessage_finish, enter_branch, initializeChat. cbv zeta.
  destruct (backend env (Routing.route t) t);
    cbn [input isLoading setMessages setIsLoading];
    try (split; reflexivity);
    destruct (Routing.route t); try (split; reflexivity);
    destruct (chatRef st); split; reflexivity.
Qed.

(** X1. A text that passes the guard and is answered: the transcript gains
    the user's message as typed and, after it, the answer in the place of
    the loading placeholder, with its sources (none for the plain chat);
    the input field is emptied and the loading flag is down.  The ids come
    from the clock: the placeholder's must be new to the transcript and
    differ from the user message's. *)
Theorem sendMessage_replied
  (t : string) (env : SendEnv) (st : State)
  (responseText : string) (srcs : list GroundingSource) :
  whitespace_only t = false ->
  isLoading st = false ->
  backend env (Routing.route t) t = Replied responseText srcs ->
  Forall (fun msg => id msg <> Some (sendNow' env + 1)%Z) (messages st) ->
  (sendNow env <> sendNow' env + 1)%Z ->
  messages (sendMessage t env st)
  = messages st
      ++ [mkMessage (Some (sendNow env)) USER t None None;
          mkMessage (Some (sendNow' env + 1)%Z) AI responseText
            (Some (match Routing.route t with
                   | Routing.StandardChat => []
                   | _ => srcs
                   end))
            (Some false)] /\
  input (sendMessage t env st) = ""%string /\
  isLoading (sendMessage t env st) = false.
Proof.
  intros W L B F N.
  rewrite (sendMessage_split t env st (guard_passes t st W L)).
  destruct (finish_flags t env (sendMessage_begin t env st)) as [I Lo].
  rewrite I, Lo, finish_messages, B, begin_messages.
  split; [|split; reflexivity].
  unfold resolve_placeholder. rewrite map_app.
  fold (resolve_placeholder (sendNow' env + 1) responseText
          (match Routing.route t with Routing.StandardChat => [] | _ => srcs end)
          (messages st)).
  rewrite resolve_placeholder_fresh by assumption.
  cbn [map id role id_eqb]. rewrite Z.eqb_refl.
  destruct (Z.eqb_spec (sendNow env) (sendNow' env + 1)); [contradiction|].
  reflexivity.
Qed.

(** An instance: ["find pizza"], answered with one map source. *)
Lemma sendMessage_replied_witness :
  let env := mkSendEnv 10 10 10
               (fun _ _ => Replied "here" [mkSource "Pizzeria" "u" maps]) in
  messages (sendMessage "find pizza" env initial)
  = [greeting;
     mkMessage (Some 10%Z) USER "find pizza" None None;
     mkMessage (Some 11%Z) AI "here"
       (Some [mkSource "Pizzeria" "u" maps]) (Some false)].
Proof.
  intros env.
  refine (proj1 (sendMessage_replied "find pizza" env initial "here"
                   [mkSource "Pizzeria" "u" maps] eq_refl eq_refl eq_refl _ _)).
  - constructor; [cbn; discriminate|constructor].
  - cbn; lia.
Defined.

(** X2. A text that passes the guard and whose [try] block throws, be it
    the constructor of the client, the request for the position or the
    request to the service: the transcript gains the user's message and,
    in the place of the placeholder, the apology with the message of the
    error (a fixed text when what was thrown is no [Error]); nothing else
    is added, the loading flag is down, and the promise of [sendMessage]
    still resolves. *)
Theorem sendMessage_failed
  (t : string) (env : SendEnv) (st : State) (message : option string) :
  whitespace_only t = false ->
  isLoading st = false ->
  thrown (backend env (Routing.route t) t) = Some message ->
  Forall (fun msg => id msg <> Some (sendNow' env + 1)%Z) (messages st) ->
  (sendNow env <> sendNow' env + 1)%Z ->
  messages (sendMessage t env st)
  = messages st
      ++ [mkMessage (Some (sendNow env)) USER t None None;
          mkMessage (Some (sendNow' env + 1)%Z) AI
            ("Sorry, I ran into an error: "
               ++ match message with
                  | Some m => m
                  | None => "An unknown error occurred."
                  end)%string
            None (Some false)] /\
  input (sendMessage t env st) = ""%string /\
  isLoading (sendMessage t env st) = false.
Proof.
  intros W L B F N.
  rewrite (sendMessage_split t env st (guard_passes t st W L)).
  destruct (finish_flags t env (sendMessage_begin t env st)) as [I Lo].
  rewrite I, Lo, finish_messages, begin_messages.
  split; [|split; reflexivity].
  assert (K : fail_placeholder (sendNow' env + 1)
                ("Sorry, I ran into an error: " ++ error_text message)%string
                (messages st
                   ++ [mkMessage (Some (sendNow env)) USER t None None;
                       mkMessage (Some (sendNow' env + 1)%Z) AI "" None
                         (Some true)])
              = messages st
                  ++ [mkMessage (Some (sendNow env)) USER t None None;
                      mkMessage (Some (sendNow' env + 1)%Z) AI
                        ("Sorry, I ran into an error: " ++ error_text message)
                        None (Some false)]).
  { unfold fail_placeholder. rewrite map_app.
    fold (fail_placeholder (sendNow' env + 1)
            ("Sorry, I ran into an error: " ++ error_text message)%string
            (messages st)).
    rewrite fail_placeholder_fresh by assumption.
    cbn [map id role sources id_eqb]. rewrite Z.eqb_refl.
    destruct (Z.eqb_spec (sendNow env) (sendNow' env + 1)); [contradiction|].
    reflexivity. }
  destruct (backend env (Routing.route t) t) as [rt srcs|m|m];
    cbn [thrown] in B; [discriminate| |]; inversion B; subst m; exact K.
Qed.

(** An instance: the request failed with ["quota"]. *)
Lemma sendMessage_failed_witness :
  let env := mkSendEnv 10 10 10 (fun _ _ => Failed (Some "quota")) in
  messages (sendMessage "hello" env initial)
  = [greeting;
     mkMessage (Some 10%Z) USER "hello" None None;
     mkMessage (Some 11%Z) AI "Sorry, I ran into an error: quota"
       None (Some false)].
Proof.
  intros env.
  refine (proj1 (sendMessage_failed "hello" env initial (Some "quota")
                   eq_refl eq_refl eq_refl _ _)).
  - constructor; [cbn; discriminate|constructor].
  - cbn; lia.
Defined.

Lemma begin_frame (t : string) (env : SendEnv) (st : State) :
  isListening (sendMessage_begin t env st) = isListening st /\
  sessionPromiseRef (sendMessage_begin t env st) = sessionPromiseRef st /\
  mediaStreamRef (sendMessage_begin t env st) = mediaStreamRef st /\
  audioContextRef (sendMessage_begin t env st) = audioContextRef st /\
  scriptProcessorRef (sendMessage_begin t env st) = scriptProcessorRef st /\
  calls (sendMessage_begin t env st) = calls st /\
  isApiKeyReady (sendMessage_begin t env st) = isApiKeyReady st /\
  chatRef (sendMessage_begin t env st) = chatRef st.
Proof. repeat split. Qed.

Lemma finish_frame (t : string) (env : SendEnv) (st : State) :
  isListening (sendMessage_finish t env st) = isListening st /\
  sessionPromiseRef (sendMessage_finish t env st) = sessionPromiseRef st /\
  mediaStreamRef (sendMessage_finish t env st) = mediaStreamRef st /\
  audioContextRef (sendMessage_finish t env st) = audioContextRef st /\
  scriptProcessorRef (sendMessage_finish t env st) = scriptProcessorRef st /\
  calls (sendMessage_finish t env st) = calls st /\
  isApiKeyReady (sendMessage_finish t env st) = isApiKeyReady st /\
  chatRef (sendMessage_finish t env st)
  = match backend env (Routing.route t) t, Routing.route t with
    | NoClient _, _ => chatRef st
    | _, Routing.StandardChat => Some tt
    | _, _ => chatRef st
    end.
Proof.
  unfold sendMessage_finish, enter_branch, initializeChat. cbv zeta.
  destruct (backend env (Routing.route t) t);
    try (repeat split; fail);
    destruct (Routing.route t); try (repeat split; fail);
    destruct (chatRef st) as [[]|] eqn:C; repeat split; cbn; auto.
Qed.

Lemma sendMessage_session (t : string) (env : SendEnv) (st : State) :
  isListening (sendMessage t env st) = isListening st /\
  sessionPromiseRef (sendMessage t env st) = sessionPromiseRef st /\
  mediaStreamRef (sendMessage t env st) = mediaStreamRef st /\
  audioContextRef (sendMessage t env st) = audioContextRef st /\
  calls (sendMessage t env st) = calls st.
Proof.
  destruct (Audio.is_empty (trim t) || isLoading st) eqn:G.
  - unfold sendMessage. rewrite G. repeat split.
  - rewrite (sendMessage_split t env st G).
    destruct (finish_frame t env (sendMessage_begin t env st))
      as (F1 & F2 & F3 & F4 & _ & F6 & _).
    destruct (begin_frame t env st) as (B1 & B2 & B3 & B4 & _ & B6 & _).
    rewrite F1, F2, F3, F4, F6, B1, B2, B3, B4, B6. repeat split.
Qed.

(** X3. [sendMessage] belongs to the text chat alone: whatever the text
    and the answer, it leaves the listening flag, the four refs of the live
    session, the calls made on the platform and the key flag as they are.
    The chat object is created by the plain-chat branch only, and only
    once the constructor of the client has returned: a request routed to
    the maps or the search tool leaves [chatRef] as it was, so does a call
    whose constructor throws, and a refused call creates nothing. *)
Theorem sendMessage_frame (t : string) (env : SendEnv) (st : State) :
  isListening (sendMessage t env st) = isListening st /\
  sessionPromiseRef (sendMessage t env st) = sessionPromiseRef st /\
  mediaStreamRef (sendMessage t env st) = mediaStreamRef st /\
  audioContextRef (sendMessage t env st) = audioContextRef st /\
  scriptProcessorRef (sendMessage t env st) = scriptProcessorRef st /\
  calls (sendMessage t env st) = calls st /\
  isApiKeyReady (sendMessage t env st) = isApiKeyReady st /\
  (Audio.is_empty (trim t) || isLoading st = true ->
   chatRef (sendMessage t env st) = chatRef st) /\
  (Audio.is_empty (trim t) || isLoading st = false ->
   (Routing.route t = Routing.StandardChat ->
    (forall message, backend env (Routing.route t) t <> NoClient message) ->
    chatRef (sendMessage t env st) = Some tt) /\
   (Routing.route t <> Routing.StandardChat ->
    chatRef (sendMessage t env st) = chatRef st) /\
   (forall message,
       backend env (Routing.route t) t = NoClient message ->
       chatRef (sendMessage t env st) = chatRef st)).
Proof.
  destruct (Audio.is_empty (trim t) || isLoading st) eqn:G.
  - unfold sendMessage. rewrite G. repeat split; auto; discriminate.
  - rewrite (sendMessage_split t env st G).
    destruct (finish_frame t env (sendMessage_begin t env st))
      as (F1 & F2 & F3 & F4 & F5 & F6 & F7 & F8).
    destruct (begin_frame t env st) as (B1 & B2 & B3 & B4 & B5 & B6 & B7 & B8).
    rewrite F1, F2, F3, F4, F5, F6, F7, F8, B1, B2, B3, B4, B5, B6, B7, B8.
    repeat split; auto; try discriminate.
    + intros R C. rewrite R in *.
      destruct (backend env Routing.StandardChat t) as [rt srcs|m|m];
        try reflexivity. now contradiction (C m).
    + intros R.
      destruct (backend env (Routing.route t) t); try reflexivity;
        destruct (Routing.route t); try reflexivity; contradiction.
    + intros message C. rewrite C. reflexivity.
Qed.

Lemma render_dots (parse : string -> string) (msg : Message) :
  ChatMessage.body (ChatMessage.render parse msg) = ChatMessage.LoadingDots
  <-> Types.isLoading msg = Some true.
Proof.
  unfold ChatMessage.render. cbn [ChatMessage.body].
  destruct (Types.isLoading msg) as [[]|]; cbn; split; congruence.
Qed.

(** X4. While the request of [sendMessage] is awaited the component is
    busy: the loading flag is up, the input field is empty, the transcript
    ends with the placeholder, which is drawn as the three dots, the send
    button and the text field are disabled, and a second [sendMessage], of
    either revision and with any text, is refused without a change.  The
    whole call is the part after the [await] applied to that state. *)
Theorem send_in_flight
  (t t' : string) (env env' : SendEnv) (st : State) (parse : string -> string) :
  whitespace_only t = false ->
  isLoading st = false ->
  let mid := sendMessage_begin t env st in
  sendMessage t env st = sendMessage_finish t env mid /\
  isLoading mid = true /\
  input mid = ""%string /\
  sendMessage t' env' mid = mid /\
  sendMessage' t' env' mid = mid /\
  sendDisabled mid = true /\
  inputDisabled mid = true /\
  ChatMessage.body (ChatMessage.render parse (last (messages mid) greeting))
  = ChatMessage.LoadingDots.
Proof.
  intros W L mid.
  split; [apply sendMessage_split, guard_passes; assumption|].
  assert (Lm : isLoading mid = true) by reflexivity.
  split; [exact Lm|]. split; [reflexivity|].
  split; [unfold sendMessage; rewrite Lm, orb_true_r; reflexivity|].
  split; [unfold sendMessage'; rewrite Lm, orb_true_r; reflexivity|].
  split; [unfold sendDisabled; now rewrite Lm|].
  split; [unfold inputDisabled; rewrite Lm; apply orb_true_r|].
  subst mid. rewrite begin_messages.
  match goal with
  | |- context [?l ++ [?a; ?b]] =>
      change (l ++ [a; b]) with (l ++ ([a] ++ [b]));
      rewrite (app_assoc l [a] [b])
  end.
  rewrite last_last. apply render_dots. reflexivity.
Qed.

(** An instance: ["hello"] sent from the initial state. *)
Lemma send_in_flight_witness :
  let env := mkSendEnv 10 10 10 (fun _ _ => Replied "ok" []) in
  sendMessage "again" env (sendMessage_begin "hello" env initial)
  = sendMessage_begin "hello" env initial.
Proof.
  intros env.
  exact (proj1 (proj2 (proj2 (proj2
           (send_in_flight "hello" "again" env env initial (fun x => x)
              eq_refl eq_refl))))).
Defined.

Lemma resolve_placeholder_settled k t srcs (l : list Message) :
  Forall (fun msg => id msg = Some k -> Types.isLoading msg <> Some true)
    (resolve_placeholder k t srcs l).
Proof.
  apply Forall_forall. intros x H. unfold resolve_placeholder in H.
  apply in_map_iff in H. destruct H as (msg & <- & _).
  destruct (id_eqb_spec (id msg) (Some k)); cbn; [discriminate|contradiction].
Qed.

Lemma fail_placeholder_settled k t (l : list Message) :
  Forall (fun msg => id msg = Some k -> Types.isLoading msg <> Some true)
    (fail_placeholder k t l).
Proof.
  apply Forall_forall. intros x H. unfold fail_placeholder in H.
  apply in_map_iff in H. destruct H as (msg & <- & _).
  destruct (id_eqb_spec (id msg) (Some k)); cbn; [discriminate|contradiction].
Qed.

Lemma handleApiError_settled now e k (st : State) :
  Forall (fun msg => id msg = Some k -> Types.isLoading msg <> Some true)
    (messages (handleApiError now e (Some k) st)).
Proof.
  unfold handleApiError.
  destruct (_ || _); cbn [messages setMessages setIsApiKeyReady].
  - apply Forall_app. split.
    + apply Forall_forall. intros x H. apply filter_In in H.
      destruct H as [_ H].
      destruct (id_eqb_spec (id x) (Some k)); [discriminate|].
      contradiction.
    + constructor; [discriminate|constructor].
  - apply fail_placeholder_settled.
Qed.

Lemma sendMessage'_messages (t : string) (env : SendEnv) (st : State) :
  Audio.is_empty (trim t) || isLoading st = false ->
  exists mid,
    messages (sendMessage' t env st)
    = match backend env (Routing.route t) t with
      | Replied responseText srcs =>
          resolve_placeholder (sendNow' env + 1) responseText
            (match Routing.route t with Routing.StandardChat => [] | _ => srcs end)
            (messages mid)
      | Failed message | NoClient message =>
          messages (handleApiError (errorNow env) message
                      (Some (sendNow' env + 1)%Z) mid)
      end /\
    isLoading (sendMessage' t env st) = false.
Proof.
  intros G. unfold sendMessage'. rewrite G. cbv zeta.
  destruct (backend env (Routing.route t) t); eexists; split; reflexivity.
Qed.

(** X5. No loading placeholder is left behind.  After a [sendMessage] that
    passed the guard, in either revision and whatever the request did, no
    message that bears the id of the placeholder is still marked as
    loading, so none is drawn as the three dots; and the loading flag of
    the component is down. *)
Theorem placeholder_settled
  (t : string) (env : SendEnv) (st : State) (parse : string -> string) :
  whitespace_only t = false ->
  isLoading st = false ->
  Forall (fun msg =>
            id msg = Some (sendNow' env + 1)%Z ->
            ChatMessage.body (ChatMessage.render parse msg)
            <> ChatMessage.LoadingDots)
    (messages (sendMessage t env st)) /\
  Forall (fun msg =>
            id msg = Some (sendNow' env + 1)%Z ->
            ChatMessage.body (ChatMessage.render parse msg)
            <> ChatMessage.LoadingDots)
    (messages (sendMessage' t env st)) /\
  isLoading (sendMessage t env st) = false /\
  isLoading (sendMessage' t env st) = false.
Proof.
  intros W L. pose proof (guard_passes t st W L) as G.
  assert (R : forall l,
             Forall (fun msg => id msg = Some (sendNow' env + 1)%Z ->
                                Types.isLoading msg <> Some true) l ->
             Forall (fun msg =>
                       id msg = Some (sendNow' env + 1)%Z ->
                       ChatMessage.body (ChatMessage.render parse msg)
                       <> ChatMessage.LoadingDots) l).
  { intros l. apply Forall_impl. intros msg H E D.
    apply render_dots in D. now apply (H E). }
  destruct (sendMessage'_messages t env st G) as (mid & M & Lo).
  split; [|split; [|split]].
  - apply R. rewrite (sendMessage_split t env st G), finish_messages.
    destruct (backend env (Routing.route t) t);
      [apply resolve_placeholder_settled|apply fail_placeholder_settled
      |apply fail_placeholder_settled].
  - apply R. rewrite M.
    destruct (backend env (Routing.route t) t);
      [apply resolve_placeholder_settled|apply handleApiError_settled
      |apply handleApiError_settled].
  - rewrite (sendMessage_split t env st G). apply finish_flags.
  - exact Lo.
Qed.

(** An instance: a failed request for a key, in the later revision. *)
Lemma placeholder_settled_witness :
  let env := mkSendEnv 10 10 20 (fun _ _ => Failed (Some "API Key missing")) in
  isLoading (sendMessage' "hello" env initial) = false.
Proof.
  intros env.
  exact (proj2 (proj2 (proj2
           (placeholder_settled "hello" env initial (fun x => x)
              eq_refl eq_refl)))).
Defined.

(** X6. The controls of the footer agree with the functions behind them.
    The send button is enabled exactly when a click sends: with the button
    enabled, the click appends the user's message and the placeholder (two
    records) and empties the field; with the button disabled outside a live
    session, the click would change nothing.  A key other than Enter in the
    field does nothing; Enter is the click.  The microphone button, which
    binds [stopListening] or [startListening] by [isListening], does what
    [startListening] alone would do. *)
Theorem footer_controls
  (env : SendEnv) (mic : StartEnv) (st : State) (key : string) :
  (sendDisabled st = false ->
   List.length (messages (sendClick env st))
   = S (S (List.length (messages st))) /\
   input (sendClick env st) = ""%string) /\
  (sendDisabled st = true -> isListening st = false ->
   sendClick env st = st) /\
  (key <> "Enter"%string -> onKeyPress key env st = st) /\
  onKeyPress "Enter" env st = sendClick env st /\
  micClick mic st = fst (fst (startListening mic st)).
Proof.
  unfold sendDisabled, sendClick, onKeyPress.
  split; [|split; [|split; [|split]]];
    [| | | |unfold micClick, startListening;
            destruct (isListening st); reflexivity].
  - intros D. apply orb_false_iff in D. destruct D as [D Li].
    rewrite orb_comm in D.
    rewrite (sendMessage_split _ env st D).
    split; [|apply finish_flags].
    rewrite finish_messages, begin_messages.
    destruct (backend env _ _);
      unfold resolve_placeholder, fail_placeholder;
      rewrite length_map, length_app; cbn [List.length]; lia.
  - intros D Li. rewrite Li, orb_false_r in D.
    unfold sendMessage. rewrite orb_comm, D. reflexivity.
  - intros N. destruct (String.eqb_spec key "Enter"); [contradiction|reflexivity].
  - reflexivity.
Qed.

End SendMessageFacts.

(** ** The panel of sources *)

Section ViewFacts.
Import Types.

(** X25. The sources of a message as [ChatMessage] draws them.  The panel
    is there exactly when the message has at least one source; it then
    has one link per source, in the order of the sources, each with the
    address and the title of its source and the icon of its kind. *)
Theorem sources_panel (parse : string -> string) (msg : Message) :
  (ChatMessage.sourceLinks (ChatMessage.render parse msg) = None <->
   sources msg = None \/ sources msg = Some []) /\
  (forall srcs,
      sources msg = Some srcs -> srcs <> [] ->
      exists links,
        ChatMessage.sourceLinks (ChatMessage.render parse msg) = Some links /\
        List.length links = List.length srcs /\
        map ChatMessage.href links = map uri srcs /\
        map ChatMessage.label links = map title srcs /\
        map ChatMessage.icon links
        = map (fun source =>
                 match type source with
                 | search => ChatMessage.SearchIcon
                 | maps => ChatMessage.MapPinIcon
                 end) srcs).
Proof.
  unfold ChatMessage.render. cbn [ChatMessage.sourceLinks].
  split.
  - destruct (sources msg) as [[|x srcs]|]; split; auto; try discriminate.
    intros [H|H]; discriminate H.
  - intros srcs E N. rewrite E. destruct srcs as [|x srcs]; [contradiction|].
    eexists. split; [reflexivity|].
    rewrite length_map, !map_map. cbn [ChatMessage.href ChatMessage.label
                                       ChatMessage.icon].
    repeat split; reflexivity.
Qed.

End ViewFacts.

(** ** The transcript and the session over the operations of the component *)

Section ComponentFacts.
Import Types App.

Lemma extends_refl (l : list Message) : extends l l.
Proof. exists []. now rewrite app_nil_r. Qed.

Lemma extends_trans (a b c : list Message) :
  extends a b -> extends b c -> extends a c.
Proof.
  intros [x X] [y Y]. exists (x ++ y). now rewrite Y, X, app_assoc.
Qed.

Lemma extends_append (msg : Message) (l : list Message) :
  extends l (append msg l).
Proof.
  exists [identity msg]. unfold append. now rewrite map_app.
Qed.

Lemma extends_map (f : Message -> Message) (l : list Message) :
  (forall msg, identity (f msg) = identity msg) -> extends l (map f l).
Proof.
  intros H. exists []. rewrite app_nil_r, map_map. apply map_ext. exact H.
Qed.

Lemma extends_retext i t (l : list Message) : extends l (retext i t l).
Proof.
  apply extends_map. intros msg. destruct (id_eqb (id msg) i); reflexivity.
Qed.

Lemma extends_resolve k t srcs (l : list Message) :
  extends l (resolve_placeholder k t srcs l).
Proof.
  apply extends_map. intros msg.
  destruct (id_eqb (id msg) (Some k)); reflexivity.
Qed.

Lemma extends_fail k t (l : list Message) :
  extends l (fail_placeholder k t l).
Proof.
  apply extends_map. intros msg.
  destruct (id_eqb (id msg) (Some k)); reflexivity.
Qed.

Lemma extends_run_updater l u (ms : list Message) :
  extends ms (run_updater l u ms).
Proof.
  destruct u; cbn [run_updater];
    first [apply extends_append | apply extends_retext].
Qed.

Lemma extends_render l (queue : list Updater) (st : State) :
  extends (messages st) (messages (render l queue st)).
Proof.
  unfold render. cbn [messages setMessages].
  generalize (messages st) as ms.
  induction queue as [|u queue IH]; intros ms; [apply extends_refl|].
  cbn [fold_left]. eapply extends_trans; [apply extends_run_updater|apply IH].
Qed.

Lemma extends_onmessage env m l st :
  extends (messages st) (messages (snd (fst (onmessage env m l st)))).
Proof.
  unfold onmessage.
  destruct (on_inputTranscription env m l) as [l1 q1].
  destruct (on_outputTranscription env m l1) as [l2 q2].
  destruct (on_turnComplete m l2) as [l3 q3].
  destruct (on_audio env m l3) as [l4 s4]. cbn [fst snd].
  apply extends_render.
Qed.

Lemma stopListening_messages (st : State) :
  messages (stopListening st) = messages st.
Proof. apply stopListening_refs. Qed.

Lemma onopen_messages c node (st : State) :
  messages (onopen c node st) = messages st.
Proof.
  unfold onopen. cbv zeta.
  destruct (mediaStreamRef _); reflexivity.
Qed.

Lemma startListening_resume_messages env (st : State) :
  extends (messages st) (messages (fst (fst (startListening_resume env st)))).
Proof.
  unfold startListening_resume.
  destruct (getUserMedia env); [|apply extends_append].
  cbv zeta. destruct (negb (newGoogleGenAI env)); [apply extends_append|].
  destruct (newOutputAudioContext env); [apply extends_refl|].
  apply extends_append.
Qed.

Lemma startListening_messages env (st : State) :
  extends (messages st) (messages (fst (fst (startListening env st)))).
Proof.
  unfold startListening. destruct (isListening st).
  - cbn [fst]. rewrite stopListening_messages. apply extends_refl.
  - apply startListening_resume_messages.
Qed.

Lemma transition_extends (st st' : State) :
  transition st st' -> extends (messages st) (messages st').
Proof.
  intros T.
  destruct T as [v st|t env st|st|env st|env st|c node st|env m l st|now e st].
  - apply extends_refl.
  - destruct (Audio.is_empty (trim t) || isLoading st) eqn:G.
    + unfold sendMessage. rewrite G. apply extends_refl.
    + rewrite (sendMessage_split t env st G), finish_messages.
      eapply extends_trans with (b := messages (sendMessage_begin t env st)).
      * rewrite begin_messages. eexists. rewrite map_app. reflexivity.
      * destruct (backend env (Routing.route t) t);
          [apply extends_resolve|apply extends_fail|apply extends_fail].
  - rewrite stopListening_messages. apply extends_refl.
  - apply startListening_messages.
  - apply startListening_resume_messages.
  - rewrite onopen_messages. apply extends_refl.
  - apply extends_onmessage.
  - unfold onerror. rewrite stopListening_messages. apply extends_append.
Qed.

(** X7. The transcript of [App.tsx] is append-only.  Over any sequence of
    its operations and callbacks (typing, [sendMessage], [startListening],
    whole or resumed after other operations, [stopListening], [onopen],
    [onmessage], [onerror]) the records already
    in the transcript stay, in their order and with their id and role;
    only text, sources and the loading mark of a record change, and new
    records come at the end.  The transcript never gets shorter, and the
    greeting stays its first record. *)
Theorem transcript_append_only (st st' : State) :
  clos_refl_trans State transition st st' ->
  extends (messages st) (messages st') /\
  (List.length (messages st) <= List.length (messages st'))%nat /\
  (hd_error (map identity (messages st)) = Some (identity greeting) ->
   hd_error (map identity (messages st')) = Some (identity greeting)).
Proof.
  intros R.
  assert (E : extends (messages st) (messages st')).
  { induction R as [a b T| |a b c _ IH1 _ IH2].
    - now apply transition_extends.
    - apply extends_refl.
    - eapply extends_trans; eauto. }
  split; [exact E|]. destruct E as [added E]. split.
  - apply (f_equal (@List.length _)) in E.
    rewrite length_app, !length_map in E. lia.
  - rewrite E. destruct (map identity (messages st)); [discriminate|].
    intros H. exact H.
Qed.

(** An instance: a question, then a session that is opened and lost. *)
Lemma transcript_append_only_witness :
  let env := mkSendEnv 10 10 10 (fun _ _ => Replied "ok" []) in
  let mic := mkStartEnv (Some 7%nat) true (Some 3%nat) (resolves 1%nat) 1000 in
  let st1 := sendMessage "hello" env initial in
  let st2 := fst (fst (startListening mic st1)) in
  let st3 := onerror 2000 "lost" st2 in
  extends (messages initial) (messages st3).
Proof.
  intros env mic st1 st2 st3.
  refine (proj1 (transcript_append_only initial st3 _)).
  apply rt_trans with st1; [apply rt_step, t_sendMessage|].
  apply rt_trans with st2; [apply rt_step, t_startListening|].
  apply rt_step, t_onerror.
Defined.

(** What [sendMessage'] and [handleApiError] leave of the session. *)
Lemma handleApiError_session now e k (st : State) :
  isListening (handleApiError now e k st) = isListening st /\
  sessionPromiseRef (handleApiError now e k st) = sessionPromiseRef st /\
  mediaStreamRef (handleApiError now e k st) = mediaStreamRef st /\
  calls (handleApiError now e k st) = calls st.
Proof.
  unfold handleApiError. destruct (_ || _); destruct k; repeat split.
Qed.

Lemma enter_branch_session r (st : State) :
  isListening (enter_branch r st) = isListening st /\
  sessionPromiseRef (enter_branch r st) = sessionPromiseRef st /\
  mediaStreamRef (enter_branch r st) = mediaStreamRef st /\
  calls (enter_branch r st) = calls st.
Proof.
  unfold enter_branch, initializeChat.
  destruct r; try (repeat split; fail). destruct (chatRef st); repeat split.
Qed.

Lemma sendMessage'_session t env (st : State) :
  isListening (sendMessage' t env st) = isListening st /\
  sessionPromiseRef (sendMessage' t env st) = sessionPromiseRef st /\
  mediaStreamRef (sendMessage' t env st) = mediaStreamRef st /\
  calls (sendMessage' t env st) = calls st.
Proof.
  unfold sendMessage'.
  destruct (Audio.is_empty (trim t) || isLoading st); [repeat split|].
  cbv zeta.
  destruct (backend env (Routing.route t) t) as [rt srcs|msg|msg];
    cbn [isListening sessionPromiseRef mediaStreamRef calls setIsLoading
         setMessages];
    repeat match goal with
      | |- context [handleApiError ?n ?e ?k ?x] =>
          destruct (handleApiError_session n e k x) as (H1 & H2 & H3 & H4);
          rewrite H1, H2, H3, H4; clear H1 H2 H3 H4
      | |- context [enter_branch ?r ?x] =>
          destruct (enter_branch_session r x) as (G1 & G2 & G3 & G4);
          rewrite G1, G2, G3, G4; clear G1 G2 G3 G4
      end;
    repeat split.
Qed.

Lemma onmessage_session env m l (st : State) :
  isListening (snd (fst (onmessage env m l st))) = isListening st /\
  sessionPromiseRef (snd (fst (onmessage env m l st))) = sessionPromiseRef st /\
  mediaStreamRef (snd (fst (onmessage env m l st))) = mediaStreamRef st /\
  calls (snd (fst (onmessage env m l st))) = calls st.
Proof.
  destruct (onmessage_component env m l st) as [ms ->]. repeat split.
Qed.

Lemma onopen_session c node (st : State) :
  isListening (onopen c node st) = isListening st /\
  sessionPromiseRef (onopen c node st) = sessionPromiseRef st /\
  mediaStreamRef (onopen c node st) = mediaStreamRef st /\
  calls (onopen c node st) = calls st ++ [ContextCreate c 16000].
Proof.
  unfold onopen. cbv zeta.
  cbn [mediaStreamRef set_audioContextRef call].
  destruct (mediaStreamRef st) eqn:E; repeat split; cbn; auto.
Qed.

Lemma startListening_toggle env (st : State) :
  isListening st = true ->
  fst (fst (startListening env st)) = stopListening st.
Proof. intros L. unfold startListening. now rewrite L. Qed.

Lemma startListening_idle_resume env (st : State) :
  isListening st = false ->
  startListening env st = startListening_resume env st.
Proof. intros L. unfold startListening. now rewrite L. Qed.

Lemma startListening_resume_session env (st : State) :
  (getUserMedia env = None ->
   isListening (fst (fst (startListening_resume env st))) = false /\
   sessionPromiseRef (fst (fst (startListening_resume env st)))
   = sessionPromiseRef st /\
   mediaStreamRef (fst (fst (startListening_resume env st)))
   = mediaStreamRef st) /\
  (forall stream, getUserMedia env = Some stream ->
     mediaStreamRef (fst (fst (startListening_resume env st))) = Some stream).
Proof.
  unfold startListening_resume. split.
  - intros ->. repeat split.
  - intros stream ->. cbv zeta.
    destruct (negb (newGoogleGenAI env)); [reflexivity|].
    destruct (newOutputAudioContext env); reflexivity.
Qed.

Lemma resume_keeps_stream env (st : State) :
  ((isListening st = true -> mediaStreamRef st <> None) /\
   (sessionPromiseRef st <> None -> mediaStreamRef st <> None)) ->
  (isListening (fst (fst (startListening_resume env st))) = true ->
   mediaStreamRef (fst (fst (startListening_resume env st))) <> None) /\
  (sessionPromiseRef (fst (fst (startListening_resume env st))) <> None ->
   mediaStreamRef (fst (fst (startListening_resume env st))) <> None).
Proof.
  intros [I1 I2].
  destruct (startListening_resume_session env st) as [N S].
  destruct (getUserMedia env) as [stream|].
  - rewrite (S stream eq_refl). split; discriminate.
  - destruct (N eq_refl) as (L & P & M). rewrite L, P, M.
    split; [discriminate|exact I2].
Qed.

(** X8. What a held session implies.  In every state the component can
    reach, whatever has run while a [startListening] awaited the
    microphone, a session promise in its ref means that a microphone
    stream is held too, and so does [isListening].  (That [isListening] is
    set whenever a session promise is held is not so: a start that fails
    while another session is open clears the flag and leaves the session
    in its ref.) *)
Theorem session_implies_stream (st : State) :
  reachable st ->
  (isListening st = true -> mediaStreamRef st <> None) /\
  (sessionPromiseRef st <> None -> mediaStreamRef st <> None).
Proof.
  assert (Stop : forall x,
             (isListening (stopListening x) = true ->
              mediaStreamRef (stopListening x) <> None) /\
             (sessionPromiseRef (stopListening x) <> None ->
              mediaStreamRef (stopListening x) <> None)).
  { intros x. destruct (stopListening_refs x) as (S1 & _ & _ & S4 & _).
    rewrite S1, S4. split; [discriminate|intros H; now contradiction H]. }
  induction 1 as [|v st R IH|t env st R IH|t env st R IH|st R IH|env st R IH
                 |env st R IH
                 |c0 node st R IH|env m l st R IH|now e st R IH
                 |now e k st R IH].
  - split; [discriminate|intros H; now contradiction H].
  - exact IH.
  - destruct (sendMessage_session t env st) as (F1 & F2 & F3 & _).
    rewrite F1, F2, F3. exact IH.
  - destruct (sendMessage'_session t env st) as (F1 & F2 & F3 & _).
    rewrite F1, F2, F3. exact IH.
  - apply Stop.
  - destruct (Bool.bool_dec (isListening st) true) as [L|L].
    + rewrite (startListening_toggle env st L). apply Stop.
    + apply not_true_is_false in L.
      rewrite (startListening_idle_resume env st L).
      now apply resume_keeps_stream.
  - now apply resume_keeps_stream.
  - destruct (onopen_session c0 node st) as (F1 & F2 & F3 & _).
    rewrite F1, F2, F3. exact IH.
  - destruct (onmessage_session env m l st) as (F1 & F2 & F3 & _).
    rewrite F1, F2, F3. exact IH.
  - unfold onerror. apply Stop.
  - destruct (handleApiError_session now e k st) as (F1 & F2 & F3 & _).
    rewrite F1, F2, F3. exact IH.
Qed.

(** An instance: the session started from the initial state. *)
Lemma session_implies_stream_witness :
  let mic := mkStartEnv (Some 7%nat) true (Some 3%nat) (resolves 1%nat) 1000 in
  let active := fst (fst (startListening mic initial)) in
  sessionPromiseRef active <> None /\ mediaStreamRef active <> None.
Proof.
  intros mic active.
  assert (S : sessionPromiseRef active <> None) by (cbn; discriminate).
  split; [exact S|].
  exact (proj2 (session_implies_stream active
                  (reach_startListening mic initial reach_initial)) S).
Defined.

Lemma existsb_snoc {A : Type} (f : A -> bool) (l : list A) (x : A) :
  existsb f (l ++ [x]) = existsb f l || f x.
Proof. rewrite existsb_app. cbn. now rewrite orb_false_r. Qed.

Lemma stopListening_no_output (st : State) :
  (forall a, audioContextRef st = Some a -> ctxRate a = 16000%N) ->
  existsb closes_output (calls st) = false ->
  existsb closes_output (calls (stopListening st)) = false.
Proof.
  intros A C. rewrite stopListening_trace, !existsb_app, C.
  destruct (sessionPromiseRef st) as [[s|]|], (mediaStreamRef st),
    (scriptProcessorRef st); cbn [existsb closes_output orb];
    (destruct (audioContextRef st) as [a|] eqn:E; [|reflexivity]);
    (destruct (is_closed a); [reflexivity|]);
    cbn [existsb closes_output orb]; rewrite (A a eq_refl); reflexivity.
Qed.

Lemma startListening_resume_calls env (st : State) :
  calls (fst (fst (startListening_resume env st))) = calls st \/
  exists o, calls (fst (fst (startListening_resume env st)))
            = (calls st ++ [ContextCreate o 24000])
                ++ [LiveConnect (liveConnect env)].
Proof.
  unfold startListening_resume.
  destruct (getUserMedia env); [|now left]. cbv zeta.
  destruct (negb (newGoogleGenAI env)); [now left|].
  destruct (newOutputAudioContext env) as [o|]; [|now left].
  right. exists o. reflexivity.
Qed.

Lemma resume_capture env (st : State) :
  (forall a, audioContextRef st = Some a -> ctxRate a = 16000%N) /\
  existsb closes_output (calls st) = false ->
  (forall a, audioContextRef (fst (fst (startListening_resume env st))) = Some a ->
             ctxRate a = 16000%N) /\
  existsb closes_output (calls (fst (fst (startListening_resume env st)))) = false.
Proof.
  intros [A C]. rewrite ctx_startListening_resume. split; [exact A|].
  destruct (startListening_resume_calls env st) as [->|[o ->]]; [exact C|].
  rewrite !existsb_snoc, C. reflexivity.
Qed.

Lemma capture_invariant (st : State) :
  reachable st ->
  (forall a, audioContextRef st = Some a -> ctxRate a = 16000%N) /\
  existsb closes_output (calls st) = false.
Proof.
  induction 1 as [|v st R IH|t env st R IH|t env st R IH|st R IH|env st R IH
                 |env st R IH
                 |c0 node st R IH|env m l st R IH|now e st R IH
                 |now e k st R IH].
  - split; [discriminate|reflexivity].
  - exact IH.
  - destruct (sendMessage_session t env st) as (_ & _ & _ & F4 & F6).
    rewrite F4, F6. exact IH.
  - destruct (sendMessage'_session t env st) as (_ & _ & _ & F4).
    rewrite ctx_sendMessage', F4. exact IH.
  - destruct IH as [A C]. split.
    + intros a H. apply A. now apply (stopListening_refs st).
    + now apply stopListening_no_output.
  - destruct (Bool.bool_dec (isListening st) true) as [L|L].
    + destruct IH as [A C]. rewrite (startListening_toggle env st L). split.
      * intros a H. apply A. now apply (stopListening_refs st).
      * now apply stopListening_no_output.
    + apply not_true_is_false in L.
      rewrite (startListening_idle_resume env st L). now apply resume_capture.
  - now apply resume_capture.
  - destruct IH as [A C].
    destruct (onopen_session c0 node st) as (_ & _ & _ & F4). rewrite F4.
    split.
    + unfold onopen. cbv zeta.
      destruct (mediaStreamRef _);
        cbn [audioContextRef set_audioContextRef set_scriptProcessorRef];
        intros a H; inversion H; reflexivity.
    + rewrite existsb_snoc, C. reflexivity.
  - destruct (onmessage_session env m l st) as (_ & _ & _ & F4).
    destruct (onmessage_component env m l st) as [ms E].
    rewrite F4. rewrite E, ctx_setMessages. exact IH.
  - destruct IH as [A C]. unfold onerror. split.
    + intros a H.
      match type of H with
      | audioContextRef (stopListening ?x) = _ =>
          apply (stopListening_refs x) in H
      end.
      destruct H as [_ H]. rewrite ctx_setMessages in H. now apply A.
    + apply stopListening_no_output; [|exact C].
      intros a. rewrite ctx_setMessages. apply A.
  - destruct (handleApiError_session now e k st) as (_ & _ & _ & F4).
    rewrite ctx_handleApiError, F4. exact IH.
Qed.

(** X9. The output audio context is never closed.  In every state the
    component can reach, whatever has run while a [startListening] awaited
    the microphone, each [close()] that was called was called on a 16 kHz
    capture context, the only kind the ref ever holds; the 24 kHz context
    that each successful [startListening] creates is closed by no
    operation, [stopListening] and [onerror] included. *)
Theorem output_context_never_closed (st : State) :
  reachable st ->
  (forall a, In (ContextClose a) (calls st) -> ctxRate a = 16000%N) /\
  (forall a, audioContextRef st = Some a -> ctxRate a = 16000%N).
Proof.
  intros R. destruct (capture_invariant st R) as [A C]. split; [|exact A].
  intros a I.
  destruct (N.eqb_spec (ctxRate a) 16000) as [E|N]; [exact E|].
  assert (X : existsb closes_output (calls st) = true).
  { apply existsb_exists. exists (ContextClose a). split; [exact I|].
    cbn. now apply negb_true_iff, N.eqb_neq. }
  congruence.
Qed.

(** An instance: a session opened, its capture started, then stopped. *)
Lemma output_context_never_closed_witness :
  let mic := mkStartEnv (Some 7%nat) true (Some 3%nat) (resolves 1%nat) 1000 in
  let st := stopListening (onopen 4 5%nat (fst (fst (startListening mic initial)))) in
  In (ContextCreate 3 24000) (calls st) /\
  (forall a, In (ContextClose a) (calls st) -> ctxRate a = 16000%N).
Proof.
  intros mic st. split; [left; reflexivity|].
  exact (proj1 (output_context_never_closed st
                  (reach_stopListening _
                     (reach_onopen 4 5%nat _
                        (reach_startListening mic initial reach_initial))))).
Defined.

(** X10. A session that is started, opened and stopped gives back what it
    took, the output context apart.  From a state that holds nothing, a
    successful [startListening], the [onopen] of its channel and a
    [stopListening] leave the four refs empty and [isListening] cleared,
    and the transcript, the input and the chat untouched.  The calls made
    are the two contexts created, the connection, and then, in this order,
    the tracks stopped, the node disconnected, the capture context closed
    and, if the promise of the connection resolves and to the session it
    resolves to, the session closed; a promise that is rejected leaves
    nothing to close. *)
Theorem session_round_trip
  (env : StartEnv) (c : nat) (node : ScriptProcessorNode) (st : State)
  (stream : MediaStream) (out : nat) :
  isListening st = false ->
  sessionPromiseRef st = None ->
  mediaStreamRef st = None ->
  audioContextRef st = None ->
  scriptProcessorRef st = None ->
  getUserMedia env = Some stream ->
  newGoogleGenAI env = true ->
  newOutputAudioContext env = Some out ->
  let started := fst (fst (startListening env st)) in
  let stopped := stopListening (onopen c node started) in
  isListening started = true /\
  snd (fst (startListening env st)) = Some fresh /\
  calls stopped
  = calls st
      ++ [ContextCreate out 24000; LiveConnect (liveConnect env);
          ContextCreate c 16000;
          TrackStop stream; ProcessorDisconnect node;
          ContextClose (mkAudioContext c 16000 running)]
      ++ match liveConnect env with
         | resolves session => [SessionClose session]
         | rejects => []
         end /\
  sessionPromiseRef stopped = None /\
  mediaStreamRef stopped = None /\
  audioContextRef stopped = None /\
  scriptProcessorRef stopped = None /\
  isListening stopped = false /\
  messages stopped = messages st /\
  input stopped = input st /\
  isLoading stopped = isLoading st /\
  chatRef stopped = chatRef st.
Proof.
  destruct st as [ms inp lis loa key chat ses med ctx0 pro cs].
  destruct env as [gum gen noc [session|] sn];
    cbn [isListening sessionPromiseRef mediaStreamRef audioContextRef
         scriptProcessorRef getUserMedia newGoogleGenAI newOutputAudioContext];
    intros -> -> -> -> -> -> -> ->; cbv zeta;
    cbv -[List.app]; rewrite <- ?app_assoc; cbn [List.app];
    repeat split; reflexivity.
Qed.

(** An instance: from the initial state. *)
Lemma session_round_trip_witness :
  let mic := mkStartEnv (Some 7%nat) true (Some 3%nat) (resolves 1%nat) 1000 in
  let started := fst (fst (startListening mic initial)) in
  calls (stopListening (onopen 4 5%nat started))
  = [ContextCreate 3 24000; LiveConnect (resolves 1%nat);
     ContextCreate 4 16000;
     TrackStop 7%nat; ProcessorDisconnect 5%nat;
     ContextClose (mkAudioContext 4 16000 running); SessionClose 1%nat].
Proof.
  intros mic started.
  exact (proj1 (proj2 (proj2
           (session_round_trip mic 4 5%nat initial 7%nat 3%nat
              eq_refl eq_refl eq_refl eq_refl eq_refl eq_refl eq_refl
              eq_refl)))).
Defined.

(** X11. How a [startListening] on an idle component ends.  Its promise
    always resolves: every failure inside is caught.  It yields the
    variables of a session, with the cursor at 0 and no record open,
    exactly when the microphone was granted and both constructors
    succeeded; the stream and the session promise are then held and
    [isListening] is set.  In every other case [isListening] is cleared, no
    session promise is stored, no call is made, and the transcript gains
    one system message, the same microphone message whatever failed. *)
Theorem startListening_idle (env : StartEnv) (st : State) :
  isListening st = false ->
  let st' := fst (fst (startListening env st)) in
  let l := snd (fst (startListening env st)) in
  snd (startListening env st) = Resolved /\
  (l = Some fresh <->
   getUserMedia env <> None /\ newGoogleGenAI env = true /\
   newOutputAudioContext env <> None) /\
  (l = Some fresh ->
   isListening st' = true /\
   mediaStreamRef st' = getUserMedia env /\
   sessionPromiseRef st' = Some (liveConnect env) /\
   messages st' = messages st /\
   nextStartTime fresh == 0 /\ userInputId fresh = None /\
   aiResponseId fresh = None) /\
  (l <> Some fresh ->
   l = None /\
   isListening st' = false /\
   sessionPromiseRef st' = sessionPromiseRef st /\
   calls st' = calls st /\
   messages st'
   = messages st
       ++ [mkMessage (Some (startNow env)) SYSTEM
             "Could not access microphone. Please check permissions."
             None None] /\
   (getUserMedia env = None -> mediaStreamRef st' = mediaStreamRef st)).
Proof.
  intros L st' l. subst st' l. unfold startListening, startListening_resume.
  rewrite L.
  destruct (getUserMedia env) as [stream|]; cbv zeta.
  - destruct (newGoogleGenAI env); cbn [negb].
    + destruct (newOutputAudioContext env) as [o|]; cbn [fst snd].
      * split; [reflexivity|]. split.
        { split; [intros _; repeat split; discriminate|reflexivity]. }
        split; [intros _; repeat split; reflexivity|].
        intros H. now contradiction H.
      * split; [reflexivity|]. split.
        { split; [discriminate|]. intros (_ & _ & H). now contradiction H. }
        split; [discriminate|]. intros _. repeat split. discriminate.
    + cbn [fst snd]. split; [reflexivity|]. split.
      { split; [discriminate|]. intros (_ & H & _). discriminate H. }
      split; [discriminate|]. intros _. repeat split. discriminate.
  - cbn [fst snd]. split; [reflexivity|]. split.
    { split; [discriminate|]. intros (H & _). now contradiction H. }
    split; [discriminate|]. intros _. repeat split.
Qed.

(** An instance: the microphone is refused. *)
Lemma startListening_idle_witness :
  let env := mkStartEnv None true (Some 3%nat) (resolves 1%nat) 1000 in
  snd (startListening env initial) = Resolved.
Proof.
  intros env. exact (proj1 (startListening_idle env initial eq_refl)).
Defined.

(** X12. A channel that opens after the session was stopped.  [onopen]
    does not look at [isListening]: run on a stopped component it still
    creates the capture context and stores it, so that a context is running
    while the component shows itself as not listening; the next
    [stopListening] closes it and clears the ref. *)
Theorem late_onopen (c : nat) (node : ScriptProcessorNode) (st : State) :
  let late := onopen c node (stopListening st) in
  isListening late = false /\
  audioContextRef late = Some (mkAudioContext c 16000 running) /\
  calls late = calls (stopListening st) ++ [ContextCreate c 16000] /\
  calls (stopListening late)
  = calls late ++ [ContextClose (mkAudioContext c 16000 running)] /\
  audioContextRef (stopListening late) = None.
Proof.
  cbv zeta.
  destruct (stopListening_refs st) as (S1 & S2 & S3 & S4 & _).
  destruct (onopen_session c node (stopListening st)) as (O1 & O2 & O3 & O4).
  assert (A : audioContextRef (onopen c node (stopListening st))
              = Some (mkAudioContext c 16000 running)).
  { unfold onopen. cbv zeta. destruct (mediaStreamRef _); reflexivity. }
  assert (P : scriptProcessorRef (onopen c node (stopListening st)) = None).
  { unfold onopen. cbv zeta.
    cbn [mediaStreamRef set_audioContextRef call]. rewrite S2.
    cbn [scriptProcessorRef set_audioContextRef call]. exact S3. }
  split; [now rewrite O1|]. split; [exact A|]. split; [exact O4|].
  split.
  - rewrite stopListening_trace, O2, O3, S1, S2, P, A. reflexivity.
  - apply (stopListening_refs (onopen c node (stopListening st))).
    intros a H. rewrite A in H. inversion H. reflexivity.
Qed.

(** X22. Two starts that overlap.  [startListening] reads [isListening]
    before it awaits the microphone, and the button stays enabled
    meanwhile: a second call made during the [await] passes the guard too,
    and both are resumed.  From a state that holds nothing, both being
    granted: two output contexts are created and two sessions connected;
    the refs keep the stream and the promise of the second only, so that
    [stopListening] stops the tracks of the second stream and closes the
    second session, after which it has nothing left to release; no call is
    made on the first stream or on the first session.  If the second is
    refused the microphone instead, its [catch] block clears [isListening]
    while the first session and its stream stay in their refs. *)
Theorem overlapping_starts
  (env1 env2 env3 : StartEnv) (st : State) (s1 s2 : MediaStream) (o1 o2 : nat) :
  isListening st = false ->
  sessionPromiseRef st = None ->
  mediaStreamRef st = None ->
  audioContextRef st = None ->
  scriptProcessorRef st = None ->
  getUserMedia env1 = Some s1 ->
  newGoogleGenAI env1 = true ->
  newOutputAudioContext env1 = Some o1 ->
  getUserMedia env2 = Some s2 ->
  newGoogleGenAI env2 = true ->
  newOutputAudioContext env2 = Some o2 ->
  getUserMedia env3 = None ->
  let first := fst (fst (startListening_resume env1 st)) in
  let both := fst (fst (startListening_resume env2 first)) in
  let stopped := stopListening both in
  let denied := fst (fst (startListening_resume env3 first)) in
  calls both
  = calls st
      ++ [ContextCreate o1 24000; LiveConnect (liveConnect env1);
          ContextCreate o2 24000; LiveConnect (liveConnect env2)] /\
  mediaStreamRef both = Some s2 /\
  sessionPromiseRef both = Some (liveConnect env2) /\
  isListening both = true /\
  calls stopped
  = calls both
      ++ [TrackStop s2]
      ++ match liveConnect env2 with
         | resolves session => [SessionClose session]
         | rejects => []
         end /\
  mediaStreamRef stopped = None /\
  sessionPromiseRef stopped = None /\
  isListening stopped = false /\
  stopListening stopped = stopped /\
  isListening denied = false /\
  sessionPromiseRef denied = Some (liveConnect env1) /\
  mediaStreamRef denied = Some s1 /\
  calls denied = calls first /\
  (reachable st -> reachable both /\ reachable denied).
Proof.
  intros L P M A N G1 C1 O1 G2 C2 O2 G3 first both stopped denied.
  assert (R : reachable st -> reachable both /\ reachable denied).
  { intros R. split; apply reach_startListening_resume;
      apply reach_startListening_resume; exact R. }
  assert (I : stopListening stopped = stopped) by apply stopListening_twice.
  split; [|split; [|split; [|split; [|split; [|split; [|split; [|split;
    [|split; [exact I|split; [|split; [|split; [|split; [|exact R]]]]]]]]]]]]];
    clear R I; subst first both stopped denied;
    destruct st as [ms inp lis loa key chat ses med ctx0 pro cs];
    destruct env1 as [gum1 gen1 noc1 lc1 sn1];
    destruct env2 as [gum2 gen2 noc2 lc2 sn2];
    destruct env3 as [gum3 gen3 noc3 lc3 sn3];
    cbn [isListening sessionPromiseRef mediaStreamRef audioContextRef
         scriptProcessorRef getUserMedia newGoogleGenAI newOutputAudioContext]
      in *;
    subst; try (destruct lc2 as [session|]);
    cbv -[List.app]; rewrite <- ?app_assoc; reflexivity.
Qed.

(** An instance: two clicks on the microphone of the initial state, both
    granted. *)
Lemma overlapping_starts_witness :
  let env1 := mkStartEnv (Some 7%nat) true (Some 3%nat) (resolves 1%nat) 1000 in
  let env2 := mkStartEnv (Some 8%nat) true (Some 4%nat) (resolves 2%nat) 1001 in
  let env3 := mkStartEnv None true (Some 5%nat) (resolves 6%nat) 1002 in
  let both :=
    fst (fst (startListening_resume env2
                (fst (fst (startListening_resume env1 initial))))) in
  calls (stopListening both)
  = [ContextCreate 3 24000; LiveConnect (resolves 1%nat);
     ContextCreate 4 24000; LiveConnect (resolves 2%nat);
     TrackStop 8%nat; SessionClose 2%nat].
Proof.
  intros env1 env2 env3 both.
  exact (eq_trans
           (proj1 (proj2 (proj2 (proj2 (proj2
              (overlapping_starts env1 env2 env3 initial 7%nat 8%nat 3%nat 4%nat
                 eq_refl eq_refl eq_refl eq_refl eq_refl eq_refl eq_refl
                 eq_refl eq_refl eq_refl eq_refl eq_refl))))))
           eq_refl).
Defined.

End ComponentFacts.

(** ** The reconciler over whole turns *)

Section TurnFacts.
Import Types App.

Lemma string_app_assoc (a b c : string) :
  ((a ++ b) ++ c = a ++ (b ++ c))%string.
Proof. induction a as [|x a IH]; [reflexivity|]. cbn. now rewrite IH. Qed.

Lemma string_app_nil_r (a : string) : (a ++ "" = a)%string.
Proof. induction a as [|x a IH]; [reflexivity|]. cbn. now rewrite IH. Qed.

(** Input deltas on a turn whose user record is open. *)
Lemma input_deltas_open (uid : Z) (pre : list Message) (ds : list (Env * string)) :
  Forall (fun msg => id msg <> Some uid) pre ->
  forall (r : Run),
    userInputId (live r) = Some uid ->
    messages (component r)
    = pre ++ [mkMessage (Some uid) USER
                (emphasis (currentInputTranscription (live r))) None None] ->
    live (run r (input_deltas ds))
    = mkLive (currentInputTranscription (live r) ++ joined (map snd ds))
        (currentOutputTranscription (live r)) (nextStartTime (live r))
        (Some uid) (aiResponseId (live r)) (scheduled (live r)) /\
    messages (component (run r (input_deltas ds)))
    = pre ++ [mkMessage (Some uid) USER
                (emphasis (currentInputTranscription (live r)
                           ++ joined (map snd ds))) None None] /\
    awaiting (run r (input_deltas ds)) = awaiting r.
Proof.
  intros F. induction ds as [|[e t] ds IH]; intros r U M.
  - cbn [input_deltas map run fold_left joined fold_right].
    rewrite string_app_nil_r. destruct r as [st [ci co n u a sc] aw].
    cbn in *. subst u. auto.
  - cbn [input_deltas map run fold_left fst snd].
    set (r1 := step r (Deliver e (InputTranscriptDelta t))).
    assert (L1 : live r1
                 = mkLive (currentInputTranscription (live r) ++ t)
                     (currentOutputTranscription (live r))
                     (nextStartTime (live r)) (Some uid)
                     (aiResponseId (live r)) (scheduled (live r))).
    { subst r1. destruct r as [st [ci co n u a sc] aw]. cbn in U. subst u.
      reflexivity. }
    assert (M1 : messages (component r1)
                 = pre ++ [mkMessage (Some uid) USER
                             (emphasis (currentInputTranscription (live r) ++ t))
                             None None]).
    { subst r1. destruct r as [st [ci co n u a sc] aw]. cbn in U, M. subst u.
      cbn [step live component onmessage on_inputTranscription
           on_outputTranscription on_turnComplete on_audio
           InputTranscriptDelta inputTranscription outputTranscription
           turnComplete inlineData userInputId aiResponseId
           currentInputTranscription currentOutputTranscription
           nextStartTime scheduled List.app render fold_left run_updater
           setMessages messages].
      rewrite M, retext_app, retext_fresh by assumption.
      unfold retext. cbn [map id id_eqb with_text role sources].
      now rewrite Z.eqb_refl. }
    assert (A1 : awaiting r1 = awaiting r).
    { subst r1. destruct r as [st [ci co n u a sc] aw]. cbn in U. subst u.
      cbn. apply app_nil_r. }
    assert (U1 : userInputId (live r1) = Some uid) by now rewrite L1.
    assert (M1' : messages (component r1)
                  = pre ++ [mkMessage (Some uid) USER
                              (emphasis (currentInputTranscription (live r1)))
                              None None]) by now rewrite L1.
    destruct (IH r1 U1 M1') as (L & M2 & A).
    fold (input_deltas ds). fold (run r1 (input_deltas ds)).
    rewrite L, M2, A, A1, L1.
    cbn [currentInputTranscription currentOutputTranscription nextStartTime
         aiResponseId scheduled joined map fold_right snd].
    fold (joined (map snd ds)). rewrite !string_app_assoc. auto.
Qed.

(** Output deltas on a turn whose AI record is open. *)
Lemma output_deltas_open (aid : Z) (pre : list Message) (ds : list (Env * string)) :
  Forall (fun msg => id msg <> Some aid) pre ->
  forall (r : Run),
    aiResponseId (live r) = Some aid ->
    messages (component r)
    = pre ++ [mkMessage (Some aid) AI
                (currentOutputTranscription (live r)) None None] ->
    live (run r (output_deltas ds))
    = mkLive (currentInputTranscription (live r))
        (currentOutputTranscription (live r) ++ joined (map snd ds))
        (nextStartTime (live r))
        (userInputId (live r)) (Some aid) (scheduled (live r)) /\
    messages (component (run r (output_deltas ds)))
    = pre ++ [mkMessage (Some aid) AI
                (currentOutputTranscription (live r) ++ joined (map snd ds))
                None None] /\
    awaiting (run r (output_deltas ds)) = awaiting r.
Proof.
  intros F. induction ds as [|[e t] ds IH]; intros r U M.
  - cbn [output_deltas map run fold_left joined fold_right].
    rewrite string_app_nil_r. destruct r as [st [ci co n u a sc] aw].
    cbn in *. subst a. auto.
  - cbn [output_deltas map run fold_left fst snd].
    set (r1 := step r (Deliver e (OutputTranscriptDelta t))).
    assert (L1 : live r1
                 = mkLive (currentInputTranscription (live r))
                     (currentOutputTranscription (live r) ++ t)
                     (nextStartTime (live r)) (userInputId (live r))
                     (Some aid) (scheduled (live r))).
    { subst r1. destruct r as [st [ci co n u a sc] aw]. cbn in U. subst a.
      reflexivity. }
    assert (M1 : messages (component r1)
                 = pre ++ [mkMessage (Some aid) AI
                             (currentOutputTranscription (live r) ++ t)
                             None None]).
    { subst r1. destruct r as [st [ci co n u a sc] aw]. cbn in U, M. subst a.
      cbn [step live component onmessage on_inputTranscription
           on_outputTranscription on_turnComplete on_audio
           OutputTranscriptDelta inputTranscription outputTranscription
           turnComplete inlineData userInputId aiResponseId
           currentInputTranscription currentOutputTranscription
           nextStartTime scheduled List.app render fold_left run_updater
           setMessages messages].
      rewrite M, retext_app, retext_fresh by assumption.
      unfold retext. cbn [map id id_eqb with_text role sources].
      now rewrite Z.eqb_refl. }
    assert (A1 : awaiting r1 = awaiting r).
    { subst r1. destruct r as [st [ci co n u a sc] aw]. cbn in U. subst a.
      cbn. apply app_nil_r. }
    assert (U1 : aiResponseId (live r1) = Some aid) by now rewrite L1.
    assert (M1' : messages (component r1)
                  = pre ++ [mkMessage (Some aid) AI
                              (currentOutputTranscription (live r1))
                              None None]) by now rewrite L1.
    destruct (IH r1 U1 M1') as (L & M2 & A).
    fold (output_deltas ds). fold (run r1 (output_deltas ds)).
    rewrite L, M2, A, A1, L1.
    cbn [currentInputTranscription currentOutputTranscription nextStartTime
         userInputId scheduled joined map fold_right snd].
    fold (joined (map snd ds)). rewrite !string_app_assoc. auto.
Qed.

Lemma no_null_retext t (l : list Message) :
  Forall (fun msg => id msg <> None) l -> retext None t l = l.
Proof. apply retext_fresh. Qed.

(** X13. A whole turn of the user's speech.  From a fresh session, any
    number of input deltas, each rendered, followed by the end of the turn
    add one record to the transcript, the id of the record being new to
    the transcript: while the turn is open its text is all the deltas so
    far, in their order, between two asterisks, and no other record is
    touched.  The end of the turn leaves the record as it is, asterisks
    included: the updater that is to put the bare text in it runs when
    [userInputId] has been cleared, and rewrites the records whose id is
    [null] instead, if the transcript has any.  The variables of the
    reconciler are then as at the start of the session. *)
Theorem input_turn
  (st0 : State) (e eT : Env) (t : string) (ds : list (Env * string)) :
  Forall (fun msg => id msg <> Some (dateNow e)) (messages st0) ->
  let full := joined (t :: map snd ds) in
  let opened := run (mkRun st0 fresh [])
                  (Deliver e (InputTranscriptDelta t) :: input_deltas ds) in
  let closed := step opened (Deliver eT TurnComplete) in
  messages (component opened)
  = messages st0
      ++ [mkMessage (Some (dateNow e)) USER ("*" ++ full ++ "*") None None] /\
  messages (component closed)
  = retext None full (messages st0)
      ++ [mkMessage (Some (dateNow e)) USER ("*" ++ full ++ "*") None None] /\
  (Forall (fun msg => id msg <> None) (messages st0) ->
   messages (component closed) = messages (component opened)) /\
  live closed = fresh /\
  awaiting closed = [].
Proof.
  intros F full opened closed.
  set (r1 := step (mkRun st0 fresh []) (Deliver e (InputTranscriptDelta t))).
  assert (U1 : userInputId (live r1) = Some (dateNow e)) by reflexivity.
  assert (M1 : messages (component r1)
               = messages st0
                   ++ [mkMessage (Some (dateNow e)) USER
                         (emphasis (currentInputTranscription (live r1)))
                         None None]) by reflexivity.
  destruct (input_deltas_open (dateNow e) (messages st0) ds F r1 U1 M1)
    as (L & M & A).
  change (run r1 (input_deltas ds)) with opened in L, M, A.
  assert (C : (currentInputTranscription (live r1) ++ joined (map snd ds))%string
              = full) by reflexivity.
  rewrite C in L, M.
  split; [exact M|].
  assert (K : messages (component closed)
              = retext None full (messages st0)
                  ++ [mkMessage (Some (dateNow e)) USER ("*" ++ full ++ "*")
                        None None]).
  { subst closed. cbn [step]. rewrite turnComplete_alone, L.
    cbn [component setMessages messages currentInputTranscription].
    rewrite M, retext_app. reflexivity. }
  split; [exact K|].
  split; [intros Z; rewrite K, M; now rewrite no_null_retext|].
  subst closed. cbn [step]. rewrite turnComplete_alone, L, A.
  split; reflexivity.
Qed.

(** An instance: the deltas ["Hel"], ["lo "], ["there"] on the initial
    transcript. *)
Lemma input_turn_witness :
  let e := mkEnv 50 50 0 in
  messages
    (component
       (step (run (mkRun initial fresh [])
                (Deliver e (InputTranscriptDelta "Hel")
                 :: input_deltas [(e, "lo "); (e, "there")]))
          (Deliver e TurnComplete)))
  = [greeting; mkMessage (Some 50%Z) USER "*Hello there*" None None].
Proof.
  intros e.
  refine (proj1 (proj2 (input_turn initial e e "Hel" [(e, "lo "); (e, "there")] _))).
  constructor; [cbn; discriminate|constructor].
Defined.

(** X14. A whole turn of the model's speech.  From a fresh session, any
    number of output deltas, each rendered, followed by the end of the
    turn add one AI record, its id being new to the transcript: its text
    is the deltas so far in their order, with no marker at any time, and
    no other record is touched while the turn is open.  The end of the
    turn leaves the record as it is, creates no user record, and resets
    the variables of the reconciler; its updater runs with [userInputId]
    cleared and gives the empty input text to the records whose id is
    [null], so that a transcript without such records is left as it
    was. *)
Theorem output_turn
  (st0 : State) (e eT : Env) (t : string) (ds : list (Env * string)) :
  Forall (fun msg => id msg <> Some (dateNow' e + 1)%Z) (messages st0) ->
  let full := joined (t :: map snd ds) in
  let opened := run (mkRun st0 fresh [])
                  (Deliver e (OutputTranscriptDelta t) :: output_deltas ds) in
  let closed := step opened (Deliver eT TurnComplete) in
  messages (component opened)
  = messages st0 ++ [mkMessage (Some (dateNow' e + 1)%Z) AI full None None] /\
  messages (component closed)
  = retext None "" (messages st0)
      ++ [mkMessage (Some (dateNow' e + 1)%Z) AI full None None] /\
  (Forall (fun msg => id msg <> None) (messages st0) ->
   messages (component closed) = messages (component opened)) /\
  live closed = fresh /\
  awaiting closed = [].
Proof.
  intros F full opened closed.
  set (r1 := step (mkRun st0 fresh []) (Deliver e (OutputTranscriptDelta t))).
  assert (U1 : aiResponseId (live r1) = Some (dateNow' e + 1)%Z) by reflexivity.
  assert (M1 : messages (component r1)
               = messages st0
                   ++ [mkMessage (Some (dateNow' e + 1)%Z) AI
                         (currentOutputTranscription (live r1)) None None])
    by reflexivity.
  destruct (output_deltas_open (dateNow' e + 1) (messages st0) ds F r1 U1 M1)
    as (L & M & A).
  change (run r1 (output_deltas ds)) with opened in L, M, A.
  assert (C : (currentOutputTranscription (live r1) ++ joined (map snd ds))%string
              = full) by reflexivity.
  rewrite C in L, M.
  split; [exact M|].
  assert (K : messages (component closed)
              = retext None "" (messages st0)
                  ++ [mkMessage (Some (dateNow' e + 1)%Z) AI full None None]).
  { subst closed. cbn [step]. rewrite turnComplete_alone, L.
    cbn [component setMessages messages currentInputTranscription].
    rewrite M, retext_app. reflexivity. }
  split; [exact K|].
  split; [intros Z; rewrite K, M; now rewrite no_null_retext|].
  subst closed. cbn [step]. rewrite turnComplete_alone, L, A.
  split; reflexivity.
Qed.

(** An instance: two output deltas on the initial transcript. *)
Lemma output_turn_witness :
  let e := mkEnv 50 50 0 in
  messages
    (component
       (run (mkRun initial fresh [])
          (Deliver e (OutputTranscriptDelta "Good ")
           :: output_deltas [(e, "day")])))
  = [greeting; mkMessage (Some 51%Z) AI "Good day" None None].
Proof.
  intros e.
  refine (proj1 (output_turn initial e e "Good " [(e, "day")] _)).
  constructor; [cbn; discriminate|constructor].
Defined.

Lemma append_nth (x : Message) (l : list Message) (n : nat) (msg : Message) :
  nth_error l n = Some msg -> nth_error (append x l) n = Some msg.
Proof.
  intros H. unfold append. rewrite nth_error_app1; [exact H|].
  apply nth_error_Some. congruence.
Qed.

(** The audio part of [onmessage] leaves the variables of the reconciler. *)
Lemma on_audio_vars env m l :
  userInputId (fst (on_audio env m l)) = userInputId l /\
  aiResponseId (fst (on_audio env m l)) = aiResponseId l /\
  currentInputTranscription (fst (on_audio env m l))
  = currentInputTranscription l /\
  currentOutputTranscription (fst (on_audio env m l))
  = currentOutputTranscription l.
Proof.
  unfold on_audio.
  destruct (inlineData m) as [|a|]; try (repeat split; fail).
  destruct (Audio.is_empty a); [repeat split|].
  destruct (Audio.decode a) as [d|]; [|repeat split].
  destruct (Audio.decodeAudioData d 24000 1); repeat split.
Qed.

(** What a rendering keeps: a record whose id is neither handle, as the
    handles are when the updaters run. *)
Lemma render_nth l (queue : list Updater) (st : State) (n : nat) (msg : Message) :
  nth_error (messages st) n = Some msg ->
  (In RetextUserRecord queue -> id msg <> userInputId l) ->
  ((exists fullInput, In (FinalizeUserRecord fullInput) queue) ->
   id msg <> userInputId l) ->
  (In RetextAIRecord queue -> id msg <> aiResponseId l) ->
  nth_error (messages (render l queue st)) n = Some msg.
Proof.
  unfold render. cbn [messages setMessages].
  generalize (messages st) as ms.
  induction queue as [|u queue IH]; intros ms H U F A; [exact H|].
  cbn [fold_left]. apply IH.
  - destruct u; cbn [run_updater].
    + now apply append_nth.
    + apply retext_nth; [exact H|]. apply U. now left.
    + now apply append_nth.
    + apply retext_nth; [exact H|]. apply A. now left.
    + apply retext_nth; [exact H|]. apply F. eexists. now left.
  - intros I. apply U. now right.
  - intros [x I]. apply F. exists x. now right.
  - intros I. apply A. now right.
Qed.

(** X15. [onmessage] rewrites only the records of the open turn.  Whatever
    the message carries, a record of the transcript stays as it is, at its
    place, unless its id is the id of the open user record or of the open
    AI record, or the id the message would give to a record it opens (the
    clock for the user's, the clock plus one for the model's), or, when
    the message ends the turn, [null]: the updaters of such a message run
    with both handles cleared. *)
Theorem onmessage_keeps_other_records
  (env : Env) (m : ServerMessage) (l : Live) (st : State)
  (n : nat) (msg : Message) :
  nth_error (messages st) n = Some msg ->
  (forall u, userInputId l = Some u -> id msg <> Some u) ->
  (forall a, aiResponseId l = Some a -> id msg <> Some a) ->
  id msg <> Some (dateNow env) ->
  id msg <> Some (dateNow' env + 1)%Z ->
  (turnComplete m = true -> id msg <> None) ->
  nth_error (messages (snd (fst (onmessage env m l st)))) n = Some msg.
Proof.
  intros H U A D D' T. unfold onmessage.
  destruct (on_inputTranscription env m l) as [l1 q1] eqn:E1.
  destruct (on_outputTranscription env m l1) as [l2 q2] eqn:E2.
  destruct (on_turnComplete m l2) as [l3 q3] eqn:E3.
  pose proof (on_audio_vars env m l3) as (V1 & V2 & _).
  destruct (on_audio env m l3) as [l4 s4]. cbn [fst snd] in *.
  unfold on_inputTranscription in E1. unfold on_outputTranscription in E2.
  unfold on_turnComplete in E3.
  apply render_nth; [exact H| | |]; rewrite ?V1, ?V2;
    destruct (inputTranscription m), (userInputId l) as [u|] eqn:EU,
      (outputTranscription m); cbv zeta in *;
      inversion E1; subst l1 q1; clear E1;
      cbn [aiResponseId userInputId] in *;
      destruct (aiResponseId l) as [a|] eqn:EA;
      inversion E2; subst l2 q2; clear E2;
      destruct (turnComplete m); inversion E3; subst l3 q3; clear E3;
      cbn [List.app In userInputId aiResponseId];
      try (intros [? [X|X]]; try discriminate X; try contradiction);
      try (intros [X|[X|X]]; try discriminate X; try contradiction);
      try (intros [X|X]; try discriminate X; try contradiction);
      try (intros [? [X|[X|X]]]; try discriminate X; try contradiction);
      try (intros [? [X|[X|[X|X]]]]; try discriminate X; try contradiction);
      try (intros [X|[X|[X|X]]]; try discriminate X; try contradiction);
      try (intros X; contradiction);
      try (intros [? []]);
      try (apply T; reflexivity);
      try (apply (U u); reflexivity);
      try (apply (A a); reflexivity);
      try (apply (U _ eq_refl));
      try (apply (A _ eq_refl));
      try assumption.
Qed.

(** An instance: the greeting under a turn that is completed. *)
Lemma onmessage_keeps_other_records_witness :
  let st := setMessages
              (append (mkMessage (Some 50%Z) USER "*Hi*" None None)) initial in
  let l := mkLive "Hi" "" 0 (Some 50%Z) None [] in
  nth_error (messages (snd (fst (onmessage (mkEnv 60 60 0) TurnComplete l st)))) 0
  = Some greeting.
Proof.
  intros st l.
  refine (onmessage_keeps_other_records (mkEnv 60 60 0) TurnComplete l st 0
            greeting eq_refl _ _ _ _ _); cbn.
  - intros u E. inversion E. discriminate.
  - intros a E. discriminate E.
  - discriminate.
  - discriminate.
  - intros _. discriminate.
Defined.

(** X21. The end of a turn, repeated.  A [turnComplete] message adds no
    record, leaves the cursor and the queue of the scheduler, and resets
    the variables of the reconciler; its updater gives the cumulative
    input text to the records whose id is [null] and to no other.  A
    second [turnComplete] right after it gives them the empty text, the
    buffer having been emptied, and from then on nothing changes any more.
    On a transcript with no such record the first one already changes
    nothing in it, and the second changes nothing at all: in particular
    the end of a turn with no delta before it creates no record. *)
Theorem turnComplete_idempotent (r : Run) (e e' e'' : Env) :
  let once := step r (Deliver e TurnComplete) in
  let twice := step once (Deliver e' TurnComplete) in
  messages (component once)
  = retext None (currentInputTranscription (live r)) (messages (component r)) /\
  messages (component twice) = retext None "" (messages (component r)) /\
  live twice = live once /\
  awaiting twice = awaiting once /\
  step twice (Deliver e'' TurnComplete) = twice /\
  (Forall (fun msg => id msg <> None) (messages (component r)) ->
   twice = once /\ messages (component once) = messages (component r)) /\
  List.length (messages (component once))
  = List.length (messages (component r)) /\
  nextStartTime (live once) = nextStartTime (live r) /\
  scheduled (live once) = scheduled (live r).
Proof.
  destruct r as [st [ci co n u a sc] aw]. cbv zeta. cbn [step].
  cbn [live component awaiting].
  rewrite (turnComplete_alone e).
  cbn [live component awaiting userInputId currentInputTranscription
       nextStartTime scheduled].
  rewrite (turnComplete_alone e').
  cbn [live component awaiting userInputId currentInputTranscription
       nextStartTime scheduled].
  rewrite (turnComplete_alone e'').
  cbn [live component awaiting userInputId currentInputTranscription
       nextStartTime scheduled messages setMessages].
  rewrite !app_nil_r.
  split; [reflexivity|]. split; [apply retext_retext|].
  split; [reflexivity|]. split; [reflexivity|].
  split.
  { destruct st. unfold setMessages.
    cbn [messages input isListening isLoading isApiKeyReady chatRef
         sessionPromiseRef mediaStreamRef audioContextRef scriptProcessorRef
         calls].
    now rewrite !retext_retext. }
  split.
  { intros F. destruct st. unfold setMessages.
    cbn [messages input isListening isLoading isApiKeyReady chatRef
         sessionPromiseRef mediaStreamRef audioContextRef scriptProcessorRef
         calls] in *.
    rewrite !(no_null_retext _ _ F). split; reflexivity. }
  split; [apply length_map|]. split; reflexivity.
Qed.

(** X23. A turn carried by one message.  A message that brings the first
    input delta of a turn and ends the turn at once hands over two
    updaters and clears the variables before either runs.  The record
    that is appended therefore gets the id [null] and, for a moment, an
    empty text between two asterisks; the updater of the end of the turn,
    which compares the ids with [null] by then, gives it the full text
    with no asterisk, as it does to every record whose id is [null].  The
    handle of that record is lost: it is cleared before the record
    exists. *)
Theorem turn_in_one_message (env : Env) (t : string) (l : Live) (st : State) :
  userInputId l = None ->
  let m := mkServerMessage (Some t) None true NoData in
  let res := onmessage env m l st in
  let full := (currentInputTranscription l ++ t)%string in
  messages (snd (fst res))
  = retext None full (messages st) ++ [mkMessage None USER full None None] /\
  fst (fst res) = mkLive "" "" (nextStartTime l) None None (scheduled l) /\
  snd res = Completed.
Proof.
  intros U m res full. subst res m full.
  destruct l as [ci co n u a sc]. cbn in U. subst u.
  cbn [onmessage on_inputTranscription on_outputTranscription on_turnComplete
       on_audio inputTranscription outputTranscription turnComplete inlineData
       userInputId aiResponseId currentInputTranscription
       currentOutputTranscription nextStartTime scheduled fst snd List.app
       render fold_left run_updater setMessages messages].
  split; [|split; reflexivity].
  unfold append. rewrite retext_app. reflexivity.
Qed.

(** An instance: ["Hello"] and the end of the turn in one message, on a
    fresh session. *)
Lemma turn_in_one_message_witness :
  messages
    (snd (fst (onmessage (mkEnv 50 50 0)
                 (mkServerMessage (Some "Hello") None true NoData)
                 fresh initial)))
  = [greeting; mkMessage None USER "Hello" None None].
Proof.
  exact (proj1 (turn_in_one_message (mkEnv 50 50 0) "Hello" fresh initial
                  eq_refl)).
Defined.

(** X24. A first part that is no audio.  When the model turn of a message
    has a first part without [inlineData] (a text part), or no [parts],
    the expression of line 223 throws a [TypeError] and the run of
    [onmessage] ends there, its promise rejected: nothing is decoded or
    scheduled, the cursor stays, no run is left awaiting.  The transcript
    parts of the message have run before: the transcript and the
    variables of the reconciler are those the same message gives without
    its model turn. *)
Theorem part_without_audio (env : Env) (m : ServerMessage) (r : Run) :
  inlineData m = NoInlineData ->
  let bare := mkServerMessage (inputTranscription m) (outputTranscription m)
                (turnComplete m) NoData in
  let r' := step r (Deliver env m) in
  snd (onmessage env m (live r) (component r)) = Threw TypeError /\
  snd (onmessage env bare (live r) (component r)) = Completed /\
  r' = step r (Deliver env bare) /\
  nextStartTime (live r') = nextStartTime (live r) /\
  scheduled (live r') = scheduled (live r) /\
  awaiting r' = awaiting r.
Proof.
  intros E bare r'. subst bare r'.
  destruct m as [it ot tc d]. cbn [inlineData] in E. subst d.
  destruct r as [st [ci co n u a sc] aw].
  cbn [step inputTranscription outputTranscription turnComplete live
       component awaiting].
  unfold onmessage, on_inputTranscription, on_outputTranscription,
    on_turnComplete, on_audio.
  cbn [inputTranscription outputTranscription turnComplete inlineData
       userInputId aiResponseId].
  destruct it, u, ot, a, tc;
    cbn [fst snd live awaiting nextStartTime scheduled aiResponseId
         userInputId];
    rewrite ?app_nil_r; repeat split; reflexivity.
Qed.

(** An instance: a text part together with an output delta. *)
Lemma part_without_audio_witness :
  let m := mkServerMessage None (Some "Hi") false NoInlineData in
  let r := mkRun initial fresh [] in
  snd (onmessage (mkEnv 50 50 0) m (live r) (component r)) = Threw TypeError.
Proof.
  intros m r.
  exact (proj1 (part_without_audio (mkEnv 50 50 0) m r eq_refl)).
Defined.

End TurnFacts.

(** ** Gapless playback *)

Section GaplessFacts.
Import App.

Lemma tight_snoc (q : list PlaybackQueueEntry) (x : PlaybackQueueEntry) :
  tight q ->
  (forall q' e, q = q' ++ [e] -> follows e x) ->
  tight (q ++ [x]).
Proof.
  induction q as [|a q IH]; intros T L.
  - cbn. auto.
  - destruct T as [T1 T2]. change ((a :: q) ++ [x]) with (a :: (q ++ [x])).
    split.
    + destruct q as [|b q']; cbn [List.app].
      * apply (L [] a). reflexivity.
      * exact T1.
    + apply IH; [exact T2|]. intros q' e E. apply (L (a :: q') e).
      now rewrite E.
Qed.

Lemma tight_nth (q : list PlaybackQueueEntry) :
  tight q ->
  forall i e e',
    nth_error q i = Some e -> nth_error q (S i) = Some e' -> follows e e'.
Proof.
  induction q as [|x q IH]; intros T i e e' H H'.
  - destruct i; discriminate.
  - destruct T as [T1 T2]. destruct i as [|i].
    + cbn in H, H'. inversion H; subst. destruct q; [discriminate|].
      cbn in H'. inversion H'; subst. exact T1.
    + cbn in H, H'. eapply IH; eauto.
Qed.

(** A message handled alone that schedules nothing. *)
Lemma handle_without_chunk env m (r : Run) :
  awaiting r = [] ->
  (forall b c, snd (onmessage env m (live r) (component r)) <> Awaiting b c) ->
  awaiting (handle env m r) = [] /\
  scheduled (live (handle env m r)) = scheduled (live r) /\
  (nextStartTime (live (handle env m r)) = nextStartTime (live r) \/
   nextStartTime (live (handle env m r))
   = Qmax (nextStartTime (live r)) (currentTime env)).
Proof.
  intros E N. unfold handle. rewrite E. cbn [step List.length].
  pose proof (onmessage_cursor env m (live r) (component r)) as (S & C & _).
  destruct (onmessage env m (live r) (component r)) as [[l st] s].
  cbn [fst snd] in *. rewrite E.
  destruct s as [| |b c]; [| |now contradiction (N b c)];
    cbn [List.app awaiting nth_error live]; auto.
Qed.

Lemma handle_awaiting env m (r : Run) :
  awaiting r = [] -> awaiting (handle env m r) = [].
Proof.
  intros E. unfold handle. rewrite E. cbn [step List.length].
  destruct (onmessage env m (live r) (component r)) as [[l st] s].
  rewrite E. destruct s; reflexivity.
Qed.

(** What sequential handling keeps, [c] being the last reading of the
    clock: the queue is tight, and the cursor is the end of the last entry
    unless a chunk that was dropped has raised it, to a reading at most. *)
Lemma handle_tight env m (r : Run) (c : Q) :
  c <= currentTime env ->
  awaiting r = [] ->
  tight (scheduled (live r)) ->
  (forall q e, scheduled (live r) = q ++ [e] ->
     nextStartTime (live r) == endTime e \/
     (endTime e < nextStartTime (live r) /\ nextStartTime (live r) <= c)) ->
  tight (scheduled (live (handle env m r))) /\
  (forall q e, scheduled (live (handle env m r)) = q ++ [e] ->
     nextStartTime (live (handle env m r)) == endTime e \/
     (endTime e < nextStartTime (live (handle env m r)) /\
      nextStartTime (live (handle env m r)) <= currentTime env)).
Proof.
  intros K E T L.
  destruct (snd (onmessage env m (live r) (component r))) as [| |b k] eqn:S.
  - destruct (handle_without_chunk env m r E) as (_ & Sc & N).
    { intros b k. rewrite S. discriminate. }
    rewrite Sc. split; [exact T|]. intros q e Q. specialize (L q e Q).
    destruct (Q.max_spec (nextStartTime (live r)) (currentTime env))
      as [[M1 M2]|[M1 M2]];
      destruct N as [-> | ->]; rewrite ?M2; destruct L as [L|[L1 L2]];
        try (left; lra); right; lra.
  - destruct (handle_without_chunk env m r E) as (_ & Sc & N).
    { intros b k. rewrite S. discriminate. }
    rewrite Sc. split; [exact T|]. intros q e0 Q. specialize (L q e0 Q).
    destruct (Q.max_spec (nextStartTime (live r)) (currentTime env))
      as [[M1 M2]|[M1 M2]];
      destruct N as [-> | ->]; rewrite ?M2; destruct L as [L|[L1 L2]];
        try (left; lra); right; lra.
  - destruct (handle_chunk env m r b k E S) as [Sc N]. rewrite Sc, N.
    split.
    + apply tight_snoc; [exact T|]. intros q e Q. specialize (L q e Q).
      unfold follows. cbn [startTime clockAtEnqueue].
      destruct (Q.max_spec (nextStartTime (live r)) (currentTime env))
        as [[M1 M2]|[M1 M2]]; rewrite M2; destruct L as [L|[L1 L2]];
        try (left; lra); right; lra.
    + intros q e Q. apply app_inj_tail in Q. destruct Q as [_ <-].
      left. unfold endTime. cbn [startTime buffer]. reflexivity.
Qed.

Lemma handle_all_tight (ms : list (Env * ServerMessage)) :
  forall (r : Run) (c : Q),
    nondecreasing_from c (map (fun em => currentTime (fst em)) ms) ->
    awaiting r = [] ->
    tight (scheduled (live r)) ->
    (forall q e, scheduled (live r) = q ++ [e] ->
       nextStartTime (live r) == endTime e \/
       (endTime e < nextStartTime (live r) /\ nextStartTime (live r) <= c)) ->
    awaiting (handle_all r ms) = [] /\
    tight (scheduled (live (handle_all r ms))).
Proof.
  induction ms as [|[env m] ms IH]; intros r c N E T L.
  - split; assumption.
  - cbn [map fst nondecreasing_from] in N. destruct N as [K N].
    destruct (handle_tight env m r c K E T L) as [T' L'].
    cbn [handle_all fold_left fst snd].
    apply (IH (handle env m r) (currentTime env) N);
      [now apply handle_awaiting|exact T'|exact L'].
Qed.

(** X16. Playback is gapless.  Messages handled one after the other on a
    fresh session, the output clock never running backwards: each entry of
    the playback queue starts exactly when the entry before it ends, unless
    its chunk arrived after that end, and then it starts at the reading of
    the clock taken on arrival.  Chunks that arrive in a burst are
    therefore played back to back, and a stall costs no more than the time
    the stream was late; chunks that fail to decode in between change
    nothing to this. *)
Theorem playback_gapless (st0 : State) (ms : list (Env * ServerMessage)) :
  nondecreasing_from 0 (map (fun em => currentTime (fst em)) ms) ->
  let r := handle_all (mkRun st0 fresh []) ms in
  awaiting r = [] /\
  (forall i e e',
      nth_error (scheduled (live r)) i = Some e ->
      nth_error (scheduled (live r)) (S i) = Some e' ->
      startTime e' == startTime e + Audio.duration (buffer e) \/
      (startTime e + Audio.duration (buffer e) < clockAtEnqueue e' /\
       startTime e' == clockAtEnqueue e')).
Proof.
  intros N r.
  destruct (handle_all_tight ms (mkRun st0 fresh []) 0 N) as [A T].
  - reflexivity.
  - exact I.
  - intros q e Q. cbn in Q. now destruct q.
  - split; [exact A|]. intros i e e' H H'.
    exact (tight_nth _ T i e e' H H').
Qed.

(** An instance: two chunks of one sample in a burst, then a late one. *)
Lemma playback_gapless_witness :
  let chunk := AudioChunk [Byte.x01; Byte.x00] in
  let ms := [(mkEnv 0 0 1, chunk); (mkEnv 0 0 1, chunk); (mkEnv 0 0 9, chunk)] in
  awaiting (handle_all (mkRun initial fresh []) ms) = [] /\
  List.length (scheduled (live (handle_all (mkRun initial fresh []) ms))) = 3%nat.
Proof.
  intros chunk ms. split; [|reflexivity].
  refine (proj1 (playback_gapless initial ms _)).
  cbn. repeat split; unfold Qle; cbn; lia.
Defined.

End GaplessFacts.

(** ** The frame and its bytes *)

Section FrameBytesFacts.
Import App.

Lemma wrap16_id (z : Z) : (-32768 <= z < 32768)%Z -> wrap16 z = z.
Proof.
  intros R. unfold wrap16.
  destruct (Z_lt_le_dec z 0) as [N|P].
  - replace (z mod 65536)%Z with (z + 65536)%Z.
    + destruct (Z.leb_spec 32768 (z + 65536)); lia.
    + apply Z.mod_unique with (q := (-1)%Z); lia.
  - rewrite Z.mod_small by lia. destruct (Z.leb_spec 32768 z); lia.
Qed.

Lemma inject_le (a b : Z) : inject_Z a <= inject_Z b -> (a <= b)%Z.
Proof. intros H. rewrite Zle_Qle. exact H. Qed.

Lemma inject_lt (a b : Z) : inject_Z a < inject_Z b -> (a < b)%Z.
Proof. intros H. rewrite Zlt_Qlt. exact H. Qed.

Lemma truncate_in_range (x : Q) :
  -32768 <= x -> x < 32768 -> (-32768 <= truncate x < 32768)%Z.
Proof.
  intros Lo Hi. destruct (truncate_spec x) as [P N].
  destruct (Qlt_le_dec x 0) as [Neg|Pos].
  - destruct (N (Qlt_le_weak _ _ Neg)) as [N1 N2].
    split.
    + apply inject_le. change (inject_Z (-32768)) with (-32768). lra.
    + assert (Z1 : (truncate x < 1)%Z).
      { apply inject_lt. change (inject_Z 1) with 1. lra. }
      lia.
  - destruct (P Pos) as [P1 P2]. split.
    + assert (Z1 : (-1 < truncate x)%Z).
      { apply inject_lt. change (inject_Z (-1)) with (-1). lra. }
      lia.
    + apply inject_lt. change (inject_Z 32768) with 32768. lra.
Qed.

(** X17. A sample within range is converted without wrap-around.  For
    every sample [q] with [-1 <= q < 1] the element of the frame is
    [q * 32768] with its fraction dropped, exactly: it lies within
    [-32768, 32767], has the sign of the sample or is 0, and is less than
    one unit away from [q * 32768], on the side of zero. *)
Theorem sample_in_range (q : Q) :
  -1 <= q -> q < 1 ->
  let v := ToInt16 (times_32768 (Finite q)) in
  v = truncate (q * 32768) /\
  (-32768 <= v <= 32767)%Z /\
  (0 <= q -> (0 <= v)%Z /\ inject_Z v <= q * 32768 /\ q * 32768 < inject_Z v + 1) /\
  (q <= 0 -> (v <= 0)%Z /\ inject_Z v - 1 < q * 32768 /\ q * 32768 <= inject_Z v).
Proof.
  intros Lo Hi v. subst v. cbn [times_32768 ToInt16].
  assert (R : (-32768 <= truncate (q * 32768) < 32768)%Z)
    by (apply truncate_in_range; lra).
  rewrite (wrap16_id _ R).
  destruct (truncate_spec (q * 32768)) as [P N].
  split; [reflexivity|]. split; [lia|]. split.
  - intros H. destruct P as [P1 P2]; [lra|]. split; [|split; assumption].
    assert (Z1 : (-1 < truncate (q * 32768))%Z).
    { apply inject_lt. change (inject_Z (-1)) with (-1). lra. }
    lia.
  - intros H. destruct N as [N1 N2]; [lra|]. split; [|split; assumption].
    assert (Z1 : (truncate (q * 32768) < 1)%Z).
    { apply inject_lt. change (inject_Z 1) with 1. lra. }
    lia.
Qed.

(** An instance: the sample -1/3. *)
Lemma sample_in_range_witness :
  ToInt16 (times_32768 (Finite (-1 # 3))) = truncate ((-1 # 3) * 32768).
Proof.
  refine (proj1 (sample_in_range (-1 # 3) _ _)); unfold Qle, Qlt; cbn; lia.
Defined.

Lemma to_N_byte_of (n : N) : Byte.to_N (Audio.byte_of n) = (n mod 256)%N.
Proof.
  unfold Audio.byte_of.
  destruct (Byte.of_N (n mod 256)) as [b|] eqn:E.
  - now apply Byte.to_of_N.
  - apply Byte.of_N_None_iff in E.
    pose proof (N.mod_lt n 256 ltac:(lia)). lia.
Qed.

Lemma int16_of_bytes (v : Z) :
  (-32768 <= v < 32768)%Z ->
  Audio.int16_of_le
    (Audio.byte_of (Z.to_N (v mod 65536) mod 256))
    (Audio.byte_of (Z.to_N (v mod 65536) / 256)) = v.
Proof.
  intros R. unfold Audio.int16_of_le. rewrite !to_N_byte_of.
  pose proof (Z.mod_pos_bound v 65536 ltac:(lia)) as B.
  set (u := Z.to_N (v mod 65536)).
  assert (U : Z.of_N u = (v mod 65536)%Z) by (apply Z2N.id; lia).
  assert (Ub : (u < 65536)%N) by lia.
  rewrite N.Div0.mod_mod.
  assert (D : (u / 256 < 256)%N) by (apply N.Div0.div_lt_upper_bound; lia).
  rewrite (N.mod_small (u / 256) 256) by exact D.
  assert (S : (Z.of_N (u mod 256) + 256 * Z.of_N (u / 256) = v mod 65536)%Z).
  { rewrite <- U. pose proof (N.div_mod u 256 ltac:(lia)) as E.
    rewrite E at 3. rewrite N2Z.inj_add, N2Z.inj_mul.
    change (Z.of_N 256) with 256%Z. apply Z.add_comm. }
  rewrite S. apply (wrap16_id v R).
Qed.

Lemma ToInt16_range (x : Number) : (-32768 <= ToInt16 x < 32768)%Z.
Proof.
  destruct x as [q| |s]; cbn [ToInt16]; try lia. apply wrap16_spec.
Qed.

Lemma samples_of_frame_bytes (l : list Z) :
  Forall (fun v => -32768 <= v < 32768)%Z l ->
  Audio.samples_of_bytes (flat_map bytes_of_int16 l) = l.
Proof.
  induction 1 as [|v l R _ IH]; [reflexivity|].
  cbn [flat_map bytes_of_int16 List.app Audio.samples_of_bytes].
  now rewrite int16_of_bytes, IH.
Qed.

(** X18. What is sent is the frame.  The bytes put into the blob are two
    for each sample, the low byte first; read back two by two as signed
    16-bit numbers they are the frame itself, element for element, and the
    text of the blob decodes to exactly these bytes.  So the remote side
    gets, for every capture buffer, one 16-bit value for each sample: the
    value [onaudioprocess] computed. *)
Theorem blob_carries_frame (inputData : list Number) :
  let sent := flat_map bytes_of_int16 (frame inputData) in
  List.length sent = (2 * List.length inputData)%nat /\
  Audio.samples_of_bytes sent = frame inputData /\
  Audio.decode (data (onaudioprocess inputData)) = Some sent.
Proof.
  intros sent. subst sent.
  assert (R : Forall (fun v => -32768 <= v < 32768)%Z (frame inputData)).
  { rewrite frame_map. apply Forall_forall. intros v H.
    apply in_map_iff in H. destruct H as (x & <- & _). apply ToInt16_range. }
  assert (Len : List.length (flat_map bytes_of_int16 (frame inputData))
                = (2 * List.length inputData)%nat).
  { rewrite flat_map_bytes_length, frame_map, length_map. reflexivity. }
  split; [exact Len|]. split; [now apply samples_of_frame_bytes|].
  apply decode_encode.
Qed.

End FrameBytesFacts.

(** ** The key selection of the later revision *)

Section KeyFacts.
Import Types App.

Lemma stopListening_key (st : State) :
  isApiKeyReady (stopListening st) = isApiKeyReady st.
Proof.
  destruct st as [ms inp lis loa key chat ses med ctx0 pro cs].
  destruct ses as [[s|]|], med, pro, ctx0 as [[c rt []]|]; reflexivity.
Qed.

Lemma startListening_resume_key env (st : State) :
  isApiKeyReady (fst (fst (startListening_resume env st))) = isApiKeyReady st.
Proof.
  unfold startListening_resume.
  destruct (getUserMedia env); [|reflexivity]. cbv zeta.
  destruct (negb (newGoogleGenAI env)); [reflexivity|].
  destruct (newOutputAudioContext env); reflexivity.
Qed.

Lemma startListening_key env (st : State) :
  isApiKeyReady (fst (fst (startListening env st))) = isApiKeyReady st.
Proof.
  unfold startListening. destruct (isListening st).
  - apply stopListening_key.
  - apply startListening_resume_key.
Qed.

Lemma onopen_key c node (st : State) :
  isApiKeyReady (onopen c node st) = isApiKeyReady st.
Proof. unfold onopen. cbv zeta. destruct (mediaStreamRef _); reflexivity. Qed.

Lemma handleApiError_key now e k (st : State) :
  isApiKeyReady (handleApiError now e k st)
  = if Routing.includes (error_text e) "API Key"
       || Routing.includes (error_text e) "Requested entity was not found"
    then false else isApiKeyReady st.
Proof. unfold handleApiError. destruct (_ || _); destruct k; reflexivity. Qed.

Lemma enter_branch_key r (st : State) :
  isApiKeyReady (enter_branch r st) = isApiKeyReady st.
Proof.
  unfold enter_branch, initializeChat.
  destruct r; try reflexivity. destruct (chatRef st); reflexivity.
Qed.

Lemma sendMessage'_key t env (st : State) :
  isApiKeyReady (sendMessage' t env st) = true -> isApiKeyReady st = true.
Proof.
  unfold sendMessage'.
  destruct (Audio.is_empty (trim t) || isLoading st); [auto|]. cbv zeta.
  destruct (backend env (Routing.route t) t) as [rt srcs|msg|msg];
    cbn [isApiKeyReady setIsLoading setMessages];
    rewrite ?handleApiError_key;
    try destruct (_ || _); try discriminate;
    rewrite ?enter_branch_key; auto.
Qed.

(** X19. The chat of the later revision is shown only on the word of the
    host.  In every state that revision can reach, the chat window is
    rendered only if [window.aistudio] exists and either reported a
    selected key or resolved its key dialog; without [window.aistudio] the
    component never leaves the key selection, whatever is done. *)
Theorem chat_needs_aistudio (aistudio : option AIStudio) (st : State) :
  reachable' aistudio st ->
  screen st = ChatWindow ->
  exists a, aistudio = Some a /\
            (hasSelectedApiKey a = true \/ openSelectKey a = true).
Proof.
  intros R S.
  assert (K : isApiKeyReady st = true).
  { unfold screen in S. destruct (isApiKeyReady st); [reflexivity|discriminate]. }
  clear S. revert K.
  induction R as [|st R IH|st R IH|v st R IH|t env st R IH|st R IH|env st R IH
                 |env st R IH
                 |c node st R IH|env m l st R IH|now e st R IH]; intros K.
  - discriminate.
  - unfold checkApiKey in K. destruct aistudio as [a|]; [|auto].
    destruct (hasSelectedApiKey a) eqn:H; [|auto]. exists a. auto.
  - unfold handleSelectApiKey in K. destruct aistudio as [a|]; [|auto].
    destruct (openSelectKey a) eqn:H; [|auto]. exists a. auto.
  - auto.
  - apply IH. now apply (sendMessage'_key t env st).
  - apply IH. now rewrite stopListening_key in K.
  - apply IH. now rewrite startListening_key in K.
  - apply IH. now rewrite startListening_resume_key in K.
  - apply IH. now rewrite onopen_key in K.
  - apply IH. destruct (onmessage_component env m l st) as [ms E].
    now rewrite E in K.
  - apply IH. unfold onerror' in K.
    rewrite stopListening_key, handleApiError_key in K.
    destruct (_ || _); [discriminate|exact K].
Qed.

(** An instance: the host reports a selected key when the component mounts. *)
Lemma chat_needs_aistudio_witness :
  let host := Some (mkAIStudio true false) in
  exists a, host = Some a /\
            (hasSelectedApiKey a = true \/ openSelectKey a = true).
Proof.
  intros host.
  exact (chat_needs_aistudio host (checkApiKey host initial)
           (reach'_checkApiKey host initial (reach'_initial host)) eq_refl).
Defined.

Lemma filter_fresh (k : Z) (l : list Message) :
  Forall (fun msg => id msg <> Some k) l ->
  filter (fun msg => negb (id_eqb (id msg) (Some k))) l = l.
Proof.
  induction 1 as [|msg l H _ IH]; [reflexivity|].
  cbn [filter]. destruct (id_eqb_spec (id msg) (Some k)); [contradiction|].
  cbn [negb]. now rewrite IH.
Qed.

(** X20. A key that is refused sends the user back to the key selection.
    In the later revision, a request that passed the guard and whose [try]
    block threw, the constructor of the client included, with a message
    that contains ["API Key"] or ["Requested entity was not found"] lowers
    the key flag, so that the key selection is rendered; the placeholder
    is taken out of the transcript, which keeps the user's message and
    ends with one system message; the loading flag is down.  Selecting a
    key again brings the chat back with that transcript.  A failure with
    any other message leaves the key flag as it was. *)
Theorem key_error_to_selection
  (t : string) (env : SendEnv) (st : State) (message : option string)
  (a : AIStudio) :
  whitespace_only t = false ->
  isLoading st = false ->
  thrown (backend env (Routing.route t) t) = Some message ->
  Forall (fun msg => id msg <> Some (sendNow' env + 1)%Z) (messages st) ->
  (sendNow env <> sendNow' env + 1)%Z ->
  let keyError :=
    Routing.includes (error_text message) "API Key"
    || Routing.includes (error_text message) "Requested entity was not found" in
  let st' := sendMessage' t env st in
  isLoading st' = false /\
  (keyError = true ->
   screen st' = KeySelection /\
   messages st'
   = messages st
       ++ [mkMessage (Some (sendNow env)) USER t None None;
           mkMessage (Some (errorNow env)) SYSTEM
             "Your API key is invalid or missing. Please select a valid key to continue."
             None None] /\
   (openSelectKey a = true ->
    screen (handleSelectApiKey (Some a) st') = ChatWindow /\
    messages (handleSelectApiKey (Some a) st') = messages st')) /\
  (keyError = false -> isApiKeyReady st' = isApiKeyReady st).
Proof.
  intros W L B F N keyError st'.
  pose proof (guard_passes t st W L) as G.
  assert (E : exists mid,
             st' = setIsLoading false
                     (handleApiError (errorNow env) message
                        (Some (sendNow' env + 1)%Z) mid) /\
             messages mid
             = messages st
                 ++ [mkMessage (Some (sendNow env)) USER t None None;
                     mkMessage (Some (sendNow' env + 1)%Z) AI "" None
                       (Some true)] /\
             isApiKeyReady mid = isApiKeyReady st).
  { subst st'. unfold sendMessage'. rewrite G. cbv zeta.
    destruct (backend env (Routing.route t) t) as [rt srcs|m|m];
      cbn [thrown] in B; [discriminate| |]; inversion B; subst m;
      eexists; (split; [reflexivity|]);
      rewrite ?enter_branch_messages, ?enter_branch_key;
      (split; [apply begin_messages|reflexivity]). }
  destruct E as (mid & E & M & K).
  rewrite E. split; [reflexivity|]. split.
  - intros KE.
    cbn [screen isApiKeyReady messages setIsLoading handleSelectApiKey].
    unfold screen.
    cbn [isApiKeyReady setIsLoading setIsApiKeyReady].
    rewrite handleApiError_key. fold keyError. rewrite KE.
    split; [reflexivity|]. split.
    + unfold handleApiError. fold keyError. rewrite KE.
      cbn [messages setMessages setIsApiKeyReady]. rewrite M.
      rewrite filter_app, filter_fresh by assumption.
      cbn [filter id id_eqb]. rewrite Z.eqb_refl.
      destruct (Z.eqb_spec (sendNow env) (sendNow' env + 1)); [contradiction|].
      cbn [negb List.app]. rewrite <- app_assoc. reflexivity.
    + intros O. rewrite O. split; reflexivity.
  - intros KE. cbn [isApiKeyReady setIsLoading].
    rewrite handleApiError_key. fold keyError. rewrite KE. exact K.
Qed.

(** An instance: the service answers that the entity was not found. *)
Lemma key_error_to_selection_witness :
  let env := mkSendEnv 10 10 20
               (fun _ _ => Failed (Some "Requested entity was not found.")) in
  isLoading (sendMessage' "hello" env initial) = false.
Proof.
  intros env.
  refine (proj1 (key_error_to_selection "hello" env initial
                   (Some "Requested entity was not found.")
                   (mkAIStudio false true) eq_refl eq_refl eq_refl _ _)).
  - constructor; [cbn; discriminate|constructor].
  - cbn; lia.
Defined.

End KeyFacts.
